(** * A shallow embedding of the asynchronous novel crawler (wxzwgx.py)

    The development follows the class [FastNovelCrawler]: the text helpers
    the crawler calls from [re] and [urllib.parse], the retrying fetcher,
    the content extractor, the pagination resolver, the rate controller
    and the chain walker, then the chapter record written to the output
    file and the settings [main_async] reads from the console, followed
    by the properties established about them.

    Conventions of the model.
    - Python [str] values are Rocq strings holding UTF-8 bytes.  [len] counts
      code points (bytes that are not continuation bytes).  The character
      classes [\d] and [\s], [str.strip], [str.lower] and [int] act on
      their ASCII members only.
    - Python [float] values are rationals.  The operations on them
      round: the rounding and the built-in [sum] are what the machine
      makes of them, an [arithmetic] the environment provides, of which
      [binary64] is the IEEE double arithmetic of CPython (infinities
      and NaN apart).
    - HTML parsing is opaque: a document carries the answers of the
      queries the crawler asks of its BeautifulSoup tree. *)

From Stdlib Require Import ZArith QArith Qround Qpower Qabs Lqa.
From Stdlib Require Import String Ascii List Permutation Lia.
From Stdlib Require Import DecimalString.
From stdpp Require Import base option list gmap strings sorting.

#[local] Set Warnings "-clear-no-such-hyp".

Local Open Scope string_scope.
Local Open Scope Z_scope.
Local Open Scope list_scope.
Local Open Scope stdpp_scope.

(** ** Python strings *)

Module PyStr.

Definition code (c : ascii) : N := N_of_ascii c.

Definition is_digit (c : ascii) : bool :=
  (48 <=? code c)%N && (code c <=? 57)%N.

(** [str.isspace] on the ASCII range: TAB..CR, FS..US and SPACE. *)
Definition is_space (c : ascii) : bool :=
  ((9 <=? code c)%N && (code c <=? 13)%N)
  || ((28 <=? code c)%N && (code c <=? 32)%N).

Definition is_alpha (c : ascii) : bool :=
  ((65 <=? code c)%N && (code c <=? 90)%N)
  || ((97 <=? code c)%N && (code c <=? 122)%N).

Definition lower_char (c : ascii) : ascii :=
  if (65 <=? code c)%N && (code c <=? 90)%N
  then ascii_of_N (code c + 32) else c.

(** A UTF-8 continuation byte is [10xxxxxx]. *)
Definition is_continuation (c : ascii) : bool :=
  (128 <=? code c)%N && (code c <? 192)%N.

Fixpoint len (s : string) : nat :=
  match s with
  | EmptyString => 0
  | String c s' => if is_continuation c then len s' else S (len s')
  end.

Fixpoint lower (s : string) : string :=
  match s with
  | EmptyString => EmptyString
  | String c s' => String (lower_char c) (lower s')
  end.

(** [s[n:]] *)
Fixpoint skipn (n : nat) (s : string) : string :=
  match n, s with
  | O, _ => s
  | S n', String _ s' => skipn n' s'
  | S _, EmptyString => EmptyString
  end.

(** [s[:n]] *)
Fixpoint firstn (n : nat) (s : string) : string :=
  match n, s with
  | S n', String c s' => String c (firstn n' s')
  | _, _ => EmptyString
  end.

(** [strip_prefix p s] is [Some r] when [s = p ++ r]. *)
Fixpoint strip_prefix (p s : string) : option string :=
  match p, s with
  | EmptyString, _ => Some s
  | String a p', String b s' =>
      if Ascii.eqb a b then strip_prefix p' s' else None
  | String _ _, EmptyString => None
  end.

Definition startswith (s p : string) : bool :=
  match strip_prefix p s with Some _ => true | None => false end.

(** [needle in s] *)
Fixpoint contains (needle s : string) : bool :=
  if startswith s needle then true
  else match s with
       | EmptyString => false
       | String _ s' => contains needle s'
       end.

Fixpoint has_char (c : ascii) (s : string) : bool :=
  match s with
  | EmptyString => false
  | String a s' => Ascii.eqb a c || has_char c s'
  end.

(** [s.partition(c)]: the text before the first [c] and, when [c]
    occurs, the text after it. *)
Fixpoint partition (c : ascii) (s : string) : string * option string :=
  match s with
  | EmptyString => (EmptyString, None)
  | String a s' =>
      if Ascii.eqb a c then (EmptyString, Some s')
      else let '(l, r) := partition c s' in (String a l, r)
  end.

(** [s.split(c)] *)
Fixpoint split (c : ascii) (s : string) : list string :=
  match s with
  | EmptyString => [EmptyString]
  | String a s' =>
      if Ascii.eqb a c then EmptyString :: split c s'
      else match split c s' with
           | w :: ws => String a w :: ws
           | [] => [String a EmptyString]
           end
  end.

Fixpoint remove_chars (p : ascii → bool) (s : string) : string :=
  match s with
  | EmptyString => EmptyString
  | String a s' =>
      if p a then remove_chars p s' else String a (remove_chars p s')
  end.

Fixpoint replace_char (a b : ascii) (s : string) : string :=
  match s with
  | EmptyString => EmptyString
  | String c s' =>
      String (if Ascii.eqb c a then b else c) (replace_char a b s')
  end.

Fixpoint lstrip (s : string) : string :=
  match s with
  | String c s' => if is_space c then lstrip s' else s
  | EmptyString => EmptyString
  end.

Fixpoint rstrip (s : string) : string :=
  match s with
  | EmptyString => EmptyString
  | String c s' =>
      match rstrip s' with
      | EmptyString => if is_space c then EmptyString
                       else String c EmptyString
      | r => String c r
      end
  end.

Definition strip (s : string) : string := rstrip (lstrip s).

Definition truthy (s : string) : bool :=
  match s with EmptyString => false | _ => true end.

(** Length of the longest prefix of [s] whose characters satisfy [p]. *)
Fixpoint run_length (p : ascii → bool) (s : string) : nat :=
  match s with
  | String c s' => if p c then S (run_length p s') else O
  | EmptyString => O
  end.

Definition digit_value (c : ascii) : Z := Z.of_N (code c) - 48.

(** Value of a string of decimal digits, most significant first. *)
Fixpoint decimal (acc : Z) (s : string) : Z :=
  match s with
  | EmptyString => acc
  | String c s' => decimal (10 * acc + digit_value c) s'
  end.

(** The digit groups accepted by [int]: digits, single underscores
    allowed between two digits. *)
Fixpoint int_digits (after_digit : bool) (acc : Z) (s : string)
  : option Z :=
  match s with
  | EmptyString => if after_digit then Some acc else None
  | String c s' =>
      if is_digit c then int_digits true (10 * acc + digit_value c) s'
      else if Ascii.eqb c "_" && after_digit then
        match s' with
        | String d _ => if is_digit d then int_digits false acc s' else None
        | EmptyString => None
        end
      else None
  end.

(** [int(s)] in base ten; [None] stands for [ValueError]. *)
Definition int (s : string) : option Z :=
  match strip s with
  | String "-" r => Z.opp <$> int_digits false 0 r
  | String "+" r => int_digits false 0 r
  | r => int_digits false 0 r
  end.

End PyStr.

(** ** The fragment of [re] the crawler uses *)

Module Re.
Import PyStr.

(** Patterns are sequences of atoms; at most one atom is a group. *)
Inductive atom :=
| Lit (l : string)                 (* literal text *)
| Plus (p : ascii → bool)          (* [\d+], [\s+]: greedy, one or more *)
| Group (p : ascii → bool)         (* [(\d+)]: the same, captured *)
| Opt (c : ascii)                  (* [c?] *)
| LazyAny.                         (* [.*?] *)

Definition regex := list atom.

Definition newline : ascii := ascii_of_N 10.

(** A greedy repetition that spans at most [k] characters of [s]: the
    longest span after which [rest] matches wins.  With [capture] the
    span is the group. *)
Fixpoint longest_first (k : nat) (rest : string → option (string * string))
    (capture : bool) (s : string) : option (string * string) :=
  match k with
  | O => None
  | S k' =>
      match rest (PyStr.skipn k s) with
      | Some (g, r) => Some (if capture then PyStr.firstn k s else g, r)
      | None => longest_first k' rest capture s
      end
  end.

(** A lazy [.*?]: the shortest span, free of newlines, after which
    [rest] matches. *)
Fixpoint shortest_first (rest : string → option (string * string))
    (s : string) : option (string * string) :=
  match rest s with
  | Some r => Some r
  | None =>
      match s with
      | String c s' =>
          if Ascii.eqb c newline then None else shortest_first rest s'
      | EmptyString => None
      end
  end.

(** Backtracking match of [re] at the start of [s]: the text of the
    group (empty when there is none) and the unmatched rest. *)
Fixpoint match_here (re : regex) (s : string) {struct re}
  : option (string * string) :=
  match re with
  | [] => Some (EmptyString, s)
  | a :: re' =>
      match a with
      | Lit l =>
          match strip_prefix l s with
          | Some s' => match_here re' s'
          | None => None
          end
      | Plus p => longest_first (run_length p s) (match_here re') false s
      | Group p => longest_first (run_length p s) (match_here re') true s
      | Opt c =>
          let skip := match_here re' s in
          match s with
          | String c' s' =>
              if Ascii.eqb c c' then
                match match_here re' s' with
                | Some r => Some r
                | None => skip
                end
              else skip
          | EmptyString => skip
          end
      | LazyAny => shortest_first (match_here re') s
      end
  end.

(** [re.search(re, s)]: the group of the leftmost match. *)
Fixpoint search (re : regex) (s : string) : option string :=
  match match_here re s with
  | Some (g, _) => Some g
  | None =>
      match s with
      | String _ s' => search re s'
      | EmptyString => None
      end
  end.

(** [re.sub(re, repl, s)] for patterns that match no empty text (all
    patterns of the crawler contain a literal or a [+]).  [skip] counts
    the characters of the current match still to be dropped. *)
Fixpoint sub_aux (re : regex) (repl : string) (skip : nat) (s : string)
  : string :=
  match s with
  | EmptyString => EmptyString
  | String c s' =>
      match skip with
      | S k => sub_aux re repl k s'
      | O =>
          match match_here re s with
          | Some (_, rest) =>
              match (String.length s - String.length rest)%nat with
              | S k => repl +:+ sub_aux re repl k s'
              | O => String c (sub_aux re repl O s')
              end
          | None => String c (sub_aux re repl O s')
          end
      end
  end.

Definition sub (re : regex) (repl s : string) : string :=
  sub_aux re repl O s.

(** [tail] is what must follow the digits for the rest of the pattern
    to match: the rest matches exactly the texts that start with
    [tail], and [tail], unless empty, does not start with a digit. *)
Definition follows (rest : regex) (tail : string) : Prop :=
  (∀ s, match_here rest s = None ↔ startswith s tail = false)
  ∧ (tail = EmptyString
     ∨ ∀ c s, is_digit c = true → startswith (String c s) tail = false).

End Re.

(** ** [urllib.parse]

    [urlsplit] follows CPython 3.11; a bracketed host in the authority is
    taken as well formed when its brackets are balanced. *)

Module UrlLib.
Import PyStr.

Record SplitResult := {
  scheme : string; netloc : string; path : string;
  query : string; fragment : string }.

Definition is_scheme_char (c : ascii) : bool :=
  is_alpha c || is_digit c
  || Ascii.eqb c "+" || Ascii.eqb c "-" || Ascii.eqb c ".".

Fixpoint all_chars (p : ascii → bool) (s : string) : bool :=
  match s with
  | EmptyString => true
  | String c s' => p c && all_chars p s'
  end.

Definition is_unsafe (c : ascii) : bool :=
  (code c =? 9)%N || (code c =? 10)%N || (code c =? 13)%N.

(** [url.lstrip(_WHATWG_C0_CONTROL_OR_SPACE)] *)
Fixpoint lstrip_c0 (s : string) : string :=
  match s with
  | String c s' => if (code c <=? 32)%N then lstrip_c0 s' else s
  | EmptyString => EmptyString
  end.

(** The scheme, when the text before the first colon is one. *)
Definition split_scheme (url : string) : string * string :=
  match partition ":" url with
  | (String c pre, Some rest) =>
      if is_alpha c && all_chars is_scheme_char pre
      then (lower (String c pre), rest) else (EmptyString, url)
  | _ => (EmptyString, url)
  end.

(** [_splitnetloc(url, 2)]: the authority ends at the first of [/?#]. *)
Fixpoint splitnetloc (s : string) : string * string :=
  match s with
  | EmptyString => (EmptyString, EmptyString)
  | String c s' =>
      if Ascii.eqb c "/" || Ascii.eqb c "?" || Ascii.eqb c "#"
      then (EmptyString, s)
      else let '(n, r) := splitnetloc s' in (String c n, r)
  end.

(** [urlsplit(url)]; [None] stands for the [ValueError] raised on an
    unbalanced bracket in the authority. *)
Definition urlsplit (url : string) : option SplitResult :=
  let url := remove_chars is_unsafe (lstrip_c0 url) in
  let '(sch, url) := split_scheme url in
  let '(net, url) :=
    match strip_prefix "//" url with
    | Some r => splitnetloc r
    | None => (EmptyString, url)
    end in
  if xorb (has_char "[" net) (has_char "]" net) then None
  else
    let '(url, frag) := partition "#" url in
    let '(url, qry) := partition "?" url in
    Some {| scheme := sch; netloc := net; path := url;
            query := default EmptyString qry;
            fragment := default EmptyString frag |}.

Definition hex_value (c : ascii) : option N :=
  if is_digit c then Some (code c - 48)%N
  else if (65 <=? code c)%N && (code c <=? 70)%N then Some (code c - 55)%N
  else if (97 <=? code c)%N && (code c <=? 102)%N then Some (code c - 87)%N
  else None.

(** [unquote]: every [%XY] with two hexadecimal digits becomes the byte
    [XY]; a percent sign not followed by two of them stays. *)
Fixpoint unquote (s : string) : string :=
  match s with
  | EmptyString => EmptyString
  | String c s' =>
      let keep := String c (unquote s') in
      if Ascii.eqb c "%" then
        match s' with
        | String h (String l s'') =>
            match hex_value h, hex_value l with
            | Some x, Some y =>
                String (ascii_of_N (16 * x + y)) (unquote s'')
            | _, _ => keep
            end
        | _ => keep
        end
      else keep
  end.

(** [parse_qsl(qs)]: the fields separated by [&] that have a [=] and a
    non-blank value, unquoted, [+] read as a space. *)
Definition parse_field (name_value : string) : option (string * string) :=
  match partition "=" name_value with
  | (name, Some value) =>
      if truthy value
      then Some (unquote (replace_char "+" " " name),
                 unquote (replace_char "+" " " value))
      else None
  | (_, None) => None
  end.

Definition parse_qsl (qs : string) : list (string * string) :=
  if truthy qs then omap parse_field (split "&" qs) else [].

(** [parse_qs(qs)[name][0]] when [name in parse_qs(qs)]. *)
Definition qs_first (name : string) (fields : list (string * string))
  : option string :=
  snd <$> List.find (λ nv, String.eqb (fst nv) name) fields.

End UrlLib.

(** ** Python floats *)

Module PyFloat.

(** The arithmetic of the machine: the float [fl x] an operation returns
    when its exact result is [x], and the built-in [sum] of a list of
    floats. *)
Record arithmetic := {
  fl : Q → Q;
  fsum : list Q → Q }.

(** [x + y], [x - y], [x * y] and [x / y] on floats *)
Definition fadd (fa : arithmetic) (x y : Q) : Q := fl fa (x + y)%Q.
Definition fsub (fa : arithmetic) (x y : Q) : Q := fl fa (x - y)%Q.
Definition fmul (fa : arithmetic) (x y : Q) : Q := fl fa (x * y)%Q.
Definition fdiv (fa : arithmetic) (x y : Q) : Q := fl fa (x / y)%Q.

(** What rounding to the nearest float ensures on the numbers that are
    not negative: it keeps the order, leaves a float as it is, and 0, 1
    and 2 are floats. *)
Definition correctly_rounded (fa : arithmetic) : Prop :=
  (∀ x y, (0 <= x)%Q → (x <= y)%Q → (fl fa x <= fl fa y)%Q)
  ∧ (∀ x, (0 <= x)%Q → (fl fa (fl fa x) == fl fa x)%Q)
  ∧ (fl fa 0 == 0)%Q ∧ (fl fa 1 == 1)%Q ∧ (fl fa 2 == 2)%Q.

(** An arithmetic that does not round. *)
Definition unrounded : arithmetic :=
  {| fl := λ x, x; fsum := foldl Qplus 0%Q |}.

(** *** IEEE 754 binary64, rounding to nearest, ties to even *)

Definition pow2 (e : Z) : Q := Qpower 2 e.

(** The floor of the binary logarithm of a positive number. *)
Definition ilog2 (x : Q) : Z :=
  let k := Z.log2 (Qnum x) - Z.log2 (Zpos (Qden x)) in
  if Qle_bool (pow2 k) x then k else k - 1.

(** The nearest integer, the even one of two that are equally near. *)
Definition rne (s : Q) : Z :=
  let q := Qfloor s in
  match Qcompare (s - inject_Z q) (1 # 2) with
  | Lt => q
  | Gt => q + 1
  | Eq => if Z.even q then q else q + 1
  end.

(** The exponent of the last place: 53 significant bits, and no
    exponent below that of the subnormal numbers. *)
Definition exponent (x : Q) : Z := Z.max (ilog2 (Qabs x) - 52) (-1074).

(** The double nearest to [x].  The exponent has no upper limit: a
    result beyond the largest double, which is an infinity in Python,
    is not modelled. *)
Definition round_double (x : Q) : Q :=
  if Qeq_bool x 0 then 0%Q
  else Qred (inject_Z (rne (x / pow2 (exponent x))) * pow2 (exponent x)).

(** [sum] adds from the left, each sum rounded (CPython up to 3.11;
    later versions compensate the rounding errors). *)
Definition binary64 : arithmetic :=
  {| fl := round_double;
     fsum := foldl (λ acc x, round_double (acc + x)) 0%Q |}.

End PyFloat.

(** ** The crawler *)

Module Crawler.
Import PyStr.

(** *** Documents, responses and the environment *)

(** An [<a>] element: its [href] attribute and its text. *)
Record link := { href : option string; link_text : string }.

(** What the crawler asks of a parsed document. *)
Record soup := {
  (* [soup.select_one(sel).get_text()] *)
  select_one : string → option string;
  (* [soup.find('div', class_='blurstxt')] and, inside it, the texts of
     [find_all('p')] *)
  find_blurstxt : option (list string);
  (* [soup.find('a', rel='next')] and its [get('href')] *)
  find_rel_next : option (option string);
  (* [soup.select(sel)] *)
  select : string → list link }.

(** A response body with its parse. *)
Record html := { html_text : string; html_soup : soup }.

(** The outcome of one [session.get]: a response with its status, body
    and round-trip time, or one of the exceptions the fetcher tells
    apart. *)
Inductive response :=
| Http (status : Z) (body : html) (elapsed : Q)
| ClientConnectorError
| ClientSSLError
| TimeoutError
| OtherError.

Inductive exc :=
| KeyboardInterrupt
| BrokenPipeError
| UnboundLocalError (name : string).

(** [isinstance(e, Exception)] *)
Definition is_Exception (e : exc) : bool :=
  match e with KeyboardInterrupt => false | _ => true end.

(** Observable actions, most recent first in a trace. *)
Inductive event :=
| Get (url : string)
| Sleep (seconds : Q)
| Saved (chapter_num : nat) (title : option string) (content : list string).

(** Everything outside the program.  The network and the random source
    may answer differently as the run proceeds, so they see the trace. *)
Record world := {
  urljoin : string → string → string;
  http_get : list event → string → response;
  random_random : list event → Q;
  (* the float arithmetic of the machine *)
  arith : PyFloat.arithmetic;
  (* an exception raised by the console write that opens the visit of
     chapter [n] *)
  node_raises : nat → option exc;
  (* whether appending chapter [n] to the output file succeeds *)
  file_append_ok : nat → bool;
  domain_available : bool;
  output_file_opens : bool }.

(** The attributes of [FastNovelCrawler]. *)
Record crawler := {
  base_url : string;
  concurrent_limit : Z;
  base_delay : Q;
  chapter_count : nat;
  total_words : nat;
  failed_urls : gset string;
  retry_count : nat;
  response_times : list Q;
  server_load_factor : Q }.

Definition __init__ (base_url : string) (concurrent_limit : Z)
    (base_delay : Q) : crawler :=
  {| base_url := base_url; concurrent_limit := concurrent_limit;
     base_delay := base_delay; chapter_count := 0; total_words := 0;
     failed_urls := ∅; retry_count := 5; response_times := [];
     server_load_factor := 1 |}.

Record state := { self : crawler; trace : list event }.

Definition with_self (f : crawler → crawler) (st : state) : state :=
  {| self := f (self st); trace := trace st |}.

Definition set_response_times (l : list Q) (c : crawler) : crawler :=
  {| base_url := base_url c; concurrent_limit := concurrent_limit c;
     base_delay := base_delay c; chapter_count := chapter_count c;
     total_words := total_words c; failed_urls := failed_urls c;
     retry_count := retry_count c; response_times := l;
     server_load_factor := server_load_factor c |}.

Definition set_failed_urls (s : gset string) (c : crawler) : crawler :=
  {| base_url := base_url c; concurrent_limit := concurrent_limit c;
     base_delay := base_delay c; chapter_count := chapter_count c;
     total_words := total_words c; failed_urls := s;
     retry_count := retry_count c; response_times := response_times c;
     server_load_factor := server_load_factor c |}.

Definition set_server_load_factor (f : Q) (c : crawler) : crawler :=
  {| base_url := base_url c; concurrent_limit := concurrent_limit c;
     base_delay := base_delay c; chapter_count := chapter_count c;
     total_words := total_words c; failed_urls := failed_urls c;
     retry_count := retry_count c; response_times := response_times c;
     server_load_factor := f |}.

Definition set_counters (n words : nat) (c : crawler) : crawler :=
  {| base_url := base_url c; concurrent_limit := concurrent_limit c;
     base_delay := base_delay c; chapter_count := n;
     total_words := words; failed_urls := failed_urls c;
     retry_count := retry_count c; response_times := response_times c;
     server_load_factor := server_load_factor c |}.

(** *** A state monad for the methods *)

Definition M (A : Type) : Type := state → A * state.

#[global] Instance M_ret : MRet M := λ A x st, (x, st).
#[global] Instance M_bind : MBind M :=
  λ A B f m st, let '(x, st') := m st in f x st'.

Definition get_self : M crawler := λ st, (self st, st).
Definition get_trace : M (list event) := λ st, (trace st, st).
Definition modify_self (f : crawler → crawler) : M unit :=
  λ st, (tt, with_self f st).
Definition emit (e : event) : M unit :=
  λ st, (tt, {| self := self st; trace := e :: trace st |}).

(** [await asyncio.sleep(seconds)] *)
Definition sleep (seconds : Q) : M unit := emit (Sleep seconds).

(** [session.get(url)]: the request is recorded and the network answers
    from what happened before it. *)
Definition session_get (w : world) (url : string) : M response :=
  h ← get_trace;
  _ ← emit (Get url);
  mret (http_get w h url).

(** *** [_calculate_adaptive_delay] *)

(** [l[-n:]] for a positive [n] *)
Definition last_n {A} (n : nat) (l : list A) : list A :=
  drop (length l - n) l.

Definition Qgtb (x y : Q) : bool := negb (Qle_bool x y).

(** [random.uniform(a, b)] is [a + (b - a) * random()]. *)
Definition uniform (fa : PyFloat.arithmetic) (a b u : Q) : Q :=
  PyFloat.fadd fa a (PyFloat.fmul fa (PyFloat.fsub fa b a) u).

Definition load_factor_for (avg_response_time : Q) : Q :=
  if Qgtb avg_response_time 5 then 3%Q
  else if Qgtb avg_response_time 3 then (5 # 2)%Q
  else if Qgtb avg_response_time (3 # 2) then 2%Q
  else (3 # 2)%Q.

(** [fa] is the arithmetic of the machine and [u] the value
    [random.random()] returns when it is called.  Every operation on
    floats rounds its result; the comparisons are exact. *)
Definition _calculate_adaptive_delay (fa : PyFloat.arithmetic) (u : Q)
    (c : crawler) : Q * crawler :=
  match response_times c with
  | [] => (PyFloat.fmul fa (base_delay c) 2, c)
  | _ =>
      let recent := last_n 10 (response_times c) in
      let avg_response_time :=
        PyFloat.fdiv fa (PyFloat.fsum fa recent)
          (inject_Z (Z.of_nat (length recent))) in
      let c := set_server_load_factor (load_factor_for avg_response_time) c in
      let base_delay := PyFloat.fmul fa (base_delay c) (server_load_factor c) in
      let random_factor := uniform fa 1 2 u in
      (PyFloat.fmul fa base_delay random_factor, c)
  end.

Definition adaptive_delay (w : world) : M Q :=
  h ← get_trace;
  c ← get_self;
  let '(d, c') := _calculate_adaptive_delay (arith w) (random_random w h) c in
  _ ← modify_self (λ _, c');
  mret d.

(** *** [_clean_text] *)

Definition whitespace : Re.regex := [Re.Plus is_space].

Definition ad_patterns : list Re.regex :=
  [ [Re.Lit "本站"; Re.LazyAny; Re.Lit "提醒您"; Re.LazyAny];
    [Re.Lit "请收藏"; Re.LazyAny];
    [Re.Lit "手机用户"; Re.LazyAny];
    [Re.Lit "记住"; Re.LazyAny; Re.Lit "网址"; Re.LazyAny];
    [Re.Lit "最新章节"; Re.LazyAny];
    [Re.Lit "无弹窗"; Re.LazyAny];
    [Re.LazyAny; Re.Lit "首发"; Re.LazyAny];
    [Re.LazyAny; Re.Lit "更新最快"; Re.LazyAny] ].

Definition _clean_text (text : string) : string :=
  if negb (truthy text) then EmptyString
  else
    let text := Re.sub whitespace " " (strip text) in
    let text :=
      foldl (λ t pattern, Re.sub pattern EmptyString t) text ad_patterns in
    strip text.

(** *** [fetch_with_retry] *)

Definition record_response_time (t : Q) (c : crawler) : crawler :=
  let times := response_times c ++ [t] in
  set_response_times
    (if decide (50 < length times)%nat then last_n 50 times else times) c.

Definition Qnat (n : nat) : Q := inject_Z (Z.of_nat n).

(** The loop [for attempt in range(self.retry_count)], from [attempt]
    on with [remaining] iterations to go, and the two statements after
    it, which run when the loop ends or breaks.  The result is the body
    returned, with its parse. *)
Fixpoint fetch_attempts (w : world) (url : string)
    (attempt remaining : nat) : M (option html) :=
  let after_loop : M (option html) :=
    _ ← modify_self (λ c, set_failed_urls ({[url]} ∪ failed_urls c) c);
    mret None in
  match remaining with
  | O => after_loop
  | S remaining' =>
      let continue := fetch_attempts w url (S attempt) remaining' in
      let backoff (seconds : Q) : M (option html) :=
        c ← get_self;
        _ ← (if decide (attempt < retry_count c - 1)%nat
             then sleep seconds else mret tt);
        continue in
      r ← session_get w url;
      match r with
      | Http status body elapsed =>
          if (status =? 200)%Z then
            _ ← modify_self (record_response_time elapsed);
            mret (Some body)
          else if (status =? 403)%Z then
            _ ← sleep 5; continue
          else if (status =? 404)%Z then after_loop
          else continue
      | ClientConnectorError => backoff (5 * Qnat (attempt + 1))%Q
      (* [aiohttp.ClientSSLError] is a [ClientConnectorError]: the first
         handler takes it, and the handler written for it, which would
         wait [3 * (attempt + 1)] seconds, is never reached *)
      | ClientSSLError => backoff (5 * Qnat (attempt + 1))%Q
      | TimeoutError => backoff (2 * Qnat (attempt + 1))%Q
      | OtherError => backoff (inject_Z (2 ^ Z.of_nat attempt))
      end
  end.

Definition fetch_with_retry (w : world) (url : string) : M (option html) :=
  c ← get_self;
  fetch_attempts w url 0 (retry_count c).

(** [if not html_content] *)
Definition no_content (html_content : option html) : bool :=
  match html_content with
  | Some h => negb (truthy (html_text h))
  | None => true
  end.

(** *** [extract_page_content] *)

Definition title_selectors : list string :=
  ["h1"; "h2"; ".title"; ".chapter-title"; ".post-title"; ".entry-title";
   "title"].

(** The first selector whose element has a non-empty cleaned text. *)
Fixpoint find_title (doc : soup) (selectors : list string) : option string :=
  match selectors with
  | [] => None
  | selector :: rest =>
      match select_one doc selector with
      | Some text =>
          let title := _clean_text text in
          if truthy title && bool_decide (0 < len title)%nat
          then Some title else find_title doc rest
      | None => find_title doc rest
      end
  end.

Definition keep_paragraph (text : string) : bool :=
  truthy text && bool_decide (5 < len text)%nat.

Definition resolve_next (w : world) (c : crawler)
    (next_link : option (option string)) : option string :=
  match next_link with
  | Some (Some next_chapter_url) =>
      if truthy next_chapter_url
         && negb (startswith next_chapter_url "http")
      then Some (urljoin w (base_url c) next_chapter_url)
      else Some next_chapter_url
  | Some None => None
  | None => None
  end.

(** Returns the paragraphs, the link to the next chapter and the
    title. *)
Definition extract_page_content (w : world) (url : string)
  : M (list string * option string * option string) :=
  html_content ← fetch_with_retry w url;
  match html_content with
  | Some page =>
      if no_content html_content then mret ([], None, None)
      else
        c ← get_self;
        let doc := html_soup page in
        let chapter_title := find_title doc title_selectors in
        match find_blurstxt doc with
        | None => mret ([], None, chapter_title)
        | Some [] => mret ([], None, chapter_title)
        | Some paragraphs =>
            let content_list :=
              filter (λ t, keep_paragraph t = true)
                     (_clean_text <$> paragraphs) in
            let next_chapter_url := resolve_next w c (find_rel_next doc) in
            mret (content_list, next_chapter_url, chapter_title)
        end
  | None => mret ([], None, None)
  end.

(** *** [_extract_page_number] *)

Definition digits : Re.atom := Re.Group is_digit.

Definition path_patterns : list Re.regex :=
  [ [Re.Lit "/page/"; digits; Re.Opt "/"];             (* /page/(\d+)/? *)
    [Re.Lit "/"; digits; Re.Lit ".htm"; Re.Opt "l"];   (* /(\d+)\.html? *)
    [Re.Lit "/p"; digits; Re.Lit ".htm"; Re.Opt "l"];  (* /p(\d+)\.html? *)
    [Re.Lit "page="; digits];                          (* page=(\d+) *)
    [Re.Lit "p="; digits] ].                           (* p=(\d+) *)

(** The group of the first pattern of the list that matches. *)
Fixpoint first_match (patterns : list Re.regex) (url : string)
  : option string :=
  match patterns with
  | [] => None
  | pattern :: rest =>
      match Re.search pattern url with
      | Some g => Some g
      | None => first_match rest url
      end
  end.

(** The first of the parameters with an integer value. *)
Fixpoint first_int_param (params : list string)
    (query_params : list (string * string)) : option Z :=
  match params with
  | [] => None
  | param :: rest =>
      match UrlLib.qs_first param query_params with
      | Some value =>
          match int value with
          | Some n => Some n
          | None => first_int_param rest query_params
          end
      | None => first_int_param rest query_params
      end
  end.

(** The body of the [try]; [None] stands for a raised exception. *)
Definition page_number_of (url : string) : option Z :=
  match first_match path_patterns url with
  | Some g => int g
  | None =>
      parsed_url ← UrlLib.urlsplit url;
      let query_params := UrlLib.parse_qsl (UrlLib.query parsed_url) in
      match first_int_param ["page"; "p"; "paged"] query_params with
      | Some n => Some n
      | None =>
          if truthy (UrlLib.fragment parsed_url) then
            match Re.search [digits] (UrlLib.fragment parsed_url) with
            | Some g => int g
            | None => Some 0
            end
          else Some 0
      end
  end.

Definition _extract_page_number (url : string) : Z :=
  default 0 (page_number_of url).

(** *** The page number, described twice *)

(** The page number as the specification words it: (a) a numeric
    segment of the path, of one of the forms [/page/N/], [/N.html],
    [/pN.html]; then (b) a numeric query parameter among [page], [p],
    [paged]; then (c) a numeric fragment; else 0. *)
Definition page_number_as_specified (url : string) : Z :=
  match UrlLib.urlsplit url with
  | Some parsed_url =>
      match first_match (take 3 path_patterns) (UrlLib.path parsed_url) with
      | Some g => default 0 (int g)
      | None =>
          match first_int_param ["page"; "p"; "paged"]
                  (UrlLib.parse_qsl (UrlLib.query parsed_url)) with
          | Some n => n
          | None =>
              match Re.search [digits] (UrlLib.fragment parsed_url) with
              | Some g => default 0 (int g)
              | None => 0
              end
          end
      end
  | None => 0
  end.

(** The digits that stand at the start of [s] after [marker], when
    there is one at least and [tail] follows the last. *)
Definition number_at (marker tail s : string) : option string :=
  match strip_prefix marker s with
  | Some r =>
      let n := run_length is_digit r in
      if bool_decide (0 < n)%nat && startswith (skipn n r) tail
      then Some (firstn n r) else None
  | None => None
  end.

(** The same at the first place of [s] where it succeeds. *)
Fixpoint find_number (marker tail s : string) : option string :=
  match number_at marker tail s with
  | Some g => Some g
  | None =>
      match s with
      | String _ s' => find_number marker tail s'
      | EmptyString => None
      end
  end.

Fixpoint first_some {A} (candidates : list (option A)) : option A :=
  match candidates with
  | [] => None
  | Some x :: _ => Some x
  | None :: rest => first_some rest
  end.

(** The page number by plain scanning of the URL text: the number
    after the first [/page/], else the one between the first [/] and
    [.htm], or [/p] and [.htm], else the one after the first [page=],
    else after the first [p=]; failing these, the parsed query and the
    fragment. *)
Definition page_number_by_scan (url : string) : Z :=
  match first_some [ find_number "/page/" "" url;
                     find_number "/" ".htm" url;
                     find_number "/p" ".htm" url;
                     find_number "page=" "" url;
                     find_number "p=" "" url ] with
  | Some g => decimal 0 g
  | None =>
      match UrlLib.urlsplit url with
      | Some parsed_url =>
          match first_int_param ["page"; "p"; "paged"]
                  (UrlLib.parse_qsl (UrlLib.query parsed_url)) with
          | Some n => n
          | None =>
              match find_number "" "" (UrlLib.fragment parsed_url) with
              | Some g => decimal 0 g
              | None => 0
              end
          end
      | None => 0
      end
  end.

(** *** [list.sort(key=...)] *)

(** Python's sort is stable; a stable sort has one possible result,
    computed here by insertion. *)
Fixpoint insert_by {A} (key : A → Z) (x : A) (l : list A) : list A :=
  match l with
  | [] => [x]
  | y :: l' =>
      if (key x <=? key y)%Z then x :: l else y :: insert_by key x l'
  end.

Definition sort_by {A} (key : A → Z) (l : list A) : list A :=
  foldr (insert_by key) [] l.

(** Ascending order of keys. *)
Definition key_le {A} (key : A → Z) (x y : A) : Prop := key x ≤ key y.

(** *** [_sort_pagination_urls] and [_deduplicate_preserve_order] *)

Definition _sort_pagination_urls (urls : list string) : list string :=
  let url_with_pages := (λ url, (_extract_page_number url, url)) <$> urls in
  let url_with_pages := sort_by fst url_with_pages in
  snd <$> url_with_pages.

Fixpoint dedup_loop (urls : list string) (seen : gset string)
    (result : list string) : list string :=
  match urls with
  | [] => result
  | url :: rest =>
      if decide (url ∉ seen)
      then dedup_loop rest ({[url]} ∪ seen) (result ++ [url])
      else dedup_loop rest seen result
  end.

Definition _deduplicate_preserve_order (urls : list string) : list string :=
  dedup_loop urls ∅ [].

(** *** [_validate_url] and [get_pagination_links] *)

Definition _validate_url (url : string) : bool :=
  match UrlLib.urlsplit url with
  | Some result =>
      truthy (UrlLib.scheme result) && truthy (UrlLib.netloc result)
  | None => false
  end.

Definition dq : string := String (ascii_of_N 34) EmptyString.

Definition pagination_selectors : list string :=
  [ "a.post-page-numbers";
    "a[class*=" +:+ dq +:+ "page" +:+ dq +:+ "]";
    "a[href*=" +:+ dq +:+ "page" +:+ dq +:+ "]";
    "a[href*=" +:+ dq +:+ "/p" +:+ dq +:+ "]";
    ".pagination a";
    ".page-numbers a";
    ".wp-pagenavi a";
    ".pagenavi a" ].

Definition nav_texts : list string :=
  ["prev"; "next"; "上一"; "下一"; "首页"; "末页"].

(** The URL a link contributes, if any. *)
Definition pagination_candidate (w : world) (c : crawler) (url : string)
    (a : link) : option string :=
  match href a with
  | Some href =>
      if truthy href then
        let link_text := lower (strip (link_text a)) in
        if existsb (λ nav_text, contains nav_text link_text) nav_texts
        then None
        else
          let href :=
            if startswith href "http" then href
            else urljoin w (base_url c) href in
          if _validate_url href && negb (String.eqb href url)
          then Some href else None
      else None
  | None => None
  end.

Definition get_pagination_links (w : world) (url : string)
  : M (list string) :=
  html_content ← fetch_with_retry w url;
  match html_content with
  | Some page =>
      if no_content html_content then mret []
      else
        c ← get_self;
        let doc := html_soup page in
        let pagination_urls :=
          selector ← pagination_selectors;
          omap (pagination_candidate w c url) (select doc selector) in
        let pagination_urls := _deduplicate_preserve_order pagination_urls in
        mret (match pagination_urls with
              | [] => pagination_urls
              | _ => _sort_pagination_urls pagination_urls
              end)
  | None => mret []
  end.

(** *** [crawl_complete_chapter_async] *)

Definition chapter := (option string * list string * option string)%type.

(** The loop over [enumerate(pagination_links)]: page [i] of [n], the
    buffer [page_contents] holding the non-empty results so far, each
    with its index. *)
Fixpoint crawl_pages (w : world) (n i : nat) (links : list string)
    (page_contents : list (nat * list string))
  : M (list (nat * list string)) :=
  match links with
  | [] => mret page_contents
  | page_url :: rest =>
      '(page_content, _, _) ← extract_page_content w page_url;
      let page_contents :=
        match page_content with
        | [] => page_contents
        | _ => page_contents ++ [(i, page_content)]
        end in
      _ ← (if decide (i < n - 1)%nat then sleep (1 # 2) else mret tt);
      crawl_pages w n (S i) rest page_contents
  end.

(** [page_contents.sort(key=lambda x: x[0])] followed by the loop that
    extends [all_content]. *)
Definition extend_by_index (all_content : list string)
    (page_contents : list (nat * list string)) : list string :=
  let page_contents := sort_by (λ x, Z.of_nat (fst x)) page_contents in
  foldl (λ all_content x, all_content ++ snd x) all_content page_contents.

(** *** The sub-pages, described twice *)

(** The visits of the sub-pages as the specification words them: one
    after the other in the order of their sequence index, sub-page [i]
    being link [i] of the list, with the pause of the loop between two
    of them.  [segments] holds what the extractor returned for each
    link, in that order, and the visits lead from the first state to
    the last. *)
Inductive visited_in_sequence (w : world) (n : nat)
  : nat → list string → state → list (list string) → state → Prop :=
| visited_none i st : visited_in_sequence w n i [] st [] st
| visited_next i page_url links st page_content next title st1 segments st' :
    extract_page_content w page_url st = ((page_content, next, title), st1) →
    visited_in_sequence w n (S i) links
      (snd ((if decide (i < n - 1)%nat then sleep (1 # 2) else mret tt) st1))
      segments st' →
    visited_in_sequence w n i (page_url :: links) st
      (page_content :: segments) st'.

(** The results with their sequence indices, the empty ones left out. *)
Definition indexed_results (segments : list (list string))
  : list (nat * list string) :=
  filter (λ x, x.2 ≠ []) (imap (λ i page_content, (i, page_content)) segments).

(** [asyncio.gather] starts the main page task first; the two tasks are
    run here one after the other in that order.  Both catch every
    [Exception] themselves, so neither result is an exception. *)
Definition crawl_complete_chapter_async (w : world) (chapter_url : string)
    (chapter_num : nat) : M (exc + chapter) :=
  match node_raises w chapter_num with
  | Some e => mret (inl e)
  | None =>
      main_result ← extract_page_content w chapter_url;
      pagination_links ← get_pagination_links w chapter_url;
      let '(main_content, next_chapter_url, chapter_title) := main_result in
      let all_content := main_content in
      all_content ←
        match pagination_links with
        | [] => mret all_content
        | _ =>
            page_contents ←
              crawl_pages w (length pagination_links) 0 pagination_links [];
            mret (extend_by_index all_content page_contents)
        end;
      delay ← adaptive_delay w;
      _ ← sleep delay;
      mret (inr (chapter_title, all_content, next_chapter_url))
  end.

(** *** [crawl_novel_from_chapter_async] *)

(** The local variables of the loop; [next_chapter_url] is unbound
    ([None]) until the first chapter has been unpacked. *)
Record locals := {
  current_url : option string;
  chapter_num : nat;
  consecutive_failures : nat;
  next_chapter_url : option (option string) }.

(** How one pass through the loop body ends. *)
Inductive flow :=
| Continue (l : locals)
| BreakLastChapter (l : locals)     (* [break] after the last chapter *)
| BreakInterrupt (l : locals)       (* [break] on [KeyboardInterrupt] *)
| Raise (e : exc).

Definition truthy_url (url : option string) : bool :=
  match url with Some u => truthy u | None => false end.

Definition words (all_content : list string) : nat :=
  foldr (λ p n, (len p + n)%nat) 0%nat all_content.

(** The [except Exception] handler. *)
Definition on_exception (l : locals) : M flow :=
  let consecutive_failures := S (consecutive_failures l) in
  match next_chapter_url l with
  | None => mret (Raise (UnboundLocalError "next_chapter_url"))
  | Some next =>
      _ ← sleep (5 * Qnat consecutive_failures)%Q;
      mret (Continue {| current_url := next;
                        chapter_num := S (chapter_num l);
                        consecutive_failures := consecutive_failures;
                        next_chapter_url := Some next |})
  end.

(** The body of the [while] loop, entered with [current_url = url]. *)
Definition loop_body (w : world) (url : string) (l : locals) : M flow :=
  r ← crawl_complete_chapter_async w url (chapter_num l);
  match r with
  | inl e =>
      if is_Exception e then on_exception l
      else mret (BreakInterrupt l)
  | inr (chapter_title, all_content, next) =>
      match all_content with
      | [] =>
          let consecutive_failures := S (consecutive_failures l) in
          _ ← (if decide (2 < consecutive_failures)%nat
               then sleep 10 else mret tt);
          mret (Continue {| current_url := next;
                            chapter_num := S (chapter_num l);
                            consecutive_failures := consecutive_failures;
                            next_chapter_url := Some next |})
      | _ =>
          _ ← (if file_append_ok w (chapter_num l) then
                 _ ← emit (Saved (chapter_num l) chapter_title all_content);
                 modify_self (λ c,
                   set_counters (S (chapter_count c))
                                (total_words c + words all_content) c)
               else mret tt);
          let l' := {| current_url := next;
                       chapter_num := S (chapter_num l);
                       consecutive_failures := 0;
                       next_chapter_url := Some next |} in
          mret (if truthy_url next then Continue l' else BreakLastChapter l')
      end
  end.

(** The condition of the [while] loop: the URL to fetch when it holds. *)
Definition loop_guard (l : locals) : option string :=
  match current_url l with
  | Some url =>
      if truthy url && bool_decide (consecutive_failures l < 5)%nat
      then Some url else None
  | None => None
  end.

(** How the loop was left. *)
Inductive loop_exit :=
| GuardFalse            (* the [while] condition failed *)
| LastChapter           (* [break]: no next chapter *)
| Interrupted           (* [break]: the user interrupted *)
| Raised (e : exc)      (* an exception left the loop *)
| OutOfFuel.            (* the loop was still running *)

(** [while current_url and consecutive_failures < 5], for at most [fuel]
    passes. *)
Fixpoint while_loop (w : world) (fuel : nat) (l : locals)
  : M (loop_exit * locals) :=
  match loop_guard l with
  | Some url =>
      match fuel with
      | O => mret (OutOfFuel, l)
      | S fuel' =>
          f ← loop_body w url l;
          match f with
          | Continue l' => while_loop w fuel' l'
          | BreakLastChapter l' => mret (LastChapter, l')
          | BreakInterrupt l' => mret (Interrupted, l')
          | Raise e => mret (Raised e, l)
          end
      end
  | None => mret (GuardFalse, l)
  end.

Definition initial_locals (start_url : string) : locals :=
  {| current_url := Some start_url; chapter_num := 1;
     consecutive_failures := 0; next_chapter_url := None |}.

(** The traversal proper: the counters are zeroed and the loop runs. *)
Definition traverse (w : world) (fuel : nat) (start_url : string)
  : M (loop_exit * locals) :=
  _ ← modify_self (set_counters 0 0);
  while_loop w fuel (initial_locals start_url).

(** What a call of the method comes to.  The network diagnosis before
    the loop and the statistics written after it are left out. *)
Inductive result :=
| Returned (value : bool)
| Failed (e : exc)
| Running.

Definition crawl_novel_from_chapter_async (w : world) (fuel : nat)
    (start_url : string) : M result :=
  if negb (domain_available w) then mret (Returned false)
  else if negb (output_file_opens w) then mret (Returned false)
  else
    '(exit, _) ← traverse w fuel start_url;
    mret (match exit with
          | Raised e => Failed e
          | OutOfFuel => Running
          | GuardFalse | LastChapter | Interrupted => Returned true
          end).

(** The terminal states of the walker, read off the way the loop was
    left: the failure budget is spent when the counter stands at 5;
    otherwise the chain ran out of next pointers. *)
Inductive outcome := Terminated | Aborted | Cancelled | Crashed | Unfinished.

Definition outcome_of (exit : loop_exit) (l : locals) : outcome :=
  match exit with
  | GuardFalse =>
      if bool_decide (5 ≤ consecutive_failures l)%nat
      then Aborted else Terminated
  | LastChapter => Terminated
  | Interrupted => Cancelled
  | Raised _ => Crashed
  | OutOfFuel => Unfinished
  end.

(** *** Observations *)

Definition is_get (url : string) (e : event) : bool :=
  match e with Get u => String.eqb u url | _ => false end.

(** The number of requests for [url] among [events]. *)
Definition requests (url : string) (events : list event) : nat :=
  length (List.filter (is_get url) events).

(** The records written to the output file, oldest first. *)
Definition records (events : list event)
  : list (nat * option string * list string) :=
  omap (λ e, match e with
             | Saved n title content => Some (n, title, content)
             | _ => None
             end) (rev events).

(** What a method leaves behind: new events in front of the trace, and
    the configuration untouched. *)
Definition extends (st st' : state) (events : list event) : Prop :=
  trace st' = events ++ trace st
  ∧ retry_count (self st') = retry_count (self st)
  ∧ base_url (self st') = base_url (self st).

(** The states in which the walker can stand at the head of its loop:
    the initial one, and those a pass of the body continues with. *)
Inductive reachable (w : world) (start_url : string)
  : locals → state → Prop :=
| reachable_start st :
    reachable w start_url (initial_locals start_url) st
| reachable_pass l st url l' st' :
    reachable w start_url l st →
    loop_guard l = Some url →
    loop_body w url l st = (Continue l', st') →
    reachable w start_url l' st'.

End Crawler.

(** ** Concrete sites *)

Module Scenario.
Import Crawler.

(** A document with an [h1] title, an optional [blurstxt] container, an
    optional [rel=next] link and page links of class
    [post-page-numbers]. *)
Definition doc (title : string) (paragraphs : option (list string))
    (next : option string) (pages : list link) : html :=
  {| html_text := "<html>" +:+ title +:+ "</html>";
     html_soup :=
       {| select_one := λ sel, if String.eqb sel "h1" then Some title else None;
          find_blurstxt := paragraphs;
          find_rel_next := Some <$> next;
          select := λ sel,
            if String.eqb sel "a.post-page-numbers" then pages else [] |} |}.

Definition page_link (url text : string) : link :=
  {| href := Some url; link_text := text |}.

(** A site whose answers depend on the URL only.  All links of the
    scenarios are absolute, so [urljoin] is never consulted; it joins
    by concatenation. *)
Definition static_site (serve : string → response) : world :=
  {| urljoin := λ base url, base +:+ url;
     http_get := λ _ url, serve url;
     random_random := λ _, 0%Q;
     arith := PyFloat.binary64;
     node_raises := λ _, None;
     file_append_ok := λ _, true;
     domain_available := true;
     output_file_opens := true |}.

Definition fresh : state :=
  {| self := __init__ "https://www.twinfoo.com" 2 (3 # 2); trace := [] |}.

(** Chapter A links to chapter B; B has two further pages, found in the
    order page 2, page 1. *)
Definition url_a : string := "http://site/a".
Definition url_b : string := "http://site/b".
Definition url_b1 : string := "http://site/b?page=1".
Definition url_b2 : string := "http://site/b?page=2".

Definition two_chapters (url : string) : response :=
  if String.eqb url url_a then
    Http 200 (doc "Chapter A" (Some ["first paragraph of A"])
                  (Some url_b) []) 1
  else if String.eqb url url_b then
    Http 200 (doc "Chapter B" (Some ["first paragraph of B"]) None
                  [page_link url_b2 "2"; page_link url_b1 "1";
                   page_link url_a "prev"]) 1
  else if String.eqb url url_b1 then
    Http 200 (doc "Chapter B" (Some ["second paragraph of B"]) None []) 1
  else if String.eqb url url_b2 then
    Http 200 (doc "Chapter B" (Some ["third paragraph of B"]) None []) 1
  else Http 404 (doc "Not Found" None None []) 1.

(** Every page is a stub: one paragraph too short to keep and a link to
    the next one. *)
Definition stubs (url : string) : response :=
  Http 200 (doc "Stub" (Some ["soon"]) (Some (url +:+ "+")) []) 1.

(** A navigation page: no content container, a link to the next
    chapter. *)
Definition navigation_only (url : string) : response :=
  Http 200 (doc "Contents" None (Some url_b) []) 1.

(** The first request for a URL is answered with a chapter without page
    links, every later one with the same chapter and a link to a second
    page. *)
Definition second_look : world :=
  {| urljoin := λ base url, base +:+ url;
     http_get := λ h url,
       if String.eqb url url_b1 then
         Http 200 (doc "Chapter B" (Some ["second paragraph of B"]) None []) 1
       else if decide (requests url h = 0)%nat then
         Http 200 (doc "Chapter B" (Some ["first paragraph of B"]) None []) 1
       else
         Http 200 (doc "Chapter B" (Some ["first paragraph of B"]) None
                       [page_link url_b1 "1"]) 1;
     random_random := λ _, 0%Q;
     arith := PyFloat.binary64;
     node_raises := λ _, None;
     file_append_ok := λ _, true;
     domain_available := true;
     output_file_opens := true |}.

Definition not_found (url : string) : response :=
  Http 404 (doc "Not Found" None None []) 1.

(** The console write that opens the first chapter fails. *)
Definition broken_pipe : world :=
  {| urljoin := λ base url, base +:+ url;
     http_get := λ _ url, two_chapters url;
     random_random := λ _, 0%Q;
     arith := PyFloat.binary64;
     node_raises := λ n, if decide (n = 1)%nat then Some BrokenPipeError else None;
     file_append_ok := λ _, true;
     domain_available := true;
     output_file_opens := true |}.

(** The console write that opens the second chapter fails. *)
Definition broken_pipe_later : world :=
  {| urljoin := λ base url, base +:+ url;
     http_get := λ _ url, two_chapters url;
     random_random := λ _, 0%Q;
     arith := PyFloat.binary64;
     node_raises := λ n, if decide (n = 2)%nat then Some BrokenPipeError else None;
     file_append_ok := λ _, true;
     domain_available := true;
     output_file_opens := true |}.

End Scenario.

(** ** The chapter record: [format_chapter_content] *)

Module Sink.
Import PyStr Crawler.

(** [c * n] *)
Fixpoint repeat_char (c : ascii) (n : nat) : string :=
  match n with
  | O => EmptyString
  | S n' => String c (repeat_char c n')
  end.

(** [s[:n]], counted in code points: the bytes of the first [n]
    characters. *)
Fixpoint take_chars (n : nat) (s : string) : string :=
  match s with
  | EmptyString => EmptyString
  | String c s' =>
      if is_continuation c then String c (take_chars n s')
      else match n with
           | O => EmptyString
           | S n' => String c (take_chars n' s')
           end
  end.

(** [f"{s:^80}"] and [s.center(80)]: for an even width both put the odd
    space on the right. *)
Definition center (width : nat) (s : string) : string :=
  let marg := (width - len s)%nat in
  repeat_char " " (marg / 2) +:+ s +:+ repeat_char " " (marg - marg / 2).

(** [str(n)] *)
Definition str_of_nat (n : nat) : string :=
  NilZero.string_of_uint (Nat.to_uint n).

Definition separator : string := repeat_char "=" 80.

Definition display_title (title : string) : string :=
  if decide (len title ≤ 60)%nat then title
  else take_chars 57 title +:+ "...".

Definition title_line (title : option string) (chapter_num : nat) : string :=
  match title with
  | Some t =>
      if truthy t then center 80 (display_title t)
      else center 80 ("第" +:+ str_of_nat chapter_num +:+ "章")
  | None => center 80 ("第" +:+ str_of_nat chapter_num +:+ "章")
  end.

(** The loop over [enumerate(all_content)], at paragraph [i] of [n]. *)
Fixpoint append_paragraphs (n i : nat) (all_content : list string)
    (formatted_content : list string) : list string :=
  match all_content with
  | [] => formatted_content
  | paragraph :: rest =>
      let formatted_content := formatted_content ++ ["    " +:+ paragraph] in
      let formatted_content :=
        if decide (i < n - 1)%nat then formatted_content ++ [EmptyString]
        else formatted_content in
      append_paragraphs n (S i) rest formatted_content
  end.

(** The list [formatted_content] when it is joined. *)
Definition format_lines (title : option string) (all_content : list string)
    (chapter_num : nat) : list string :=
  let formatted_content := [separator] in
  let formatted_content := formatted_content ++ [title_line title chapter_num] in
  let formatted_content := formatted_content ++ [separator] in
  let formatted_content := formatted_content ++ [EmptyString] in
  let formatted_content :=
    append_paragraphs (length all_content) 0 all_content formatted_content in
  let formatted_content := formatted_content ++ [EmptyString] in
  formatted_content ++ [EmptyString].

(** The paragraphs as the loop lays them out: each indented by four
    spaces, an empty line between two of them. *)
Fixpoint spaced (all_content : list string) : list string :=
  match all_content with
  | [] => []
  | paragraph :: rest =>
      ("    " +:+ paragraph)
      :: match rest with [] => [] | _ => EmptyString :: spaced rest end
  end.

(** [sep.join(l)] *)
Fixpoint join (sep : string) (l : list string) : string :=
  match l with
  | [] => EmptyString
  | [x] => x
  | x :: rest => x +:+ sep +:+ join sep rest
  end.

Definition newline : string := String (ascii_of_N 10) EmptyString.

Definition format_chapter_content (title : option string)
    (all_content : list string) (chapter_num : nat) : string :=
  join newline (format_lines title all_content chapter_num).

End Sink.

(** ** The command line: [main_async] *)

Module Cli.
Import PyStr Crawler.

(** [s.isdigit()], on the ASCII range *)
Definition isdigit (s : string) : bool :=
  truthy s && UrlLib.all_chars is_digit s.

(** [s.endswith(suffix)] *)
Fixpoint endswith (s suffix : string) : bool :=
  if String.eqb s suffix then true
  else match s with
       | String _ s' => endswith s' suffix
       | EmptyString => false
       end.

(** [min(a, b)] and [max(a, b)]: the first argument unless the second is
    strictly smaller, or larger. *)
Definition py_min (a b : Q) : Q := if Qgtb a b then b else a.
Definition py_max (a b : Q) : Q := if Qgtb b a then b else a.

(** The four lines the user types. *)
Record console := {
  start_input : string;
  name_input : string;
  concurrent_input : string;
  delay_input : string }.

Definition default_start_url : string :=
  "https://www.twinfoo.com/post/193117.html".

Definition start_url_of (typed : string) : string :=
  let start_url := strip typed in
  if truthy start_url then start_url else default_start_url.

(** [timestamp] is [datetime.now().strftime("%Y%m%d_%H%M%S")]. *)
Definition output_file_of (timestamp typed : string) : string :=
  let custom_name := strip typed in
  if truthy custom_name then
    if endswith custom_name ".txt" then custom_name
    else custom_name +:+ ".txt"
  else "小说_" +:+ timestamp +:+ ".txt".

Definition concurrent_limit_of (typed : string) : Z :=
  let concurrent_input := strip typed in
  if isdigit concurrent_input then
    match int concurrent_input with
    | Some n => if (1 <=? n) && (n <=? 5) then n else 2
    | None => 2
    end
  else 2.

(** [float] is the built-in conversion; [None] stands for
    [ValueError]. *)
Definition base_delay_of (float : string → option Q) (typed : string) : Q :=
  let delay_input := strip typed in
  if truthy delay_input then
    match float delay_input with
    | Some base_delay => py_max (1 # 2) (py_min 5 base_delay)
    | None => (3 # 2)%Q
    end
  else py_max (1 # 2) (py_min 5 (3 # 2)).

(** The crawler [main_async] creates. *)
Definition crawler_of (float : string → option Q) (typed : console) : crawler :=
  __init__ "https://www.twinfoo.com"
    (concurrent_limit_of (concurrent_input typed))
    (base_delay_of float (delay_input typed)).

(** [quick_diagnose] is the answer of the network test on the start
    URL; when it fails nothing is crawled ([None]). *)
Definition main_async (w : world) (float : string → option Q)
    (quick_diagnose : string → bool) (fuel : nat) (typed : console)
  : option (result * state) :=
  let start_url := start_url_of (start_input typed) in
  if negb (quick_diagnose start_url) then None
  else
    Some (crawl_novel_from_chapter_async w fuel start_url
            {| self := crawler_of float typed; trace := [] |}).

End Cli.

(** ** Rules for invariants of a session *)

Module Session.
Import Crawler.

(** The seconds slept among [events]. *)
Definition slept (events : list event) : Q :=
  foldr (λ e total, match e with Sleep d => (d + total)%Q | _ => total end)
        0%Q events.

(** A property of the state that no step of the visit of a chapter
    destroys: requests, pauses, and the three updates of the crawler the
    fetcher and the rate controller perform. *)
Definition kept_by_chapter (P : state → Prop) : Prop :=
  (∀ st url, P st → P (snd (emit (Get url) st)))
  ∧ (∀ st d, P st → P (snd (emit (Sleep d) st)))
  ∧ (∀ st t, P st → P (with_self (record_response_time t) st))
  ∧ (∀ st url, P st →
       P (with_self (λ c, set_failed_urls ({[url]} ∪ failed_urls c) c) st))
  ∧ (∀ st fa u, P st →
       P (with_self (λ c, snd (_calculate_adaptive_delay fa u c)) st)).

(** The same for the whole traversal, which also writes records and
    sets the counters. *)
Definition kept_by_traversal (P : state → Prop) : Prop :=
  kept_by_chapter P
  ∧ (∀ st n title content, P st → P (snd (emit (Saved n title content) st)))
  ∧ (∀ st n words, P st → P (with_self (set_counters n words) st)).

(** A method keeps [P]: it holds after the call when it held before. *)
Definition keeps {A} (P : state → Prop) (m : M A) : Prop :=
  ∀ st r st', P st → m st = (r, st') → P st'.

(** The chapter numbers and the code points of a list of records. *)
Definition numbers (rs : list (nat * option string * list string))
  : list nat := (λ r, r.1.1) <$> rs.

Definition record_words (rs : list (nat * option string * list string))
  : nat := foldr (λ r n, (words r.2 + n)%nat) 0%nat rs.

(** The records [new] were written after those of [st0], the counters
    went up with them, and all were written for chapters below [k]. *)
Definition ledger (st0 : state) (k : nat) (st : state)
    (new : list (nat * option string * list string)) : Prop :=
  records (trace st) = records (trace st0) ++ new
  ∧ chapter_count (self st) = (chapter_count (self st0) + length new)%nat
  ∧ total_words (self st) = (total_words (self st0) + record_words new)%nat
  ∧ Forall (λ r, (1 ≤ r.1.1 < k)%nat ∧ r.2 ≠ []) new
  ∧ StronglySorted lt (numbers new).

(** No request for [url] is ever answered 200. *)
Definition unanswered (w : world) (url : string) : Prop :=
  ∀ h body elapsed, http_get w h url ≠ Http 200 body elapsed.

(** No request for [url] is ever answered 200 or 404. *)
Definition refused (w : world) (url : string) : Prop :=
  ∀ h body elapsed,
    http_get w h url ≠ Http 200 body elapsed
    ∧ http_get w h url ≠ Http 404 body elapsed.

(** The longest pause [fetch_with_retry] can make after attempt
    [attempt]: 5 s on a 403, or the back-off of an error when a further
    attempt follows. *)
Definition pause_bound (retry_count attempt : nat) : Q :=
  if decide (attempt < retry_count - 1)%nat then
    Cli.py_max 5 (Cli.py_max (5 * Qnat (attempt + 1))%Q
                             (inject_Z (2 ^ Z.of_nat attempt)))
  else 5%Q.

Fixpoint sleep_budget (retry_count attempt remaining : nat) : Q :=
  match remaining with
  | O => 0%Q
  | S remaining' =>
      (pause_bound retry_count attempt
       + sleep_budget retry_count (S attempt) remaining')%Q
  end.

(** A paragraph the extractor keeps. *)
Definition kept (p : string) : Prop :=
  (5 < PyStr.len p)%nat ∧ ∃ raw, p = _clean_text raw.

(** The visits of a site always come back empty. *)
Definition barren (w : world) : Prop :=
  ∀ url n st, ∃ title next st',
    crawl_complete_chapter_async w url n st = (inr (title, [], next), st').

End Session.

(** ** Sites that do not answer *)

Module Outage.
Import Crawler.

(** Every request is refused. *)
Definition forbidden (url : string) : response :=
  Http 403 (Scenario.doc "Forbidden" None None []) 1.

(** No connection can be made. *)
Definition unplugged : world :=
  {| urljoin := λ base url, base +:+ url;
     http_get := λ _ _, ClientConnectorError;
     random_random := λ _, 0%Q;
     arith := PyFloat.binary64;
     node_raises := λ _, None;
     file_append_ok := λ _, true;
     domain_available := true;
     output_file_opens := true |}.

End Outage.

(** * Properties *)

(** ** The model on sample inputs

    The values are those the Python library functions return. *)

Example urlsplit_parts :
  UrlLib.urlsplit "HTTP://www.x.com/a/b;c?q=1&r=2#frag"
  = Some {| UrlLib.scheme := "http"; UrlLib.netloc := "www.x.com";
            UrlLib.path := "/a/b;c"; UrlLib.query := "q=1&r=2";
            UrlLib.fragment := "frag" |}.
Proof. reflexivity. Qed.

Example urlsplit_unbalanced_bracket : UrlLib.urlsplit "http://[h/x" = None.
Proof. reflexivity. Qed.

Example parse_qsl_fields :
  UrlLib.parse_qsl "paged=+5&paged=%31%32&page=&x"
  = [("paged", " 5"); ("paged", "12")].
Proof. reflexivity. Qed.

Example int_values :
  PyStr.int " -1_000 " = Some (-1000) ∧ PyStr.int "007" = Some 7
  ∧ PyStr.int "1__0" = None ∧ PyStr.int "0x10" = None.
Proof. by vm_compute. Qed.

Example search_backtracks :
  Re.search [Re.Lit "/"; Crawler.digits; Re.Lit ".htm"; Re.Opt "l"]
            "/12x/34.htm" = Some "34".
Proof. reflexivity. Qed.

Example clean_text_drops_advertising :
  Crawler._clean_text "  x本站y提醒您z   本站w " = "xz 本站w"
  ∧ Crawler._clean_text "abc 首发 def 首发 ghi" = "ghi".
Proof. by vm_compute. Qed.

Example page_numbers :
  Crawler._extract_page_number "http://h/page/12/" = 12
  ∧ Crawler._extract_page_number "http://h/post/193117.html" = 193117
  ∧ Crawler._extract_page_number "http://h/x?paged=-7" = -7
  ∧ Crawler._extract_page_number "http://h/x#sec12a3" = 12
  ∧ Crawler._extract_page_number "http://h/x" = 0.
Proof. by vm_compute. Qed.

(** Two chapters, the second with two further pages found in the order
    page 2, page 1: two records, the pages of the second merged by page
    number. *)
Example two_chapters_saved :
  let run := Crawler.crawl_novel_from_chapter_async
               (Scenario.static_site Scenario.two_chapters) 10
               Scenario.url_a Scenario.fresh in
  fst run = Crawler.Returned true
  ∧ Crawler.records (Crawler.trace (snd run))
    = [ (1%nat, Some "Chapter A", ["first paragraph of A"]);
        (2%nat, Some "Chapter B",
         ["first paragraph of B"; "second paragraph of B";
          "third paragraph of B"]) ].
Proof. by vm_compute. Qed.

(** ** Stable sorting by a key *)

Section sort_by.
Import Crawler.
Context {A : Type} (key : A → Z).

Lemma insert_by_perm x l : insert_by key x l ≡ₚ x :: l.
Proof.
  induction l as [|y l IH]; simpl; [done|].
  destruct (key x <=? key y); [done|].
  rewrite IH. apply Permutation_swap.
Qed.

Lemma sort_by_perm l : sort_by key l ≡ₚ l.
Proof.
  induction l as [|x l IH]; simpl; [done|].
  by rewrite insert_by_perm, IH.
Qed.

Lemma insert_by_sorted x l :
  StronglySorted (key_le key) l → StronglySorted (key_le key) (insert_by key x l).
Proof.
  induction 1 as [|y l Hl IH Hy]; simpl.
  - repeat constructor.
  - destruct (Z.leb_spec (key x) (key y)) as [Hxy|Hxy].
    + constructor; [by constructor|].
      constructor; [done|].
      eapply Forall_impl; [exact Hy|].
      unfold key_le; intros; lia.
    + constructor; [done|].
      rewrite insert_by_perm. constructor; [|done].
      unfold key_le; lia.
Qed.

Lemma sort_by_sorted l : StronglySorted (key_le key) (sort_by key l).
Proof.
  induction l; simpl; [constructor|]. by apply insert_by_sorted.
Qed.

(** Stability: elements of equal key keep their relative order. *)
Lemma insert_by_filter n x l :
  filter (λ y, key y = n) (insert_by key x l)
  = filter (λ y, key y = n) (x :: l).
Proof.
  induction l as [|y l IH]; simpl; [done|].
  destruct (Z.leb_spec (key x) (key y)) as [Hxy|Hxy]; [done|].
  rewrite filter_cons, IH, !filter_cons.
  repeat case_decide; try done; lia.
Qed.

Lemma sort_by_stable n l :
  filter (λ y, key y = n) (sort_by key l) = filter (λ y, key y = n) l.
Proof.
  induction l as [|x l IH]; simpl; [done|].
  by rewrite insert_by_filter, !filter_cons, IH.
Qed.

Lemma sort_by_sorted_id l : StronglySorted (key_le key) l → sort_by key l = l.
Proof.
  induction 1 as [|x l Hl IH Hx]; simpl; [done|].
  rewrite IH. destruct Hx as [|y l Hxy _]; simpl; [done|].
  unfold key_le in Hxy. by rewrite (Zle_imp_le_bool _ _ Hxy).
Qed.

Lemma sort_by_idempotent l : sort_by key (sort_by key l) = sort_by key l.
Proof. apply sort_by_sorted_id, sort_by_sorted. Qed.

(** The result does not depend on the order in which elements of
    distinct keys arrive. *)
Lemma sort_by_perm_invariant l1 l2 :
  NoDup (key <$> l1) → l1 ≡ₚ l2 → sort_by key l1 = sort_by key l2.
Proof.
  intros Hnd Hp.
  assert (Hinj : ∀ x y, x ∈ l1 → y ∈ l1 → key x ≤ key y → key y ≤ key x → x = y).
  { intros x y Hx Hy ??. 
    apply list_elem_of_lookup in Hx as [i Hi], Hy as [j Hj].
    assert (i = j) as ->; [|congruence].
    apply (NoDup_lookup (key <$> l1) i j (key x)); [done| |].
    + by rewrite list_lookup_fmap, Hi.
    + rewrite list_lookup_fmap, Hj. simpl. f_equal. lia. }
  eapply (StronglySorted_unique_strong (key_le key)).
  - intros x y Hx Hy Hxy Hyx. apply Hinj; [| |done..].
    + by rewrite <-(sort_by_perm l1).
    + by rewrite Hp, <-(sort_by_perm l2).
  - apply sort_by_sorted.
  - apply sort_by_sorted.
  - by rewrite !sort_by_perm.
Qed.

End sort_by.

(** ** Deduplication *)

Section dedup.
Import Crawler.

Lemma dedup_loop_result urls seen result :
  dedup_loop urls seen result = result ++ dedup_loop urls seen [].
Proof.
  revert seen result. induction urls as [|u urls IH]; intros; simpl.
  - by rewrite app_nil_r.
  - case_decide; [|done].
    rewrite IH, (IH _ [u]). by rewrite <-app_assoc.
Qed.

Lemma dedup_loop_cons u urls seen :
  dedup_loop (u :: urls) seen []
  = if decide (u ∉ seen) then u :: dedup_loop urls ({[u]} ∪ seen) []
    else dedup_loop urls seen [].
Proof. simpl. case_decide; [|done]. by rewrite dedup_loop_result. Qed.

Lemma dedup_loop_elem_of urls seen x :
  x ∈ dedup_loop urls seen [] ↔ x ∈ urls ∧ x ∉ seen.
Proof.
  revert seen. induction urls as [|u urls IH]; intros seen.
  - simpl. set_solver.
  - rewrite dedup_loop_cons.
    destruct (decide (x = u)) as [->|Hxu]; case_decide;
      rewrite ?elem_of_cons, IH; set_solver.
Qed.

Lemma dedup_loop_NoDup urls seen : NoDup (dedup_loop urls seen []).
Proof.
  revert seen. induction urls as [|u urls IH]; intros seen.
  - constructor.
  - rewrite dedup_loop_cons. case_decide; [|done].
    constructor; [|done]. rewrite dedup_loop_elem_of. set_solver.
Qed.

Lemma dedup_loop_split l1 l2 seen :
  dedup_loop (l1 ++ l2) seen []
  = dedup_loop l1 seen [] ++ dedup_loop l2 (list_to_set l1 ∪ seen) [].
Proof.
  revert seen. induction l1 as [|u l1 IH]; intros seen.
  - simpl. by rewrite (left_id_L ∅ (∪)).
  - rewrite <-app_comm_cons, !dedup_loop_cons. case_decide.
    + rewrite IH. simpl. do 3 f_equal. set_solver.
    + rewrite IH. do 2 f_equal. set_solver.
Qed.

Lemma dedup_loop_id urls seen :
  NoDup urls → (∀ x, x ∈ urls → x ∉ seen) → dedup_loop urls seen [] = urls.
Proof.
  intros Hnd. revert seen.
  induction Hnd as [|u urls Hu Hnd IH]; intros seen Hseen; [done|].
  rewrite dedup_loop_cons. rewrite decide_True by set_solver.
  f_equal. apply IH. set_solver.
Qed.

Lemma dedup_sublist urls seen : dedup_loop urls seen [] `sublist_of` urls.
Proof.
  revert seen. induction urls as [|u urls IH]; intros seen; [done|].
  rewrite dedup_loop_cons. case_decide.
  - by apply sublist_skip.
  - by apply sublist_cons.
Qed.

Lemma insert_by_fmap {A B} (f : A → B) (key : A → Z) (key' : B → Z) x l :
  (∀ y, key' (f y) = key y) →
  insert_by key' (f x) (f <$> l) = f <$> insert_by key x l.
Proof.
  intros Hk. induction l as [|y l IH]; csimpl; [done|].
  rewrite !Hk. destruct (key x <=? key y); csimpl; [done|]. by rewrite IH.
Qed.

Lemma sort_by_fmap {A B} (f : A → B) (key : A → Z) (key' : B → Z) l :
  (∀ y, key' (f y) = key y) →
  sort_by key' (f <$> l) = f <$> sort_by key l.
Proof.
  intros Hk. induction l as [|x l IH]; csimpl; [done|].
  rewrite IH. by apply insert_by_fmap.
Qed.

Lemma sort_pagination_urls_sort_by urls :
  _sort_pagination_urls urls = sort_by _extract_page_number urls.
Proof.
  unfold _sort_pagination_urls.
  rewrite (sort_by_fmap _ _extract_page_number) by done.
  rewrite <-list_fmap_compose. apply list_fmap_id.
Qed.

End dedup.

(** ** The pagination pipeline *)

(** C6.  Deduplication followed by the page-number sort is stable and
    idempotent.  Deduplication returns a duplicate-free subsequence with
    the same elements, in which every URL stands where its first
    occurrence stood: right after the distinct URLs seen before it.  The
    sort leaves the URLs of any one page number in the order they had.
    Running the two steps on their own output changes nothing, and that
    output is duplicate free, ascending by page number and a
    rearrangement of the deduplicated list. *)
Theorem pagination_dedup_sort_stable_idempotent (urls : list string) :
  let d := Crawler._deduplicate_preserve_order urls in
  let p := Crawler._sort_pagination_urls d in
  (NoDup d ∧ d `sublist_of` urls ∧ (∀ u, u ∈ d ↔ u ∈ urls) ∧
   ∀ l1 u l2, urls = l1 ++ u :: l2 → u ∉ l1 →
     ∃ d2, d = Crawler._deduplicate_preserve_order l1 ++ u :: d2) ∧
  (∀ (l : list string) (n : Z),
     filter (λ u, Crawler._extract_page_number u = n)
            (Crawler._sort_pagination_urls l)
     = filter (λ u, Crawler._extract_page_number u = n) l) ∧
  Crawler._sort_pagination_urls (Crawler._deduplicate_preserve_order p) = p ∧
  NoDup p ∧
  StronglySorted (Crawler.key_le Crawler._extract_page_number) p ∧
  p ≡ₚ d.
Proof.
  intros d p. unfold Crawler._deduplicate_preserve_order in *.
  assert (Hd : NoDup d) by apply dedup_loop_NoDup.
  assert (Hp : p ≡ₚ d).
  { unfold p. rewrite sort_pagination_urls_sort_by. apply sort_by_perm. }
  assert (Hnp : NoDup p) by (by rewrite Hp).
  assert (Hsp : StronglySorted (Crawler.key_le Crawler._extract_page_number) p).
  { unfold p. rewrite sort_pagination_urls_sort_by. apply sort_by_sorted. }
  repeat split; try done.
  - apply dedup_sublist.
  - intros Hu. apply dedup_loop_elem_of in Hu. tauto.
  - intros Hu. apply dedup_loop_elem_of. set_solver.
  - intros l1 u l2 -> Hu. unfold d.
    rewrite dedup_loop_split, dedup_loop_cons.
    rewrite decide_True by set_solver. eauto.
  - intros l n. rewrite sort_pagination_urls_sort_by. apply sort_by_stable.
  - rewrite dedup_loop_id by set_solver.
    rewrite sort_pagination_urls_sort_by. by apply sort_by_sorted_id.
Qed.

(** ** Assembling the pages of a chapter *)

Section assembly.
Import Crawler.

Lemma extend_by_index_concat all_content page_contents :
  extend_by_index all_content page_contents
  = all_content
    ++ concat (snd <$> sort_by (λ x, Z.of_nat (fst x)) page_contents).
Proof.
  unfold extend_by_index.
  generalize (sort_by (λ x : nat * list string, Z.of_nat (fst x)) page_contents).
  intros l. revert all_content.
  induction l as [|x l IH]; intros acc; csimpl.
  - by rewrite app_nil_r.
  - by rewrite IH, <-app_assoc.
Qed.

(** The buffer grows at its end, by entries whose indices ascend from
    the index of the page the loop stands at. *)
Lemma crawl_pages_buffer w n links :
  ∀ i buffer st page_contents st',
    crawl_pages w n i links buffer st = (page_contents, st') →
    ∃ new, page_contents = buffer ++ new
           ∧ StronglySorted lt (fst <$> new)
           ∧ Forall (λ x, (i ≤ fst x < i + length links)%nat ∧ snd x ≠ []) new.
Proof.
  induction links as [|page_url links IH]; intros i buffer st pcs st' Hrun.
  - simpl in Hrun. injection Hrun as <- _. exists [].
    rewrite app_nil_r. repeat split; constructor.
  - simpl in Hrun. unfold mbind, M_bind in Hrun.
    destruct (extract_page_content w page_url st) as [[[pc ?] ?] st1].
    destruct (_ : M unit) as [[] st2] in Hrun.
    apply IH in Hrun as (new & -> & Hsorted & Hrange).
    destruct pc as [|s pc].
    + exists new. repeat split; [done|].
      eapply Forall_impl; [exact Hrange|]. simpl. intros ? [??]. split; [lia|done].
    + exists ((i, s :: pc) :: new). rewrite <-app_assoc. repeat split.
      * csimpl. constructor; [done|].
        rewrite Forall_fmap. eapply Forall_impl; [exact Hrange|].
        simpl. intros ? [??]; lia.
      * constructor; [simpl; split; [lia|done]|].
        eapply Forall_impl; [exact Hrange|]. simpl.
        intros ? [??]. split; [lia|done].
Qed.

Lemma sorted_indices_sort_id (l : list (nat * list string)) :
  StronglySorted lt (fst <$> l) → sort_by (λ x, Z.of_nat (fst x)) l = l.
Proof.
  intros Hl. apply sort_by_sorted_id.
  induction l as [|x l IH]; [constructor|].
  csimpl in Hl. apply StronglySorted_inv in Hl as [Hl Hx].
  constructor; [by apply IH|].
  rewrite Forall_fmap in Hx. eapply Forall_impl; [exact Hx|].
  unfold key_le. simpl. intros; lia.
Qed.

Lemma sorted_indices_NoDup (l : list (nat * list string)) :
  StronglySorted lt (fst <$> l) → NoDup ((λ x, Z.of_nat (fst x)) <$> l).
Proof.
  intros Hl.
  change (NoDup (Z.of_nat ∘ fst <$> l)). rewrite (list_fmap_compose fst Z.of_nat).
  apply (NoDup_fmap_2 _).
  induction Hl as [|i l' Hl IH Hi]; constructor; [|done].
  intros Hin. rewrite Forall_forall in Hi. apply Hi in Hin. lia.
Qed.

(** Leaving out the empty results does not change what is merged. *)
Lemma concat_nonempty (l : list (nat * list string)) :
  concat (snd <$> filter (λ x, x.2 ≠ []) l) = concat (snd <$> l).
Proof.
  induction l as [|[i c] l IH]; [done|].
  rewrite filter_cons. csimpl. case_decide as Hc.
  - csimpl. by rewrite IH.
  - rewrite IH. simpl in Hc. by rewrite Hc.
Qed.

Lemma snd_imap (f : nat → list string → nat * list string) l :
  (∀ i c, (f i c).2 = c) → snd <$> imap f l = l.
Proof.
  revert f. induction l as [|c l IH]; intros f Hf; [done|].
  csimpl. rewrite Hf. f_equal. apply IH. intros i c'. apply Hf.
Qed.

(** The loop visits the links in their order, and the buffer holds
    what each visit returned under the index of its link, the empty
    results left out. *)
Lemma crawl_pages_visited w n links :
  ∀ i buffer st page_contents st',
    crawl_pages w n i links buffer st = (page_contents, st') →
    ∃ segments,
      visited_in_sequence w n i links st segments st'
      ∧ length segments = length links
      ∧ page_contents
        = buffer ++ filter (λ x, x.2 ≠ [])
                      (imap (λ j c, ((i + j)%nat, c)) segments).
Proof.
  induction links as [|page_url links IH]; intros i buffer st pcs st' Hrun.
  - simpl in Hrun. injection Hrun as <- <-. exists [].
    split; [constructor|]. by rewrite app_nil_r.
  - simpl in Hrun. unfold mbind at 1 in Hrun. unfold M_bind at 1 in Hrun.
    destruct (extract_page_content w page_url st) as [[[pc next] title] st1]
      eqn:Hpage.
    unfold mbind, M_bind in Hrun.
    destruct ((if decide (i < n - 1)%nat then sleep (1 # 2) else mret ()) st1)
      as [[] st2] eqn:Hpause.
    apply IH in Hrun as (segments & Hvisited & Hlen & ->).
    exists (pc :: segments). split_and!.
    + econstructor; [exact Hpage|]. by rewrite Hpause.
    + simpl. by rewrite Hlen.
    + csimpl. rewrite filter_cons. simpl.
      assert (imap ((λ j c, ((i + j)%nat, c)) ∘ S) segments
              = imap (λ j c, ((S i + j)%nat, c)) segments) as ->.
      { apply imap_ext. intros j c _. simpl. f_equal. lia. }
      replace (i + 0)%nat with i by lia.
      destruct pc as [|p pc].
      * by rewrite decide_False by (intros H; by apply H).
      * rewrite decide_True by done. by rewrite <-app_assoc.
Qed.

Lemma indexed_results_lookup segments i c :
  (i, c) ∈ indexed_results segments ↔ segments !! i = Some c ∧ c ≠ [].
Proof.
  unfold indexed_results. rewrite list_elem_of_filter, elem_of_lookup_imap.
  simpl. split.
  - intros [Hc (j & y & [= -> ->] & Hj)]. done.
  - intros [Hi Hc]. split; [done|]. by exists i, c.
Qed.

End assembly.

(** C1.  For a chapter with sub-pages the buffer holds the non-empty
    results, each with the index of its page, indices ascending; the
    assembled segments are those of the main page followed by those of
    the sub-pages in ascending index order, and the merge gives the same
    for every order in which the indexed results may stand in the
    buffer.  The entry with index [i] is what the extractor returned for
    link [i] of the list, the links having been visited one after the
    other in the order of the list: the assembled segments are those of
    the main page followed by the segments of link 0, of link 1, and so
    on. *)
Theorem assembled_in_index_order
    (w : Crawler.world) (chapter_url : string) (chapter_num : nat)
    (st st1 st2 st3 : Crawler.state)
    (main_content : list string) (next_chapter_url chapter_title : option string)
    (pagination_links : list string)
    (page_contents : list (nat * list string)) :
  Crawler.node_raises w chapter_num = None →
  Crawler.extract_page_content w chapter_url st
    = ((main_content, next_chapter_url, chapter_title), st1) →
  Crawler.get_pagination_links w chapter_url st1 = (pagination_links, st2) →
  pagination_links ≠ [] →
  Crawler.crawl_pages w (length pagination_links) 0 pagination_links [] st2
    = (page_contents, st3) →
  StronglySorted lt (fst <$> page_contents)
  ∧ Forall (λ x, (fst x < length pagination_links)%nat ∧ snd x ≠ [])
           page_contents
  ∧ (∃ st', Crawler.crawl_complete_chapter_async w chapter_url chapter_num st
            = (inr (chapter_title,
                    main_content ++ concat (snd <$> page_contents),
                    next_chapter_url), st'))
  ∧ (∀ arrival, arrival ≡ₚ page_contents →
       Crawler.extend_by_index main_content arrival
       = main_content ++ concat (snd <$> page_contents))
  ∧ ∃ segments,
      Crawler.visited_in_sequence w (length pagination_links) 0
        pagination_links st2 segments st3
      ∧ length segments = length pagination_links
      ∧ page_contents = Crawler.indexed_results segments
      ∧ (∀ i page_content,
           (i, page_content) ∈ page_contents
           ↔ segments !! i = Some page_content ∧ page_content ≠ [])
      ∧ main_content ++ concat (snd <$> page_contents)
        = main_content ++ concat segments.
Proof.
  intros Hraise Hmain Hlinks Hne Hpages.
  destruct (crawl_pages_visited _ _ _ _ _ _ _ _ Hpages)
    as (segments & Hvisited & Hlength & Hindexed).
  simpl in Hindexed. fold (Crawler.indexed_results segments) in Hindexed.
  assert (Hsegments : ∃ segments,
      Crawler.visited_in_sequence w (length pagination_links) 0
        pagination_links st2 segments st3
      ∧ length segments = length pagination_links
      ∧ page_contents = Crawler.indexed_results segments
      ∧ (∀ i page_content,
           (i, page_content) ∈ page_contents
           ↔ segments !! i = Some page_content ∧ page_content ≠ [])
      ∧ main_content ++ concat (snd <$> page_contents)
        = main_content ++ concat segments).
  { exists segments. split_and!; try done.
    - intros i c. rewrite Hindexed. apply indexed_results_lookup.
    - f_equal. rewrite Hindexed. unfold Crawler.indexed_results.
      rewrite concat_nonempty. by rewrite snd_imap. }
  destruct (crawl_pages_buffer _ _ _ _ _ _ _ _ Hpages)
    as (new & Hnew & Hsorted & Hrange).
  simpl in Hnew. subst new.
  assert (Hmerge : ∀ arrival, arrival ≡ₚ page_contents →
            Crawler.extend_by_index main_content arrival
            = main_content ++ concat (snd <$> page_contents)).
  { intros arrival Harr. rewrite extend_by_index_concat.
    rewrite <-(sort_by_perm_invariant _ page_contents arrival);
      [|by apply sorted_indices_NoDup|done].
    by rewrite sorted_indices_sort_id. }
  split; [done|]. split.
  { eapply Forall_impl; [exact Hrange|]. simpl. intros ? [??]. split; [lia|done]. }
  split; [|done].
  unfold Crawler.crawl_complete_chapter_async. rewrite Hraise.
  unfold mbind, Crawler.M_bind. rewrite Hmain, Hlinks.
  destruct pagination_links as [|link links]; [done|].
  rewrite Hpages. unfold mret, Crawler.M_ret.
  rewrite (Hmerge page_contents) by done.
  destruct (Crawler.adaptive_delay w st3) as [delay st4].
  simpl. eauto.
Qed.

Lemma assembled_in_index_order_witness :
  ∃ st', Crawler.crawl_complete_chapter_async
           (Scenario.static_site Scenario.two_chapters) Scenario.url_b 2
           Scenario.fresh
         = (inr (Some "Chapter B",
                 ["first paragraph of B"] ++
                   concat (snd <$> [(0%nat, ["second paragraph of B"]);
                                    (1%nat, ["third paragraph of B"])]),
                 None), st').
Proof.
  refine (proj1 (proj2 (proj2 (assembled_in_index_order
    (Scenario.static_site Scenario.two_chapters) Scenario.url_b 2
    Scenario.fresh _ _ _ ["first paragraph of B"] None (Some "Chapter B")
    [Scenario.url_b1; Scenario.url_b2]
    [(0%nat, ["second paragraph of B"]); (1%nat, ["third paragraph of B"])]
    _ _ _ _ _)))).
  - reflexivity.
  - vm_compute. reflexivity.
  - vm_compute. reflexivity.
  - discriminate.
  - vm_compute. reflexivity.
Defined.

(** ** Floats *)

Section binary64.
Import PyFloat.

Lemma pow2_pos e : (0 < pow2 e)%Q.
Proof. by apply Qpower_0_lt. Qed.

Lemma pow2_plus a b : (pow2 (a + b) == pow2 a * pow2 b)%Q.
Proof. by apply Qpower_plus. Qed.

Lemma pow2_le a b : a ≤ b → (pow2 a <= pow2 b)%Q.
Proof. intros H. by apply Qpower_le_compat_l. Qed.

Lemma pow2_lt a b : a < b → (pow2 a < pow2 b)%Q.
Proof. intros H. by apply Qpower_lt_compat_l. Qed.

Lemma pow2_lt_inv a b : (pow2 a < pow2 b)%Q → a < b.
Proof. intros H. by eapply Qpower_lt_compat_l_inv. Qed.

Lemma pow2_Z e : 0 ≤ e → (pow2 e == inject_Z (2 ^ e))%Q.
Proof. intros H. unfold pow2. by rewrite Zpower_Qpower. Qed.

Lemma pow2_succ e : (pow2 (e + 1) == 2 * pow2 e)%Q.
Proof. rewrite pow2_plus. change (pow2 1) with 2%Q. ring. Qed.

(** [ilog2] is the floor of the binary logarithm. *)
Lemma ilog2_spec x :
  (0 < x)%Q → (pow2 (ilog2 x) <= x)%Q ∧ (x < pow2 (ilog2 x + 1))%Q.
Proof.
  intros Hx. unfold ilog2.
  destruct x as [n d]. unfold Qlt in Hx. simpl in Hx.
  cbn [Qnum Qden].
  assert (0 < n) as Hn by lia.
  pose proof (Z.log2_spec n Hn) as [Ha1 Ha2].
  pose proof (Z.log2_spec (Z.pos d) ltac:(lia)) as [Hb1 Hb2].
  pose proof (Z.log2_nonneg n) as Ha0.
  pose proof (Z.log2_nonneg (Z.pos d)) as Hb0.
  set (a := Z.log2 n) in *. set (b := Z.log2 (Z.pos d)) in *.
  assert (Hx' : (n # d == inject_Z n / inject_Z (Z.pos d))%Q)
    by apply Qmake_Qdiv.
  assert (HD : (0 < inject_Z (Z.pos d))%Q) by (unfold Qlt; simpl; lia).
  assert (HN : ((n # d) * inject_Z (Z.pos d) == inject_Z n)%Q).
  { rewrite Hx'. field. intros H. rewrite H in HD. by apply Qlt_irrefl in HD. }
  assert (HA1 : (pow2 a <= inject_Z n)%Q) by (rewrite pow2_Z by done; by rewrite <-Zle_Qle).
  assert (HA2 : (inject_Z n < pow2 (a + 1))%Q)
    by (rewrite pow2_Z by lia; by rewrite <-Zlt_Qlt).
  assert (HB1 : (pow2 b <= inject_Z (Z.pos d))%Q)
    by (rewrite pow2_Z by done; by rewrite <-Zle_Qle).
  assert (HB2 : (inject_Z (Z.pos d) < pow2 (b + 1))%Q)
    by (rewrite pow2_Z by lia; by rewrite <-Zlt_Qlt).
  pose proof (pow2_pos b) as HBpos. pose proof (pow2_pos (a - b)) as HKpos.
  assert (HK : (pow2 (a - b) * pow2 b == pow2 a)%Q)
    by (rewrite <-pow2_plus; by replace (a - b + b) with a by lia).
  rewrite pow2_succ in HA2, HB2.
  assert (Hxpos : (0 < n # d)%Q) by (unfold Qlt; simpl; lia).
  destruct (Qle_bool (pow2 (a - b)) (n # d)) eqn:Htest.
  - apply Qle_bool_iff in Htest. split; [done|].
    rewrite pow2_succ.
    apply (Qmult_lt_r _ _ (pow2 b)); [done|].
    apply Qle_lt_trans with ((n # d) * inject_Z (Z.pos d))%Q.
    + apply Qmult_le_l; [done|done].
    + rewrite HN. eapply Qlt_le_trans; [exact HA2|]. rewrite <-HK. lra.
  - assert (Hlt : (n # d < pow2 (a - b))%Q).
    { apply Qnot_le_lt. intros H. apply Qle_bool_iff in H. congruence. }
    replace (a - b - 1 + 1) with (a - b) by lia. split; [|done].
    assert (HK' : (pow2 (a - b) == 2 * pow2 (a - b - 1))%Q).
    { rewrite <-pow2_succ. by replace (a - b - 1 + 1) with (a - b) by lia. }
    apply (Qmult_le_r _ _ (2 * pow2 b)); [lra|].
    apply Qle_trans with (inject_Z n).
    + rewrite <-HK in HA1. rewrite HK' in HA1. lra.
    + rewrite <-HN. apply Qmult_le_l; [done|]. lra.
Qed.

Lemma ilog2_unique x k :
  (0 < x)%Q → (pow2 k <= x)%Q → (x < pow2 (k + 1))%Q → ilog2 x = k.
Proof.
  intros Hx Hk1 Hk2. destruct (ilog2_spec x Hx) as [Hl1 Hl2].
  assert (ilog2 x < k + 1)
    by (apply pow2_lt_inv; by eapply Qle_lt_trans).
  assert (k < ilog2 x + 1)
    by (apply pow2_lt_inv; by eapply Qle_lt_trans).
  lia.
Qed.

Lemma ilog2_mono x y : (0 < x)%Q → (x <= y)%Q → ilog2 x ≤ ilog2 y.
Proof.
  intros Hx Hxy.
  destruct (ilog2_spec x Hx) as [Hl1 _].
  destruct (ilog2_spec y ltac:(lra)) as [_ Hl2].
  assert (ilog2 x < ilog2 y + 1); [|lia].
  apply pow2_lt_inv. lra.
Qed.

Lemma rne_bounds s : Qfloor s ≤ rne s ≤ Qfloor s + 1.
Proof.
  unfold rne. destruct (Qcompare _ _); [destruct (Z.even _)|..]; lia.
Qed.

Lemma rne_Z z : rne (inject_Z z) = z.
Proof.
  unfold rne. rewrite Qfloor_Z.
  destruct (Qcompare_spec (inject_Z z - inject_Z z) (1 # 2)) as [H|H|H];
    [lra|done|lra].
Qed.

Lemma rne_mono s t : (s <= t)%Q → rne s ≤ rne t.
Proof.
  intros Hst. pose proof (Qfloor_resp_le _ _ Hst) as Hfloor.
  pose proof (rne_bounds s). pose proof (rne_bounds t).
  destruct (decide (Qfloor s = Qfloor t)) as [Heq|]; [|lia].
  unfold rne. rewrite <-Heq.
  destruct (Qcompare_spec (s - inject_Z (Qfloor s)) (1 # 2)) as [Hs|Hs|Hs];
    destruct (Qcompare_spec (t - inject_Z (Qfloor s)) (1 # 2)) as [Ht|Ht|Ht];
    try destruct (Z.even _); try lia; lra.
Qed.

Lemma rne_comp s t : (s == t)%Q → rne s = rne t.
Proof.
  intros H. apply Z.le_antisymm; apply rne_mono; lra.
Qed.

Lemma Qabs_positive x : (0 < x)%Q → Qabs x = x.
Proof.
  destruct x as [n d]. unfold Qlt. simpl. intros H.
  unfold Qabs. f_equal. lia.
Qed.

Lemma exponent_positive x :
  (0 < x)%Q → exponent x = Z.max (ilog2 x - 52) (-1074).
Proof. intros H. unfold exponent. by rewrite Qabs_positive. Qed.

Lemma round_double_positive x :
  (0 < x)%Q →
  (round_double x
   == inject_Z (rne (x / pow2 (exponent x))) * pow2 (exponent x))%Q.
Proof.
  intros Hx. unfold round_double.
  destruct (Qeq_bool x 0) eqn:H0.
  - apply Qeq_bool_iff in H0. lra.
  - apply Qred_correct.
Qed.

Lemma round_double_zero x : (x == 0)%Q → round_double x = 0%Q.
Proof.
  intros Hx. unfold round_double.
  apply Qeq_bool_iff in Hx. by rewrite Hx.
Qed.

(** The significand of a positive number is at most [2^53], and at
    least [2^52] above the subnormal range. *)
Lemma significand_upper x :
  (0 < x)%Q → rne (x / pow2 (exponent x)) ≤ 2 ^ 53.
Proof.
  intros Hx. rewrite <-(rne_Z (2 ^ 53)). apply rne_mono.
  rewrite <-pow2_Z by lia.
  apply Qle_shift_div_r; [apply pow2_pos|]. rewrite <-pow2_plus.
  destruct (ilog2_spec x Hx) as [_ Hup].
  apply Qlt_le_weak. eapply Qlt_le_trans; [exact Hup|].
  apply pow2_le. rewrite exponent_positive by done. lia.
Qed.

Lemma significand_lower x :
  (0 < x)%Q → -1074 < exponent x →
  exponent x = ilog2 x - 52 ∧ 2 ^ 52 ≤ rne (x / pow2 (exponent x)).
Proof.
  intros Hx He. rewrite exponent_positive in * by done.
  assert (Z.max (ilog2 x - 52) (-1074) = ilog2 x - 52) as -> by lia.
  split; [done|].
  rewrite <-(rne_Z (2 ^ 52)). apply rne_mono.
  rewrite <-pow2_Z by lia.
  apply Qle_shift_div_l; [apply pow2_pos|]. rewrite <-pow2_plus.
  destruct (ilog2_spec x Hx) as [Hlow _].
  by replace (52 + (ilog2 x - 52)) with (ilog2 x) by lia.
Qed.

Lemma significand_nonneg x :
  (0 < x)%Q → 0 ≤ rne (x / pow2 (exponent x)).
Proof.
  intros Hx. rewrite <-(rne_Z 0). apply rne_mono.
  apply Qle_shift_div_l; [apply pow2_pos|].
  change (inject_Z 0) with 0%Q. lra.
Qed.

Lemma round_double_nonneg x : (0 <= x)%Q → (0 <= round_double x)%Q.
Proof.
  intros Hx. destruct (Qeq_dec x 0) as [H0|H0].
  - rewrite round_double_zero by done. lra.
  - rewrite round_double_positive by lra.
    apply Qmult_le_0_compat; [|apply Qlt_le_weak, pow2_pos].
    change 0%Q with (inject_Z 0). rewrite <-Zle_Qle.
    apply significand_nonneg. lra.
Qed.

Lemma exponent_mono x y :
  (0 < x)%Q → (x <= y)%Q → exponent x ≤ exponent y.
Proof.
  intros Hx Hxy. rewrite !exponent_positive by lra.
  pose proof (ilog2_mono x y Hx Hxy). lia.
Qed.

Lemma round_double_mono x y :
  (0 <= x)%Q → (x <= y)%Q → (round_double x <= round_double y)%Q.
Proof.
  intros Hx Hxy. destruct (Qeq_dec x 0) as [H0|H0].
  { rewrite (round_double_zero x) by done. apply round_double_nonneg. lra. }
  assert (0 < x)%Q as Hxpos by lra. assert (0 < y)%Q as Hypos by lra.
  rewrite !round_double_positive by done.
  pose proof (exponent_mono x y Hxpos Hxy) as He.
  pose proof (pow2_pos (exponent x)) as Hpx.
  pose proof (pow2_pos (exponent y)) as Hpy.
  destruct (decide (exponent x = exponent y)) as [Heq|Hne].
  - rewrite Heq. apply Qmult_le_r; [done|]. rewrite <-Zle_Qle.
    apply rne_mono. apply Qle_shift_div_l; [done|].
    assert (x / pow2 (exponent y) * pow2 (exponent y) == x)%Q as ->
      by (field; lra).
    done.
  - assert (exponent x + 1 ≤ exponent y) as Hlt by lia.
    assert (-1074 < exponent y) as Hnormal.
    { rewrite (exponent_positive x) in Hlt by done. lia. }
    destruct (significand_lower y Hypos Hnormal) as [_ Hlow].
    pose proof (significand_upper x Hxpos) as Hup.
    apply Qle_trans with (pow2 (exponent x + 53)).
    + rewrite (Z.add_comm _ 53), pow2_plus. apply Qmult_le_r; [done|].
      rewrite (pow2_Z 53) by lia. by rewrite <-Zle_Qle.
    + apply Qle_trans with (pow2 (52 + exponent y)).
      * apply pow2_le. lia.
      * rewrite pow2_plus. apply Qmult_le_r; [done|].
        rewrite (pow2_Z 52) by lia. by rewrite <-Zle_Qle.
Qed.

Lemma round_double_idempotent x :
  (0 <= x)%Q → (round_double (round_double x) == round_double x)%Q.
Proof.
  intros Hx. destruct (Qeq_dec x 0) as [H0|H0].
  { by rewrite (round_double_zero x). }
  assert (0 < x)%Q as Hxpos by lra.
  set (e := exponent x). set (m := rne (x / pow2 e)).
  assert (Hz : (round_double x == inject_Z m * pow2 e)%Q)
    by (by apply round_double_positive).
  pose proof (significand_nonneg x Hxpos) as Hm0. fold e m in Hm0.
  pose proof (significand_upper x Hxpos) as Hm1. fold e m in Hm1.
  pose proof (pow2_pos e) as Hpe.
  destruct (decide (m = 0)) as [Hm|Hm].
  { assert (round_double x == 0)%Q as Hzero
      by (rewrite Hz, Hm; ring).
    by rewrite (round_double_zero _ Hzero), Hzero. }
  assert (0 < round_double x)%Q as Hzpos.
  { rewrite Hz. apply Qmult_lt_0_compat; [|done].
    change 0%Q with (inject_Z 0). rewrite <-Zlt_Qlt. lia. }
  assert (-1074 ≤ e) as He by (unfold e; rewrite exponent_positive by done; lia).
  (* the exponent of the rounded number *)
  assert (Hexp : ∀ k, (pow2 k <= round_double x)%Q →
                      (round_double x < pow2 (k + 1))%Q →
                      exponent (round_double x) = Z.max (k - 52) (-1074)).
  { intros k H1 H2. rewrite exponent_positive by done.
    by rewrite (ilog2_unique _ k). }
  assert (Hround : ∀ e' m', exponent (round_double x) = e' →
            (round_double x == inject_Z m' * pow2 e')%Q →
            (round_double (round_double x) == round_double x)%Q).
  { intros e' m' He' Hm'. rewrite (round_double_positive _ Hzpos), He'.
    rewrite (rne_comp _ (inject_Z m')).
    - by rewrite rne_Z, Hm'.
    - rewrite Hm'. field. pose proof (pow2_pos e'). lra. }
  destruct (decide (m = 2 ^ 53)) as [Htop|Htop].
  - (* the significand overflowed into the next binade *)
    assert (round_double x == pow2 (e + 53))%Q as Hz'.
    { rewrite Hz, Htop, (Z.add_comm e), pow2_plus, (pow2_Z 53) by lia. done. }
    apply (Hround (e + 1) (2 ^ 52)).
    + rewrite (Hexp (e + 53)); [lia|lra|].
      rewrite Hz'. apply pow2_lt. lia.
    + rewrite Hz'. rewrite <-(pow2_Z 52) by lia. rewrite <-pow2_plus.
      by replace (52 + (e + 1)) with (e + 53) by lia.
  - apply (Hround e m); [|done].
    assert (round_double x < pow2 (e + 53))%Q as Hup.
    { rewrite Hz, (Z.add_comm e), pow2_plus. apply Qmult_lt_r; [done|].
      rewrite (pow2_Z 53) by lia. rewrite <-Zlt_Qlt. lia. }
    destruct (decide (e = -1074)) as [Hsub|Hnormal].
    + (* subnormal: the exponent stays at its minimum *)
      rewrite exponent_positive by done.
      destruct (ilog2_spec _ Hzpos) as [Hl _].
      assert (ilog2 (round_double x) < e + 53)
        by (apply pow2_lt_inv; lra).
      lia.
    + destruct (significand_lower x Hxpos ltac:(fold e; lia)) as [_ Hlow].
      fold e m in Hlow.
      rewrite (Hexp (e + 52)); [lia| |by replace (e + 52 + 1) with (e + 53) by lia].
      rewrite Hz, (Z.add_comm e), pow2_plus. apply Qmult_le_r; [done|].
      rewrite (pow2_Z 52) by lia. by rewrite <-Zle_Qle.
Qed.

(** The doubles written 2.89 and 0.11: their sum rounds to 3, which an
    arithmetic that does not round misses. *)
Example rounded_sum :
  let latencies := [round_double (289 # 100); round_double (11 # 100)] in
  fsum binary64 latencies = 3%Q
  ∧ latencies = [6507701461550367 # 2251799813685248;
                 7926335344172073 # 72057594037927936]%Q
  ∧ (3 < fsum unrounded latencies)%Q.
Proof. by vm_compute. Qed.

Lemma binary64_correctly_rounded : correctly_rounded binary64.
Proof.
  split; [exact round_double_mono|]. split; [exact round_double_idempotent|].
  by vm_compute.
Qed.

End binary64.

Section rounding.
Import PyFloat.
Context (fa : arithmetic) (Hfa : correctly_rounded fa).

Lemma fl_mono x y : (0 <= x)%Q → (x <= y)%Q → (fl fa x <= fl fa y)%Q.
Proof. by apply Hfa. Qed.

Lemma fl_idempotent x : (0 <= x)%Q → (fl fa (fl fa x) == fl fa x)%Q.
Proof. by apply Hfa. Qed.

Lemma fl_0 : (fl fa 0 == 0)%Q.
Proof. by apply Hfa. Qed.

Lemma fl_1 : (fl fa 1 == 1)%Q.
Proof. by apply Hfa. Qed.

Lemma fl_2 : (fl fa 2 == 2)%Q.
Proof. by apply Hfa. Qed.

Lemma fl_nonneg x : (0 <= x)%Q → (0 <= fl fa x)%Q.
Proof. intros Hx. rewrite <-fl_0. by apply fl_mono. Qed.

Lemma fl_between x a b :
  (0 <= a)%Q → (a <= x)%Q → (x <= b)%Q →
  (fl fa a <= fl fa x)%Q ∧ (fl fa x <= fl fa b)%Q.
Proof. intros Ha Hax Hxb. split; apply fl_mono; lra. Qed.

(** The random factor lies between 1 and 2. *)
Lemma uniform_bounds u :
  (0 <= u)%Q → (u <= 1)%Q →
  (1 <= Crawler.uniform fa 1 2 u)%Q ∧ (Crawler.uniform fa 1 2 u <= 2)%Q.
Proof.
  intros Hu0 Hu1. unfold Crawler.uniform, fadd, fmul, fsub.
  destruct (fl_between (2 - 1) 1 1) as [Hw1 Hw2]; [lra..|].
  rewrite fl_1 in Hw1, Hw2.
  set (width := fl fa (2 - 1)) in *.
  assert (0 <= width * u)%Q by nra. assert (width * u <= 1)%Q by nra.
  destruct (fl_between (width * u) 0 1) as [Hv1 Hv2]; [lra..|].
  rewrite fl_0 in Hv1. rewrite fl_1 in Hv2.
  set (v := fl fa (width * u)) in *.
  destruct (fl_between (1 + v) 1 2) as [Hr1 Hr2]; [lra..|].
  rewrite fl_1 in Hr1. rewrite fl_2 in Hr2. done.
Qed.

End rounding.

(** ** The rate controller *)

Section rate.
Import Crawler.

Lemma Qgtb_true x y : Qgtb x y = true ↔ (y < x)%Q.
Proof.
  unfold Qgtb. rewrite negb_true_iff, <-not_true_iff_false, Qle_bool_iff.
  split; [apply Qnot_le_lt | apply Qlt_not_le].
Qed.

Lemma Qgtb_false x y : Qgtb x y = false ↔ (x <= y)%Q.
Proof.
  unfold Qgtb. rewrite negb_false_iff. apply Qle_bool_iff.
Qed.

Lemma load_factor_for_cases avg :
  ((5 < avg)%Q ∧ load_factor_for avg = 3%Q)
  ∨ ((3 < avg)%Q ∧ (avg <= 5)%Q ∧ load_factor_for avg = (5 # 2)%Q)
  ∨ ((3 # 2 < avg)%Q ∧ (avg <= 3)%Q ∧ load_factor_for avg = 2%Q)
  ∨ ((avg <= 3 # 2)%Q ∧ load_factor_for avg = (3 # 2)%Q).
Proof.
  unfold load_factor_for.
  destruct (Qgtb avg 5) eqn:H5; [left; by apply Qgtb_true in H5|].
  destruct (Qgtb avg 3) eqn:H3;
    [right; left; apply Qgtb_true in H3; by apply Qgtb_false in H5|].
  destruct (Qgtb avg (3 # 2)) eqn:H2;
    [right; right; left; apply Qgtb_true in H2; by apply Qgtb_false in H3|].
  right; right; right. by apply Qgtb_false in H2.
Qed.

Lemma last_n_suffix {A} n (l : list A) : last_n n l `suffix_of` l.
Proof. apply suffix_drop. Qed.

Lemma last_n_length {A} n (l : list A) :
  length (last_n n l) = (n `min` length l)%nat.
Proof. unfold last_n. rewrite length_drop. lia. Qed.

Lemma calculate_adaptive_delay_nonempty fa u c :
  response_times c ≠ [] →
  let recent := last_n 10 (response_times c) in
  let mean :=
    PyFloat.fdiv fa (PyFloat.fsum fa recent)
      (inject_Z (Z.of_nat (length recent))) in
  _calculate_adaptive_delay fa u c
  = (PyFloat.fmul fa (PyFloat.fmul fa (base_delay c) (load_factor_for mean))
       (uniform fa 1 2 u),
     set_server_load_factor (load_factor_for mean) c).
Proof.
  intros Hne. unfold _calculate_adaptive_delay.
  by destruct (response_times c).
Qed.

End rate.

(** C8.  The delay is computed in the floats of the machine, whatever
    its arithmetic [fa]: every product, sum and quotient below is the
    rounded one.  With an empty latency window the delay is the base
    delay times 2.  Otherwise the mean of the last ten latencies (of all
    of them when there are fewer), as the machine computes it, fixes the
    load factor: 3 above 5 s, 2.5 above 3 s (so at 4 s), 2 above 1.5 s,
    else 1.5; the factor is never below 1.5 and the delay is the base
    delay times the factor times the random factor, which lies between 1
    and 2 when the arithmetic rounds to the nearest float.  [u] is the
    draw of the random source. *)
Theorem adaptive_delay_by_thresholds
    (fa : PyFloat.arithmetic) (c : Crawler.crawler) (u : Q) :
  let delay := fst (Crawler._calculate_adaptive_delay fa u c) in
  let c' := snd (Crawler._calculate_adaptive_delay fa u c) in
  let recent := Crawler.last_n 10 (Crawler.response_times c) in
  let mean :=
    PyFloat.fdiv fa (PyFloat.fsum fa recent)
      (inject_Z (Z.of_nat (length recent))) in
  let factor := Crawler.server_load_factor c' in
  let r := Crawler.uniform fa 1 2 u in
  (Crawler.response_times c = [] →
     delay = PyFloat.fmul fa (Crawler.base_delay c) 2 ∧ c' = c)
  ∧ (Crawler.response_times c ≠ [] →
     recent `suffix_of` Crawler.response_times c
     ∧ length recent = (10 `min` length (Crawler.response_times c))%nat
     ∧ ((5 < mean)%Q → factor = 3%Q)
     ∧ ((3 < mean)%Q → (mean <= 5)%Q → factor = (5 # 2)%Q)
     ∧ ((mean == 4)%Q → factor = (5 # 2)%Q)
     ∧ ((3 # 2 < mean)%Q → (mean <= 3)%Q → factor = 2%Q)
     ∧ ((mean <= 3 # 2)%Q → factor = (3 # 2)%Q)
     ∧ (3 # 2 <= factor)%Q
     ∧ delay = PyFloat.fmul fa (PyFloat.fmul fa (Crawler.base_delay c) factor) r
     ∧ (PyFloat.correctly_rounded fa → (0 <= u)%Q → (u <= 1)%Q →
        (1 <= r)%Q ∧ (r <= 2)%Q)).
Proof.
  intros delay c' recent mean factor r. split.
  - intros Hempty. subst delay c'.
    unfold Crawler._calculate_adaptive_delay. by rewrite Hempty.
  - intros Hne. subst delay c' factor.
    rewrite (calculate_adaptive_delay_nonempty fa u c Hne).
    fold recent. fold mean. fold r.
    cbn [fst snd Crawler.server_load_factor Crawler.set_server_load_factor].
    split; [apply last_n_suffix|]. split; [apply last_n_length|].
    assert (Hr : PyFloat.correctly_rounded fa → (0 <= u)%Q → (u <= 1)%Q →
                 (1 <= r)%Q ∧ (r <= 2)%Q)
      by (intros; by apply uniform_bounds).
    destruct (load_factor_for_cases mean)
      as [[H ->]|[(H1 & H2 & ->)|[(H1 & H2 & ->)|[H ->]]]].
    all: repeat apply conj; try exact Hr;
      try (intros; first [reflexivity | exfalso; lra | lra]).
Qed.

(** The doubles written 2.89 and 0.11 add up to the double 3.0, so
    their mean is 1.5 and the load factor 1.5, although their exact sum
    is above 3. *)
Lemma adaptive_delay_by_thresholds_witness :
  Crawler.server_load_factor
    (snd (Crawler._calculate_adaptive_delay PyFloat.binary64 (1 # 2)
            (Crawler.set_response_times
               [PyFloat.round_double (289 # 100);
                PyFloat.round_double (11 # 100)]
               (Crawler.__init__ "https://www.twinfoo.com" 2 (3 # 2)))))
  = (3 # 2)%Q.
Proof.
  destruct (adaptive_delay_by_thresholds PyFloat.binary64
              (Crawler.set_response_times
                 [PyFloat.round_double (289 # 100);
                  PyFloat.round_double (11 # 100)]
                 (Crawler.__init__ "https://www.twinfoo.com" 2 (3 # 2)))
              (1 # 2)) as [_ H].
  destruct H as (_ & _ & _ & _ & _ & _ & H & _); [discriminate|].
  apply H. by vm_compute.
Defined.

(** ** The fetcher *)

Section fetcher.
Import Crawler.

Lemma requests_app url e1 e2 :
  requests url (e1 ++ e2) = (requests url e1 + requests url e2)%nat.
Proof. unfold requests. by rewrite List.filter_app, length_app. Qed.

Lemma requests_get url : requests url [Get url] = 1%nat.
Proof. unfold requests. simpl. by rewrite String.eqb_refl. Qed.

Lemma requests_get_ne url u : u ≠ url → requests u [Get url] = 0%nat.
Proof.
  intros Hne. unfold requests. simpl.
  destruct (String.eqb_spec url u); [congruence|done].
Qed.

Lemma requests_sleep url d : requests url [Sleep d] = 0%nat.
Proof. done. Qed.

Lemma extends_refl st : extends st st [].
Proof. done. Qed.

Lemma extends_trans st1 st2 st3 e1 e2 :
  extends st1 st2 e1 → extends st2 st3 e2 → extends st1 st3 (e2 ++ e1).
Proof.
  intros (Ht & H1 & H1') (Ht' & H2 & H2'). repeat split; try congruence.
  by rewrite Ht', Ht, app_assoc.
Qed.

Ltac run H :=
  unfold mbind, M_bind, mret, M_ret, session_get, get_trace, get_self,
    emit, modify_self, sleep, with_self in H; simpl in H.

Lemma fetch_attempts_run w url remaining :
  ∀ attempt st r st',
    fetch_attempts w url attempt remaining st = (r, st') →
    ∃ events,
      extends st st' events
      ∧ (requests url events ≤ remaining)%nat
      ∧ (0 < remaining → 1 ≤ requests url events)%nat
      ∧ (∀ u, u ≠ url → requests u events = 0%nat)
      ∧ failed_urls (self st')
        = match r with
          | None => {[url]} ∪ failed_urls (self st)
          | Some _ => failed_urls (self st)
          end.
Proof.
  induction remaining as [|remaining IH]; intros attempt st r st' Hrun.
  - simpl in Hrun. run Hrun. injection Hrun as <- <-.
    exists []. repeat split; simpl; try done; lia.
  - simpl in Hrun. run Hrun.
    assert (Hnext : ∀ st1 pre,
      extends st st1 (pre ++ [Get url]) →
      (∀ u, requests u pre = 0%nat) →
      failed_urls (self st1) = failed_urls (self st) →
      fetch_attempts w url (S attempt) remaining st1 = (r, st') →
      ∃ events,
        extends st st' events
        ∧ (requests url events ≤ S remaining)%nat
        ∧ (0 < S remaining → 1 ≤ requests url events)%nat
        ∧ (∀ u, u ≠ url → requests u events = 0%nat)
        ∧ failed_urls (self st')
          = match r with
            | None => {[url]} ∪ failed_urls (self st)
            | Some _ => failed_urls (self st)
            end).
    { intros st1 pre Hext Hpre Hfailed Hrec.
      apply IH in Hrec as (events & Hext' & Hle & _ & Hother & Hf).
      exists (events ++ pre ++ [Get url]).
      split; [by eapply extends_trans|].
      rewrite !requests_app, requests_get, Hpre.
      split; [lia|]. split; [lia|]. split.
      - intros u Hu. rewrite !requests_app, Hother, Hpre by done.
        by rewrite requests_get_ne.
      - by rewrite Hf, Hfailed. }
    destruct (http_get w (trace st) url) as [status body elapsed| | | |].
    + destruct (status =? 200).
      { injection Hrun as <- <-. exists [Get url].
        rewrite requests_get. repeat split; simpl; try done; try lia.
        intros u Hu. by apply requests_get_ne. }
      destruct (status =? 403).
      { eapply (Hnext _ [Sleep 5]); [| |
          |exact Hrun]; try done. }
      destruct (status =? 404).
      { injection Hrun as <- <-. exists [Get url].
        rewrite requests_get. repeat split; simpl; try done; try lia.
        intros u Hu. by apply requests_get_ne. }
      eapply (Hnext _ []); [| | |exact Hrun]; done.
    + case_decide.
      * eapply (Hnext _ [Sleep _]); [| | |exact Hrun]; done.
      * eapply (Hnext _ []); [| | |exact Hrun]; done.
    + case_decide.
      * eapply (Hnext _ [Sleep _]); [| | |exact Hrun]; done.
      * eapply (Hnext _ []); [| | |exact Hrun]; done.
    + case_decide.
      * eapply (Hnext _ [Sleep _]); [| | |exact Hrun]; done.
      * eapply (Hnext _ []); [| | |exact Hrun]; done.
    + case_decide.
      * eapply (Hnext _ [Sleep _]); [| | |exact Hrun]; done.
      * eapply (Hnext _ []); [| | |exact Hrun]; done.
Qed.

Lemma fetch_with_retry_run w url st r st' :
  fetch_with_retry w url st = (r, st') →
  ∃ events,
    extends st st' events
    ∧ (requests url events ≤ retry_count (self st))%nat
    ∧ (0 < retry_count (self st) → 1 ≤ requests url events)%nat
    ∧ (∀ u, u ≠ url → requests u events = 0%nat)
    ∧ failed_urls (self st')
      = match r with
        | None => {[url]} ∪ failed_urls (self st)
        | Some _ => failed_urls (self st)
        end.
Proof. intros Hrun. run Hrun. by apply fetch_attempts_run in Hrun. Qed.

(** The extractor does nothing but its one fetch. *)
Lemma extract_page_content_run w url st r st' :
  extract_page_content w url st = (r, st') →
  ∃ page, fetch_with_retry w url st = (page, st').
Proof.
  unfold extract_page_content. intros Hrun.
  unfold mbind, M_bind in Hrun.
  destruct (fetch_with_retry w url st) as [page st1].
  exists page. f_equal.
  destruct page as [page|]; [|by injection Hrun].
  destruct (no_content _); [by injection Hrun|].
  run Hrun.
  destruct (find_blurstxt _) as [[|]|]; by injection Hrun.
Qed.

End fetcher.

(** C5.  A URL answered 404 on the first attempt is requested once and the
    fetch fails; the URL is recorded among the failed ones, as it is
    whenever a fetch fails, be it at once on a 404 or after the last
    attempt.  A successful fetch records nothing. *)
Theorem not_found_fails_at_once_and_is_recorded
    (w : Crawler.world) (url : string) (st : Crawler.state)
    (body : Crawler.html) (elapsed : Q) :
  (0 < Crawler.retry_count (Crawler.self st))%nat →
  Crawler.http_get w (Crawler.trace st) url = Crawler.Http 404 body elapsed →
  (∃ st', Crawler.fetch_with_retry w url st = (None, st')
          ∧ Crawler.trace st' = Crawler.Get url :: Crawler.trace st
          ∧ Crawler.failed_urls (Crawler.self st')
            = {[url]} ∪ Crawler.failed_urls (Crawler.self st))
  ∧ ∀ (w' : Crawler.world) (url' : string) (st0 st1 : Crawler.state) r,
      Crawler.fetch_with_retry w' url' st0 = (r, st1) →
      Crawler.failed_urls (Crawler.self st1)
      = match r with
        | None => {[url']} ∪ Crawler.failed_urls (Crawler.self st0)
        | Some _ => Crawler.failed_urls (Crawler.self st0)
        end.
Proof.
  intros Hretry H404. split.
  - unfold Crawler.fetch_with_retry.
    unfold mbind, Crawler.M_bind, Crawler.get_self.
    destruct (Crawler.retry_count (Crawler.self st)) as [|n]; [lia|].
    simpl. unfold mbind, Crawler.M_bind, Crawler.session_get,
      Crawler.get_trace, Crawler.emit, mret, Crawler.M_ret. simpl.
    rewrite H404. simpl. eauto.
  - intros w' url' st0 st1 r Hrun.
    by apply fetch_with_retry_run in Hrun as (? & _ & _ & _ & _ & ?).
Qed.

Lemma not_found_fails_at_once_and_is_recorded_witness :
  ∃ st', Crawler.fetch_with_retry (Scenario.static_site Scenario.not_found)
           Scenario.url_a Scenario.fresh = (None, st')
         ∧ Crawler.trace st' = [Crawler.Get Scenario.url_a]
         ∧ Crawler.failed_urls (Crawler.self st') = {[Scenario.url_a]} ∪ ∅.
Proof.
  refine (proj1 (not_found_fails_at_once_and_is_recorded
    (Scenario.static_site Scenario.not_found) Scenario.url_a Scenario.fresh
    (Scenario.doc "Not Found" None None []) 1 _ _)).
  - simpl. lia.
  - reflexivity.
Defined.

(** The claim C5 makes about the failed URLs does not hold: the URL of a
    page answered 404 at the first attempt, not among the failed URLs
    before, is among them after the fetch. *)
Lemma not_found_url_is_recorded :
  let st' := snd (Crawler.fetch_with_retry
                    (Scenario.static_site Scenario.not_found)
                    Scenario.url_a Scenario.fresh) in
  Crawler.http_get (Scenario.static_site Scenario.not_found) [] Scenario.url_a
  = Crawler.Http 404 (Scenario.doc "Not Found" None None []) 1
  ∧ (Scenario.url_a ∉ Crawler.failed_urls (Crawler.self Scenario.fresh))
  ∧ Crawler.requests Scenario.url_a (Crawler.trace st') = 1%nat
  ∧ Scenario.url_a ∈ Crawler.failed_urls (Crawler.self st').
Proof.
  simpl. repeat split; set_solver.
Qed.

(** ** The content extractor *)

(** C9.  When the content container is absent the extractor returns no
    segments, the title it found, and no next URL, whether or not the
    document has a link marked as next. *)
Theorem page_without_container_yields_title_only
    (w : Crawler.world) (url : string) (st st' : Crawler.state)
    (page : Crawler.html) :
  Crawler.fetch_with_retry w url st = (Some page, st') →
  PyStr.truthy (Crawler.html_text page) = true →
  Crawler.find_blurstxt (Crawler.html_soup page) = None →
  Crawler.extract_page_content w url st
  = (([], None,
      Crawler.find_title (Crawler.html_soup page) Crawler.title_selectors),
     st').
Proof.
  intros Hfetch Htext Hdiv. unfold Crawler.extract_page_content.
  unfold mbind, Crawler.M_bind. rewrite Hfetch. simpl.
  rewrite Htext. simpl. by rewrite Hdiv.
Qed.

Lemma page_without_container_yields_title_only_witness :
  ∃ st', Crawler.extract_page_content
           (Scenario.static_site Scenario.navigation_only) Scenario.url_a
           Scenario.fresh
         = (([], None, Some "Contents"), st').
Proof.
  eexists.
  refine (page_without_container_yields_title_only
    (Scenario.static_site Scenario.navigation_only) Scenario.url_a
    Scenario.fresh _ (Scenario.doc "Contents" None (Some Scenario.url_b) [])
    _ _ _).
  - vm_compute. reflexivity.
  - reflexivity.
  - reflexivity.
Defined.

(** The claim C9 makes about the next URL does not hold: this document has
    no content container and a link marked as next, and the extractor
    reports no next URL. *)
Lemma navigation_page_loses_next_link :
  let page := Scenario.doc "Contents" None (Some Scenario.url_b) [] in
  Crawler.http_get (Scenario.static_site Scenario.navigation_only) []
    Scenario.url_a = Crawler.Http 200 page 1
  ∧ Crawler.find_blurstxt (Crawler.html_soup page) = None
  ∧ Crawler.find_rel_next (Crawler.html_soup page) = Some (Some Scenario.url_b)
  ∧ fst (Crawler.extract_page_content
           (Scenario.static_site Scenario.navigation_only) Scenario.url_a
           Scenario.fresh)
    = ([], None, Some "Contents").
Proof. by vm_compute. Qed.

(** ** One chapter *)

Section chapter.
Import Crawler.

Ltac run H :=
  unfold mbind, M_bind, mret, M_ret, session_get, get_trace, get_self,
    emit, modify_self, sleep, with_self in H; simpl in H.

Lemma sort_pagination_urls_elem_of urls u :
  u ∈ _sort_pagination_urls urls ↔ u ∈ urls.
Proof. by rewrite sort_pagination_urls_sort_by, sort_by_perm. Qed.

Lemma pagination_candidate_ne w c url a href :
  pagination_candidate w c url a = Some href → href ≠ url.
Proof.
  unfold pagination_candidate. intros H.
  destruct (Crawler.href a) as [h|]; [|done].
  destruct (PyStr.truthy h); [|done].
  destruct (existsb _ _); [done|].
  destruct (_validate_url _); [|done]. simpl in H.
  destruct (String.eqb_spec
              (if PyStr.startswith h "http" then h
               else urljoin w (base_url c) h) url); [done|].
  simpl in H. by injection H as <-.
Qed.

Lemma ordered_links_ne url candidates :
  Forall (λ u, u ≠ url) candidates →
  Forall (λ u, u ≠ url)
    match _deduplicate_preserve_order candidates with
    | [] => _deduplicate_preserve_order candidates
    | _ => _sort_pagination_urls (_deduplicate_preserve_order candidates)
    end.
Proof.
  intros Hc.
  assert (Hd : Forall (λ u, u ≠ url) (_deduplicate_preserve_order candidates)).
  { rewrite Forall_forall in Hc. apply Forall_forall. intros u Hu.
    apply dedup_loop_elem_of in Hu as [Hu _]. by apply Hc. }
  destruct (_deduplicate_preserve_order candidates) eqn:Hdedup; [done|].
  rewrite Forall_forall in Hd. apply Forall_forall. intros u Hu.
  rewrite sort_pagination_urls_elem_of in Hu. by apply Hd.
Qed.

(** The resolver does nothing but its one fetch, and never lists the
    document itself. *)
Lemma get_pagination_links_run w url st links st' :
  get_pagination_links w url st = (links, st') →
  (∃ page, fetch_with_retry w url st = (page, st'))
  ∧ Forall (λ u, u ≠ url) links.
Proof.
  unfold get_pagination_links. intros Hrun.
  unfold mbind at 1 in Hrun. unfold M_bind in Hrun.
  destruct (fetch_with_retry w url st) as [page st1].
  destruct page as [page|]; [|injection Hrun as <- <-; eauto].
  destruct (no_content _); [injection Hrun as <- <-; eauto|].
  unfold mbind at 1 in Hrun. unfold M_bind, get_self in Hrun.
  unfold mret at 1 in Hrun. unfold M_ret in Hrun.
  injection Hrun as <- <-. split; [eauto|].
  apply ordered_links_ne.
  apply Forall_forall. intros u Hu.
  repeat match type of Hu with
         | _ ∈ _ ++ _ =>
             apply elem_of_app in Hu as [Hu|Hu];
             [apply list_elem_of_omap in Hu as (a & _ & Hu);
              by eapply pagination_candidate_ne|]
         end.
  by apply elem_of_nil in Hu.
Qed.

Lemma crawl_pages_run w url n links :
  Forall (λ u, u ≠ url) links →
  ∀ i buffer st r st',
    crawl_pages w n i links buffer st = (r, st') →
    ∃ events, extends st st' events ∧ requests url events = 0%nat.
Proof.
  induction 1 as [|page_url links Hne Hlinks IH]; intros i buffer st r st' Hrun.
  - injection Hrun as <- <-. by exists [].
  - simpl in Hrun. unfold mbind at 1 in Hrun. unfold M_bind in Hrun.
    destruct (extract_page_content w page_url st) as [[[pc ?] ?] st1] eqn:He.
    apply extract_page_content_run in He as [page He].
    apply fetch_with_retry_run in He as (e1 & Hext1 & _ & _ & Hother & _).
    unfold mbind, M_bind in Hrun.
    destruct (decide (i < n - 1)%nat).
    + run Hrun. apply IH in Hrun as (e2 & Hext2 & Hreq).
      exists (e2 ++ [Sleep (1 # 2)] ++ e1). split.
      * eapply extends_trans; [|exact Hext2].
        eapply (extends_trans _ _ _ _ [Sleep (1 # 2)]); [exact Hext1|].
        done.
      * rewrite !requests_app, Hreq, Hother by done. done.
    + run Hrun. apply IH in Hrun as (e2 & Hext2 & Hreq).
      exists (e2 ++ e1). split; [by eapply extends_trans|].
      by rewrite !requests_app, Hreq, Hother.
Qed.

Lemma adaptive_delay_run w st d st' :
  adaptive_delay w st = (d, st') → extends st st' [].
Proof.
  unfold adaptive_delay. intros Hrun. run Hrun.
  destruct (_calculate_adaptive_delay _ _) as [d' c'] eqn:Hd.
  injection Hrun as <- <-.
  unfold _calculate_adaptive_delay in Hd.
  destruct (response_times (self st)); by injection Hd as <- <-.
Qed.

End chapter.

(** C2.  In the step that fetches a chapter the extractor and the resolver
    each fetch the document URL themselves, one after the other, and each
    works on what its own fetch returned.  Each fetch sends at least one
    and at most [retry_count] requests for the URL and nothing else does,
    so the URL is requested at least twice and at most twice
    [retry_count] times. *)
Theorem document_fetched_by_each_consumer
    (w : Crawler.world) (chapter_url : string) (chapter_num : nat)
    (st st' : Crawler.state) (r : Crawler.exc + Crawler.chapter) :
  Crawler.node_raises w chapter_num = None →
  (0 < Crawler.retry_count (Crawler.self st))%nat →
  Crawler.crawl_complete_chapter_async w chapter_url chapter_num st = (r, st') →
  ∃ main_result st1 content_events pagination_links st2 links_events later,
    Crawler.extract_page_content w chapter_url st = (main_result, st1)
    ∧ Crawler.trace st1 = content_events ++ Crawler.trace st
    ∧ (1 ≤ Crawler.requests chapter_url content_events
         ≤ Crawler.retry_count (Crawler.self st))%nat
    ∧ Crawler.get_pagination_links w chapter_url st1 = (pagination_links, st2)
    ∧ Crawler.trace st2 = links_events ++ Crawler.trace st1
    ∧ (1 ≤ Crawler.requests chapter_url links_events
         ≤ Crawler.retry_count (Crawler.self st))%nat
    ∧ Crawler.trace st' = later ++ Crawler.trace st2
    ∧ Crawler.requests chapter_url later = 0%nat
    ∧ (2 ≤ Crawler.requests chapter_url (later ++ links_events ++ content_events)
         ≤ 2 * Crawler.retry_count (Crawler.self st))%nat.
Proof.
  intros Hraise Hretry Hrun.
  unfold Crawler.crawl_complete_chapter_async in Hrun. rewrite Hraise in Hrun.
  unfold mbind at 1 in Hrun. unfold Crawler.M_bind in Hrun.
  destruct (Crawler.extract_page_content w chapter_url st)
    as [main_result st1] eqn:Hmain.
  unfold mbind at 1 in Hrun.
  destruct (Crawler.get_pagination_links w chapter_url st1)
    as [links st2] eqn:Hlinks.
  exists main_result, st1.
  pose proof Hmain as Hm. apply extract_page_content_run in Hm as [p1 Hm].
  apply fetch_with_retry_run in Hm
    as (e1 & (Ht1 & Hr1 & _) & Hle1 & Hge1 & _ & _).
  exists e1, links, st2.
  pose proof Hlinks as Hl.
  apply get_pagination_links_run in Hl as [[p2 Hl] Hne].
  apply fetch_with_retry_run in Hl
    as (e2 & (Ht2 & Hr2 & _) & Hle2 & Hge2 & _ & _).
  exists e2. rewrite Hr1 in Hle2, Hge2.
  assert (Hlater : ∃ later, Crawler.trace st' = later ++ Crawler.trace st2
                            ∧ Crawler.requests chapter_url later = 0%nat).
  { destruct main_result as [[main_content next] title].
    unfold mbind at 1 in Hrun.
    destruct links as [|link links].
    - unfold mret, Crawler.M_ret in Hrun. unfold mbind at 1 in Hrun.
      destruct (Crawler.adaptive_delay w st2) as [d st3] eqn:Hd.
      apply adaptive_delay_run in Hd as (Ht3 & _).
      unfold mbind, Crawler.M_bind, Crawler.sleep, Crawler.emit, mret,
        Crawler.M_ret in Hrun.
      injection Hrun as <- <-. exists [Crawler.Sleep d]. simpl.
      by rewrite Ht3.
    - unfold mbind at 1 in Hrun.
      destruct (Crawler.crawl_pages w _ 0 _ [] st2) as [pcs st3] eqn:Hp.
      eapply crawl_pages_run in Hp as (e3 & (Ht3 & _) & Hreq3); [|exact Hne].
      unfold mret, Crawler.M_ret in Hrun. unfold mbind at 1 in Hrun.
      destruct (Crawler.adaptive_delay w st3) as [d st4] eqn:Hd.
      apply adaptive_delay_run in Hd as (Ht4 & _).
      unfold mbind, Crawler.M_bind, Crawler.sleep, Crawler.emit, mret,
        Crawler.M_ret in Hrun.
      injection Hrun as <- <-. exists (Crawler.Sleep d :: e3). simpl.
      split; [by rewrite Ht4, Ht3|].
      unfold Crawler.requests in *. by simpl. }
  destruct Hlater as (later & Hlater & Hreq).
  exists later. rewrite !requests_app, Hreq.
  repeat split; try done; try lia.
Qed.

Lemma document_fetched_by_each_consumer_witness :
  (2 ≤ Crawler.requests Scenario.url_a
         (Crawler.trace
            (snd (Crawler.crawl_complete_chapter_async
                    (Scenario.static_site Scenario.two_chapters)
                    Scenario.url_a 1 Scenario.fresh))))%nat.
Proof.
  destruct (document_fetched_by_each_consumer
              (Scenario.static_site Scenario.two_chapters) Scenario.url_a 1
              Scenario.fresh _ _ eq_refl (Nat.lt_0_succ 4)
              (surjective_pairing _))
    as (m & st1 & e1 & links & st2 & e2 & later
        & _ & H1 & _ & _ & H2 & _ & H3 & _ & H & _).
  rewrite H3, H2, H1, !app_assoc, app_nil_r, <-app_assoc. exact H.
Defined.

(** The claim C2 does not hold.  A chapter without sub-pages, served at
    the first attempt, is requested twice in one step.  And when the
    second answer differs from the first, the resolver works on the
    second: here only the second answer links to a further page, and that
    page is fetched and merged. *)
Lemma document_is_requested_twice :
  Crawler.requests Scenario.url_a
    (Crawler.trace
       (snd (Crawler.crawl_complete_chapter_async
               (Scenario.static_site Scenario.two_chapters)
               Scenario.url_a 1 Scenario.fresh))) = 2%nat
  ∧ fst (Crawler.crawl_complete_chapter_async Scenario.second_look
           Scenario.url_b 1 Scenario.fresh)
    = inr (Some "Chapter B",
           ["first paragraph of B"; "second paragraph of B"], None).
Proof. by vm_compute. Qed.

(** ** The chain walker *)

Section walker.
Import Crawler.

Lemma loop_guard_Some l url :
  loop_guard l = Some url →
  current_url l = Some url ∧ (consecutive_failures l < 5)%nat.
Proof.
  unfold loop_guard. destruct (current_url l) as [u|]; [|done].
  destruct (PyStr.truthy u); [|done]. simpl.
  case_bool_decide; [|done]. by intros [= ->].
Qed.

Lemma loop_guard_budget_spent l :
  (5 ≤ consecutive_failures l)%nat → loop_guard l = None.
Proof.
  intros H. unfold loop_guard. destruct (current_url l) as [u|]; [|done].
  rewrite bool_decide_false by lia. by rewrite andb_false_r.
Qed.

(** What a pass does to the failure counter. *)
Lemma loop_body_counter w url l st l' st' :
  loop_body w url l st = (Continue l', st') →
  consecutive_failures l' = 0%nat
  ∨ consecutive_failures l' = S (consecutive_failures l).
Proof.
  unfold loop_body. unfold mbind at 1. unfold M_bind.
  destruct (crawl_complete_chapter_async w url (chapter_num l) st)
    as [[e|[[title content] next]] st1].
  - destruct (is_Exception e); [|done].
    unfold on_exception. destruct (next_chapter_url l); [|done].
    unfold mbind, M_bind, sleep, emit, mret, M_ret.
    intros [= <- <-]. by right.
  - destruct content as [|p content].
    + unfold mbind, M_bind. case_decide;
        unfold sleep, emit, mret, M_ret; intros [= <- <-]; by right.
    + unfold mbind at 1. unfold M_bind.
      destruct (_ : M unit) as [[] st2].
      unfold mret, M_ret. destruct (truthy_url next); [|done].
      intros [= <- <-]. by left.
Qed.

Lemma reachable_budget w start_url l st :
  reachable w start_url l st → (consecutive_failures l ≤ 5)%nat.
Proof.
  induction 1 as [st|l st url l' st' _ IH Hguard Hbody]; simpl; [lia|].
  apply loop_guard_Some in Hguard as [_ Hlt].
  apply loop_body_counter in Hbody as [->| ->]; lia.
Qed.

(** A loop that ends on its condition ends in a reachable state. *)
Lemma while_loop_reachable w start_url fuel :
  ∀ l st l' st',
    reachable w start_url l st →
    while_loop w fuel l st = ((GuardFalse, l'), st') →
    reachable w start_url l' st'.
Proof.
  induction fuel as [|fuel IH]; intros l st l' st' Hreach Hrun.
  - simpl in Hrun. destruct (loop_guard l); [done|].
    by injection Hrun as <- <-.
  - simpl in Hrun. destruct (loop_guard l) as [url|] eqn:Hguard;
      [|by injection Hrun as <- <-].
    unfold mbind, M_bind in Hrun.
    destruct (loop_body w url l st) as [[l1|l1|l1|e] st1] eqn:Hbody;
      try done.
    eapply IH; [|exact Hrun]. by eapply reachable_pass.
Qed.

(** A pass over a non-empty chapter. *)
Lemma loop_body_nonempty w url l st title p content next st1 :
  crawl_complete_chapter_async w url (chapter_num l) st
  = (inr (title, p :: content, next), st1) →
  let l' := {| current_url := next; chapter_num := S (chapter_num l);
               consecutive_failures := 0; next_chapter_url := Some next |} in
  ∃ st', loop_body w url l st
         = (if truthy_url next then Continue l' else BreakLastChapter l',
            st').
Proof.
  intros Hrun l'. unfold loop_body. unfold mbind at 1. unfold M_bind.
  rewrite Hrun. unfold mbind at 1.
  destruct (_ : M unit) as [[] st2]. unfold mret, M_ret. eauto.
Qed.

(** An exception on the first chapter leaves the method, whatever the
    site. *)
Lemma exception_on_first_chapter_escapes w fuel start_url st e :
  domain_available w = true → output_file_opens w = true →
  PyStr.truthy start_url = true →
  node_raises w 1 = Some e → is_Exception e = true →
  fst (crawl_novel_from_chapter_async w (S fuel) start_url st)
  = Failed (UnboundLocalError "next_chapter_url").
Proof.
  intros Hdomain Hfile Hurl Hraise He.
  unfold crawl_novel_from_chapter_async. rewrite Hdomain, Hfile. simpl.
  unfold traverse, mbind, M_bind, modify_self. simpl.
  unfold loop_guard. simpl. rewrite Hurl. simpl.
  unfold mbind, M_bind, loop_body. simpl.
  unfold crawl_complete_chapter_async. simpl. rewrite Hraise.
  unfold mbind, M_bind, mret, M_ret. by rewrite He.
Qed.

End walker.

(** C3.  In every state the walker can stand in at the head of its loop
    the failure counter is at most 5.  A pass of the loop, and with it a
    fetch, starts only while the counter is below 5.  When the counter
    stands at 5 the loop ends at once, with the state as it was, so no
    further request is sent, and the traversal is aborted.  A pass that
    assembles a non-empty chapter leaves the counter at 0. *)
Theorem failure_budget_aborts_traversal
    (w : Crawler.world) (start_url : string)
    (l : Crawler.locals) (st : Crawler.state) :
  Crawler.reachable w start_url l st →
  (Crawler.consecutive_failures l ≤ 5)%nat
  ∧ (∀ url, Crawler.loop_guard l = Some url →
       (Crawler.consecutive_failures l < 5)%nat)
  ∧ (Crawler.consecutive_failures l = 5%nat →
       ∀ fuel,
         Crawler.while_loop w fuel l st = ((Crawler.GuardFalse, l), st)
         ∧ Crawler.outcome_of Crawler.GuardFalse l = Crawler.Aborted)
  ∧ (∀ url title content next st1,
       Crawler.crawl_complete_chapter_async w url (Crawler.chapter_num l) st
       = (inr (title, content, next), st1) →
       content ≠ [] →
       ∃ l' st',
         (Crawler.loop_body w url l st = (Crawler.Continue l', st')
          ∨ Crawler.loop_body w url l st = (Crawler.BreakLastChapter l', st'))
         ∧ Crawler.consecutive_failures l' = 0%nat).
Proof.
  intros Hreach. split; [by eapply reachable_budget|].
  split; [intros url Hguard; by apply loop_guard_Some in Hguard as [_ ?]|].
  split.
  - intros H5 fuel. split.
    + destruct fuel; simpl; by rewrite loop_guard_budget_spent by lia.
    + simpl. by rewrite bool_decide_true by lia.
  - intros url title content next st1 Hrun Hne.
    destruct content as [|p content]; [done|].
    destruct (loop_body_nonempty _ _ l _ _ _ _ _ _ Hrun) as [st' ->].
    destruct (Crawler.truthy_url next); eexists _, _;
      (split; [first [by left|by right]|reflexivity]).
Qed.

(** A state is reachable in [n] passes from the start with state [st]. *)
Ltac passes n st :=
  lazymatch n with
  | O => apply (Crawler.reachable_start _ _ st)
  | S ?k =>
      eapply Crawler.reachable_pass;
      [passes k st | vm_compute; reflexivity | vm_compute; reflexivity]
  end.

Lemma failure_budget_aborts_traversal_witness :
  let end_of_run :=
    Crawler.while_loop (Scenario.static_site Scenario.stubs) 5
      (Crawler.initial_locals Scenario.url_a) Scenario.fresh in
  Crawler.consecutive_failures (snd (fst end_of_run)) = 5%nat
  ∧ Crawler.while_loop (Scenario.static_site Scenario.stubs) 3
      (snd (fst end_of_run)) (snd end_of_run)
    = ((Crawler.GuardFalse, snd (fst end_of_run)), snd end_of_run).
Proof.
  intros end_of_run. split; [by vm_compute|].
  refine (proj1 (proj1 (proj2 (proj2 (failure_budget_aborts_traversal
    (Scenario.static_site Scenario.stubs) Scenario.url_a
    (snd (fst end_of_run)) (snd end_of_run) _))) _ 3%nat)).
  - passes 5%nat Scenario.fresh.
  - by vm_compute.
Defined.

(** C4.  The result of the orchestrator does not tell how the chain
    ended.  Once the domain is available and the output file has been
    opened, the method returns [True] whether the traversal terminated
    or was aborted on the failure budget; it returns [False] only when
    one of the two preparations fails, before any chapter is visited. *)
Theorem result_is_true_once_prepared
    (w : Crawler.world) (fuel : nat) (start_url : string)
    (st st' : Crawler.state) (exit : Crawler.loop_exit) (l : Crawler.locals) :
  Crawler.traverse w fuel start_url st = ((exit, l), st') →
  (Crawler.domain_available w && Crawler.output_file_opens w = true →
     Crawler.outcome_of exit l = Crawler.Terminated
     ∨ Crawler.outcome_of exit l = Crawler.Aborted →
     Crawler.crawl_novel_from_chapter_async w fuel start_url st
     = (Crawler.Returned true, st'))
  ∧ (Crawler.domain_available w && Crawler.output_file_opens w = false →
     Crawler.crawl_novel_from_chapter_async w fuel start_url st
     = (Crawler.Returned false, st))
  ∧ (fst (Crawler.crawl_novel_from_chapter_async w fuel start_url st)
     = Crawler.Returned false →
     Crawler.domain_available w && Crawler.output_file_opens w = false).
Proof.
  intros Hrun. unfold Crawler.crawl_novel_from_chapter_async. split_and!.
  - intros [-> ->]%andb_true_iff Hout. simpl.
    unfold mbind, Crawler.M_bind. rewrite Hrun. unfold mret, Crawler.M_ret.
    destruct exit; try done; simpl in Hout; naive_solver.
  - intros [-> | ->]%andb_false_iff; simpl; [done|].
    by destruct (Crawler.domain_available w).
  - destruct (Crawler.domain_available w); [|done].
    destruct (Crawler.output_file_opens w); [|done]. simpl.
    unfold mbind, Crawler.M_bind. rewrite Hrun. unfold mret, Crawler.M_ret.
    by destruct exit.
Qed.

Lemma result_is_true_once_prepared_witness :
  fst (Crawler.crawl_novel_from_chapter_async
         (Scenario.static_site Scenario.two_chapters) 10 Scenario.url_a
         Scenario.fresh)
  = Crawler.Returned true.
Proof.
  destruct (Crawler.traverse (Scenario.static_site Scenario.two_chapters) 10
              Scenario.url_a Scenario.fresh) as [[exit l] st'] eqn:Hrun.
  destruct (result_is_true_once_prepared _ _ _ _ _ _ _ Hrun) as [H _].
  rewrite H; [reflexivity|reflexivity|]. left.
  vm_compute in Hrun. by injection Hrun as <- <- _.
Defined.

(** The claim C4 does not hold: on a site of stub pages the traversal
    spends its failure budget and is aborted, and the method returns
    [True]. *)
Lemma aborted_run_reports_success :
  let run := Crawler.traverse (Scenario.static_site Scenario.stubs) 10
               Scenario.url_a Scenario.fresh in
  Crawler.consecutive_failures (snd (fst run)) = 5%nat
  ∧ Crawler.outcome_of (fst (fst run)) (snd (fst run)) = Crawler.Aborted
  ∧ fst (Crawler.crawl_novel_from_chapter_async
           (Scenario.static_site Scenario.stubs) 10 Scenario.url_a
           Scenario.fresh)
    = Crawler.Returned true.
Proof. by vm_compute. Qed.

(** C10.  An exception raised by the first chapter of a run is not
    handled like an empty chapter: the handler reads [next_chapter_url],
    which is still unbound, and the [UnboundLocalError] leaves the loop
    and the method, whatever the fuel.  On a later chapter the handler
    finds the pointer the previous chapter left, which is the URL that
    has just failed, and the walker visits that URL again. *)
Theorem first_chapter_exception_escapes :
  (∀ fuel,
     fst (Crawler.crawl_novel_from_chapter_async Scenario.broken_pipe
            (S fuel) Scenario.url_a Scenario.fresh)
     = Crawler.Failed (Crawler.UnboundLocalError "next_chapter_url"))
  ∧ (let run := Crawler.traverse Scenario.broken_pipe_later 2 Scenario.url_a
                  Scenario.fresh in
     Crawler.current_url (snd (fst run)) = Some Scenario.url_b
     ∧ Crawler.chapter_num (snd (fst run)) = 3%nat
     ∧ Crawler.consecutive_failures (snd (fst run)) = 1%nat
     ∧ Crawler.requests Scenario.url_b (Crawler.trace (snd run)) = 0%nat).
Proof.
  split; [|by vm_compute].
  intros fuel. reflexivity.
Qed.

(** ** Page numbers *)

Section regex.
Import PyStr Re Crawler.

Lemma skipn_in_run p s k :
  (k < run_length p s)%nat → ∃ c r, skipn k s = String c r ∧ p c = true.
Proof.
  revert k. induction s as [|c s IH]; intros k Hk; simpl in Hk; [lia|].
  destruct (p c) eqn:Hc; [|lia].
  destruct k as [|k]; simpl; [eauto|]. apply IH. lia.
Qed.

Lemma longest_first_S k rest capture s :
  longest_first (S k) rest capture s
  = match rest (skipn (S k) s) with
    | Some (g, r) => Some (if capture then firstn (S k) s else g, r)
    | None => longest_first k rest capture s
    end.
Proof. done. Qed.

Lemma longest_first_hit k rest s :
  (0 < k)%nat → is_Some (rest (skipn k s)) →
  fst <$> longest_first k rest true s = Some (firstn k s).
Proof.
  intros Hk [[g r] Hr]. destruct k as [|k]; [lia|].
  rewrite longest_first_S. by rewrite Hr.
Qed.

Lemma longest_first_miss k rest capture s :
  (∀ j, (1 ≤ j ≤ k)%nat → rest (skipn j s) = None) →
  longest_first k rest capture s = None.
Proof.
  induction k as [|k IH]; intros Hmiss; [done|].
  rewrite longest_first_S. rewrite Hmiss by lia. apply IH.
  intros j Hj. apply Hmiss. lia.
Qed.

Lemma follows_nil : follows [] "".
Proof. split; [|by left]. intros s. by destruct s. Qed.

Lemma match_opt_Some c s : match_here [Opt c] s ≠ None.
Proof.
  simpl. destruct s as [|c' s]; [done|]. by destruct (Ascii.eqb c c').
Qed.

Lemma follows_opt c : follows [Opt c] "".
Proof.
  split; [|by left]. intros s. split.
  - intros H. by apply match_opt_Some in H.
  - by destruct s.
Qed.

Lemma follows_htm : follows [Lit ".htm"; Opt "l"] ".htm".
Proof.
  split.
  - intros s. unfold startswith.
    change (match_here [Lit ".htm"; Opt "l"] s)
      with (match strip_prefix ".htm" s with
            | Some s' => match_here [Opt "l"] s'
            | None => None
            end).
    destruct (strip_prefix ".htm" s) as [s'|]; [|done].
    split; [intros H; by apply match_opt_Some in H|done].
  - right. intros c s Hc. unfold startswith.
    change (strip_prefix ".htm" (String c s))
      with (if Ascii.eqb "." c then strip_prefix "htm" s else None).
    destruct (Ascii.eqb_spec "." c) as [<-|]; [by vm_compute in Hc|done].
Qed.

Lemma number_at_start tail s :
  number_at "" tail s
  = if bool_decide (0 < run_length is_digit s)%nat
       && startswith (skipn (run_length is_digit s) s) tail
    then Some (firstn (run_length is_digit s) s) else None.
Proof. done. Qed.

Lemma match_here_digits rest tail s :
  follows rest tail →
  fst <$> match_here (digits :: rest) s = number_at "" tail s.
Proof.
  intros [Hrest Htail]. rewrite number_at_start.
  change (match_here (digits :: rest) s)
    with (longest_first (run_length is_digit s) (match_here rest) true s).
  set (n := run_length is_digit s).
  destruct (bool_decide_reflect (0 < n)%nat) as [Hn|Hn]; simpl.
  - destruct (startswith (skipn n s) tail) eqn:Hs.
    + apply longest_first_hit; [done|].
      destruct (match_here rest (skipn n s)) eqn:Hm; [done|].
      apply Hrest in Hm. congruence.
    + rewrite longest_first_miss; [done|]. intros j Hj. apply Hrest.
      destruct (decide (j = n)) as [->|Hjn]; [done|].
      destruct Htail as [->|Htail]; [by destruct (skipn n s)|].
      destruct (skipn_in_run is_digit s j) as (c & r & -> & Hc);
        [unfold n in *; lia|].
      by apply Htail.
  - rewrite longest_first_miss; [done|]. intros j Hj. lia.
Qed.

Lemma match_here_marker marker rest tail s :
  follows rest tail →
  fst <$> match_here (Lit marker :: digits :: rest) s
  = number_at marker tail s.
Proof.
  intros Hf. unfold number_at.
  change (match_here (Lit marker :: digits :: rest) s)
    with (match strip_prefix marker s with
          | Some s' => match_here (digits :: rest) s'
          | None => None
          end).
  destruct (strip_prefix marker s) as [r|]; [|done].
  by rewrite (match_here_digits rest tail r Hf).
Qed.

Lemma search_find re marker tail :
  (∀ s, fst <$> match_here re s = number_at marker tail s) →
  ∀ s, search re s = find_number marker tail s.
Proof.
  intros Hre s. induction s as [|c s IH]; simpl;
    rewrite <-Hre; destruct (match_here re _) as [[g r]|]; done.
Qed.

(** The five patterns of the first method, and the one applied to the
    fragment, find what a plain scan finds. *)
Lemma first_match_by_scan url :
  first_match path_patterns url
  = first_some [ find_number "/page/" "" url;
                 find_number "/" ".htm" url;
                 find_number "/p" ".htm" url;
                 find_number "page=" "" url;
                 find_number "p=" "" url ].
Proof.
  unfold path_patterns, first_match, first_some.
  rewrite (search_find _ "/page/" "")
    by (intros; apply match_here_marker, follows_opt).
  rewrite (search_find _ "/" ".htm")
    by (intros; apply match_here_marker, follows_htm).
  rewrite (search_find _ "/p" ".htm")
    by (intros; apply match_here_marker, follows_htm).
  rewrite (search_find _ "page=" "")
    by (intros; apply match_here_marker, follows_nil).
  rewrite (search_find _ "p=" "")
    by (intros; apply match_here_marker, follows_nil).
  done.
Qed.

Lemma search_digits_by_scan s :
  search [digits] s = find_number "" "" s.
Proof.
  apply search_find. intros. apply match_here_digits, follows_nil.
Qed.

End regex.

Section numbers.
Import PyStr Crawler.

Lemma digit_not_space c : is_digit c = true → is_space c = false.
Proof.
  unfold is_digit, is_space. intros [H1 H2]%andb_true_iff.
  apply N.leb_le in H1, H2.
  apply orb_false_iff. split; apply andb_false_iff.
  - right. apply N.leb_gt. lia.
  - right. apply N.leb_gt. lia.
Qed.

Lemma rstrip_digits g : UrlLib.all_chars is_digit g = true → rstrip g = g.
Proof.
  induction g as [|c g IH]; [done|]. simpl.
  intros [Hc Hg]%andb_true_iff. rewrite (IH Hg).
  destruct g; [|done]. by rewrite (digit_not_space c Hc).
Qed.

Lemma strip_digits g : UrlLib.all_chars is_digit g = true → strip g = g.
Proof.
  intros Hg. unfold strip.
  destruct g as [|c g]; [done|]. simpl in *.
  apply andb_true_iff in Hg as [Hc Hg].
  rewrite (digit_not_space c Hc).
  apply (rstrip_digits (String c g)). simpl. by rewrite Hc, Hg.
Qed.

Lemma int_digits_decimal g :
  UrlLib.all_chars is_digit g = true →
  ∀ after_digit acc,
    after_digit = true ∨ g ≠ EmptyString →
    int_digits after_digit acc g = Some (decimal acc g).
Proof.
  induction g as [|c g IH]; intros Hg after_digit acc Hne.
  - destruct Hne as [->|]; done.
  - simpl in *. apply andb_true_iff in Hg as [Hc Hg].
    rewrite Hc. apply IH; [done|by left].
Qed.

(** [int] of a string of digits is its decimal value. *)
Lemma int_digit_string g :
  UrlLib.all_chars is_digit g = true → g ≠ EmptyString →
  int g = Some (decimal 0 g).
Proof.
  intros Hg Hne. unfold int. rewrite (strip_digits g Hg).
  destruct g as [|c g]; [done|].
  assert (Hc : is_digit c = true).
  { simpl in Hg. by apply andb_true_iff in Hg as [? _]. }
  assert (int_digits false 0 (String c g) = Some (decimal 0 (String c g)))
    as Hint by (apply int_digits_decimal; [done|by right]).
  destruct c as [[] [] [] [] [] [] [] []]; try done;
    by vm_compute in Hc.
Qed.

Lemma firstn_run p s :
  UrlLib.all_chars p (firstn (run_length p s) s) = true.
Proof.
  induction s as [|c s IH]; [done|]. simpl.
  destruct (p c) eqn:Hc; [|done]. simpl. by rewrite Hc, IH.
Qed.

Lemma number_at_digits marker tail s g :
  number_at marker tail s = Some g →
  UrlLib.all_chars is_digit g = true ∧ g ≠ EmptyString.
Proof.
  unfold number_at. destruct (strip_prefix marker s) as [r|]; [|done].
  destruct (bool_decide_reflect (0 < run_length is_digit r)%nat) as [Hn|];
    [|done].
  simpl. destruct (startswith _ tail); [|done].
  intros [= <-]. split; [apply firstn_run|].
  destruct r as [|c r]; simpl in *; [lia|].
  destruct (is_digit c); [done|lia].
Qed.

Lemma find_number_digits marker tail s g :
  find_number marker tail s = Some g →
  UrlLib.all_chars is_digit g = true ∧ g ≠ EmptyString.
Proof.
  induction s as [|c s IH]; simpl;
    destruct (number_at marker tail _) eqn:Hn; try done;
    intros [= <-]; by eapply number_at_digits.
Qed.

Lemma find_number_int marker tail s g :
  find_number marker tail s = Some g → int g = Some (decimal 0 g).
Proof.
  intros [??]%find_number_digits. by apply int_digit_string.
Qed.

Lemma first_some_elem_of {A} (l : list (option A)) x :
  first_some l = Some x → Some x ∈ l.
Proof.
  induction l as [|[y|] l IH]; simpl; [done| |].
  - intros [= ->]. by left.
  - intros H. right. by apply IH.
Qed.

(** What the code extracts, for every URL: the five patterns of the
    first method are looked for in the whole text of the URL, in their
    order, before the query is parsed. *)
Lemma extract_page_number_by_scan url :
  _extract_page_number url = page_number_by_scan url.
Proof.
  unfold _extract_page_number, page_number_of, page_number_by_scan.
  rewrite first_match_by_scan.
  destruct (first_some _) as [g|] eqn:Hfirst.
  - apply first_some_elem_of in Hfirst.
    assert (int g = Some (decimal 0 g)) as ->; [|done].
    repeat (apply elem_of_cons in Hfirst as [Hfirst|Hfirst];
            [symmetry in Hfirst; by eapply find_number_int|]).
    by apply elem_of_nil in Hfirst.
  - destruct (UrlLib.urlsplit url) as [parsed_url|]; [|done].
    cbn [mbind option_bind].
    destruct (first_int_param ["page"; "p"; "paged"]
                (UrlLib.parse_qsl (UrlLib.query parsed_url))) as [n|];
      [done|].
    rewrite search_digits_by_scan.
    destruct (UrlLib.fragment parsed_url) as [|c f] eqn:Hf; [done|].
    cbn [truthy].
    destruct (find_number "" "" (String c f)) as [g|] eqn:Hg; [|done].
    by rewrite (find_number_int _ _ _ _ Hg).
Qed.

Lemma sorted_no_inversion {A} (key : A → Z) l1 v l2 u :
  StronglySorted (key_le key) (l1 ++ v :: l2) → u ∈ l2 → key v ≤ key u.
Proof.
  intros Hs Hu. apply StronglySorted_app_1_r in Hs.
  apply StronglySorted_inv in Hs as [_ Hv].
  rewrite Forall_forall in Hv. by apply Hv.
Qed.

(** In the sorted list no URL with page number 0 comes after a URL with
    a positive one. *)
Lemma zero_page_sorts_first url v urls l1 l2 :
  _extract_page_number url = 0 →
  0 < _extract_page_number v →
  _sort_pagination_urls urls = l1 ++ v :: l2 →
  url ∉ l2.
Proof.
  intros Hzero Hpos Hsorted Hin.
  pose proof (sort_by_sorted _extract_page_number urls) as Hs.
  rewrite <-sort_pagination_urls_sort_by, Hsorted in Hs.
  pose proof (sorted_no_inversion _ _ _ _ _ Hs Hin). lia.
Qed.

End numbers.

(** C7.  The page number is not always fixed by the rules of the claim,
    which are those of the comments of [_extract_page_number]: a numeric
    path segment, then a query parameter [page], [p] or [paged], then the
    fragment, else 0.  This URL has no digit in its path, no parameter of
    these names and no fragment, so the rules give 0; the number
    extracted is 3, found by the pattern [p=(\d+)] at the end of
    [step=3]. *)
Theorem parameter_suffix_is_taken_for_page :
  let url := "http://h/a?step=3" in
  Crawler.first_match (take 3 Crawler.path_patterns) url = None
  ∧ (∃ parsed_url,
       UrlLib.urlsplit url = Some parsed_url
       ∧ UrlLib.parse_qsl (UrlLib.query parsed_url) = [("step", "3")]
       ∧ UrlLib.fragment parsed_url = EmptyString)
  ∧ Crawler.page_number_as_specified url = 0
  ∧ Crawler._extract_page_number url = 3.
Proof.
  repeat split. eexists. repeat split.
Qed.

(** * Further properties of the crawler *)

(** ** What the methods keep *)

Section keeps.
Import Crawler Session.
Context (P : state → Prop).

Lemma keeps_ret {A} (x : A) : keeps P (mret x).
Proof. intros st r st' HP [= _ <-]. done. Qed.

Lemma keeps_bind {A B} (m : M A) (f : A → M B) :
  keeps P m → (∀ x, keeps P (f x)) → keeps P (m ≫= f).
Proof.
  intros Hm Hf st r st' HP Hrun. unfold mbind, M_bind in Hrun.
  destruct (m st) as [x st1] eqn:Hx.
  eapply Hf; [|exact Hrun]. by eapply Hm.
Qed.

Lemma keeps_get_self : keeps P get_self.
Proof. intros st r st' HP [= _ <-]. done. Qed.

Lemma keeps_get_trace : keeps P get_trace.
Proof. intros st r st' HP [= _ <-]. done. Qed.

Context (HP : kept_by_chapter P).

Lemma keeps_sleep d : keeps P (sleep d).
Proof.
  destruct HP as (_ & Hsleep & _).
  intros st r st' Hst [= _ <-]. by apply Hsleep.
Qed.

Lemma keeps_session_get w url : keeps P (session_get w url).
Proof.
  destruct HP as (Hget & _).
  intros st r st' Hst [= _ <-]. by apply (Hget st url).
Qed.

Lemma keeps_fetch_attempts w url remaining :
  ∀ attempt, keeps P (fetch_attempts w url attempt remaining).
Proof.
  assert (Hafter : keeps P
            (modify_self (λ c, set_failed_urls ({[url]} ∪ failed_urls c) c)
             ≫= λ _, mret (@None html))).
  { destruct HP as (_ & _ & _ & Hfail & _).
    intros st r st' Hst [= _ <-]. by apply Hfail. }
  induction remaining as [|remaining IH]; intros attempt; [exact Hafter|].
  simpl. apply keeps_bind; [apply keeps_session_get|].
  assert (Hbackoff : ∀ d, keeps P
            (get_self ≫= λ c,
               (if decide (attempt < retry_count c - 1)%nat
                then sleep d else mret ())
               ≫= λ _, fetch_attempts w url (S attempt) remaining)).
  { intros d. apply keeps_bind; [apply keeps_get_self|]. intros c.
    apply keeps_bind; [|intros; apply IH].
    case_decide; [apply keeps_sleep|apply keeps_ret]. }
  intros [status body elapsed| | | |]; try apply Hbackoff.
  destruct (status =? 200)%Z.
  { destruct HP as (_ & _ & Htime & _).
    intros st r st' Hst [= _ <-]. by apply Htime. }
  destruct (status =? 403)%Z.
  { apply keeps_bind; [apply keeps_sleep|intros; apply IH]. }
  destruct (status =? 404)%Z; [exact Hafter|apply IH].
Qed.

Lemma keeps_fetch_with_retry w url : keeps P (fetch_with_retry w url).
Proof.
  apply keeps_bind; [apply keeps_get_self|].
  intros c. apply keeps_fetch_attempts.
Qed.

Lemma keeps_extract_page_content w url : keeps P (extract_page_content w url).
Proof.
  apply keeps_bind; [apply keeps_fetch_with_retry|].
  intros [page|]; [|apply keeps_ret].
  destruct (no_content (Some page)); [apply keeps_ret|].
  apply keeps_bind; [apply keeps_get_self|]. intros c. cbv zeta.
  destruct (find_blurstxt (html_soup page)) as [[|]|]; apply keeps_ret.
Qed.

Lemma keeps_get_pagination_links w url : keeps P (get_pagination_links w url).
Proof.
  apply keeps_bind; [apply keeps_fetch_with_retry|].
  intros [page|]; [|apply keeps_ret].
  destruct (no_content (Some page)); [apply keeps_ret|].
  apply keeps_bind; [apply keeps_get_self|]. intros c. apply keeps_ret.
Qed.

Lemma keeps_crawl_pages w n links :
  ∀ i buffer, keeps P (crawl_pages w n i links buffer).
Proof.
  induction links as [|page_url links IH]; intros i buffer; [apply keeps_ret|].
  simpl. apply keeps_bind; [apply keeps_extract_page_content|].
  intros [[pc ?] ?]. apply keeps_bind; [|intros; apply IH].
  case_decide; [apply keeps_sleep|apply keeps_ret].
Qed.

Lemma keeps_adaptive_delay w : keeps P (adaptive_delay w).
Proof.
  destruct HP as (_ & _ & _ & _ & Hdelay).
  intros st r st' Hst. unfold adaptive_delay.
  unfold mbind, M_bind, get_trace, get_self, modify_self, mret, M_ret.
  destruct (_calculate_adaptive_delay _ _) as [d c'] eqn:Hd.
  intros [= _ <-].
  specialize (Hdelay st (arith w) (random_random w (trace st)) Hst).
  unfold with_self in *. by rewrite Hd in Hdelay.
Qed.

Lemma keeps_crawl_complete_chapter_async w url n :
  keeps P (crawl_complete_chapter_async w url n).
Proof.
  unfold crawl_complete_chapter_async.
  destruct (node_raises w n); [apply keeps_ret|].
  apply keeps_bind; [apply keeps_extract_page_content|].
  intros [[main next] title].
  apply keeps_bind; [apply keeps_get_pagination_links|]. intros links.
  cbv zeta. apply keeps_bind.
  - destruct links; [apply keeps_ret|].
    apply keeps_bind; [apply keeps_crawl_pages|intros; apply keeps_ret].
  - intros content. apply keeps_bind; [apply keeps_adaptive_delay|].
    intros d. apply keeps_bind; [apply keeps_sleep|intros; apply keeps_ret].
Qed.

End keeps.

Section keeps_traversal.
Import Crawler Session.
Context (P : state → Prop) (HP : kept_by_traversal P).

Lemma keeps_loop_body w url l : keeps P (loop_body w url l).
Proof.
  destruct HP as (Hchapter & Hsaved & Hcounters).
  unfold loop_body. apply keeps_bind;
    [by apply keeps_crawl_complete_chapter_async|].
  intros [e|[[title content] next]].
  - destruct (is_Exception e); [|apply keeps_ret].
    unfold on_exception. destruct (next_chapter_url l); [|apply keeps_ret].
    apply keeps_bind; [by apply keeps_sleep|intros; apply keeps_ret].
  - destruct content as [|p content].
    + apply keeps_bind; [|intros; apply keeps_ret].
      case_decide; [by apply keeps_sleep|apply keeps_ret].
    + apply keeps_bind; [|intros; apply keeps_ret].
      destruct (file_append_ok w _); [|apply keeps_ret].
      intros st r st' Hst [= _ <-].
      apply (Hcounters (snd (emit (Saved (chapter_num l) title (p :: content)) st))).
      by apply Hsaved.
Qed.

Lemma keeps_while_loop w fuel : ∀ l, keeps P (while_loop w fuel l).
Proof.
  induction fuel as [|fuel IH]; intros l; simpl;
    destruct (loop_guard l); try apply keeps_ret.
  apply keeps_bind; [apply keeps_loop_body|].
  intros [l'|l'|l'|e]; try apply keeps_ret. apply IH.
Qed.

Lemma keeps_traverse w fuel start_url : keeps P (traverse w fuel start_url).
Proof.
  unfold traverse. apply keeps_bind; [|intros; apply keeps_while_loop].
  destruct HP as (_ & _ & Hcounters).
  intros st r st' Hst [= _ <-]. by apply Hcounters.
Qed.

Lemma keeps_crawl_novel w fuel start_url :
  keeps P (crawl_novel_from_chapter_async w fuel start_url).
Proof.
  unfold crawl_novel_from_chapter_async.
  destruct (negb _); [apply keeps_ret|].
  destruct (negb _); [apply keeps_ret|].
  apply keeps_bind; [apply keeps_traverse|]. intros [exit l]. apply keeps_ret.
Qed.

End keeps_traversal.

(** ** What a run leaves of the crawler *)

Section controller.
Import Crawler.

(** The rate controller changes nothing of the crawler but the load
    factor. *)
Lemma calculate_adaptive_delay_self fa u c :
  (_calculate_adaptive_delay fa u c).2 = c
  ∨ ∃ f, f ∈ [(3 # 2)%Q; 2%Q; (5 # 2)%Q; 3%Q]
         ∧ (_calculate_adaptive_delay fa u c).2 = set_server_load_factor f c.
Proof.
  unfold _calculate_adaptive_delay.
  destruct (response_times c) as [|t times]; [by left|right].
  eexists. split; [|reflexivity].
  destruct (load_factor_for_cases
              (PyFloat.fdiv fa (PyFloat.fsum fa (last_n 10 (t :: times)))
                 (inject_Z (Z.of_nat (length (last_n 10 (t :: times)))))))
    as [[_ ->]|[(_ & _ & ->)|[(_ & _ & ->)|[_ ->]]]]; set_solver.
Qed.

End controller.

(** The latency window never holds more than 50 response times: a run
    that starts with at most 50 of them ends with at most 50, however
    many requests were answered. *)
Theorem latency_window_stays_bounded
    (w : Crawler.world) (fuel : nat) (start_url : string) (st : Crawler.state) :
  (length (Crawler.response_times (Crawler.self st)) ≤ 50)%nat →
  (length (Crawler.response_times (Crawler.self
     (snd (Crawler.crawl_novel_from_chapter_async w fuel start_url st))))
   ≤ 50)%nat.
Proof.
  intros Hst.
  eapply (keeps_crawl_novel
            (λ s, (length (Crawler.response_times (Crawler.self s)) ≤ 50)%nat));
    [|exact Hst|apply surjective_pairing].
  unfold Session.kept_by_traversal, Session.kept_by_chapter.
  split_and!; try (intros; simpl; done).
  - intros s t _. simpl. case_decide; [|lia].
    rewrite last_n_length. lia.
  - intros s fa u Hs. simpl.
    by destruct (calculate_adaptive_delay_self fa u (Crawler.self s))
      as [->|(f & _ & ->)].
Qed.

Lemma latency_window_stays_bounded_witness :
  (length (Crawler.response_times (Crawler.self
     (snd (Crawler.crawl_novel_from_chapter_async
             (Scenario.static_site Scenario.two_chapters) 10 Scenario.url_a
             Scenario.fresh))))
   ≤ 50)%nat.
Proof.
  apply (latency_window_stays_bounded
           (Scenario.static_site Scenario.two_chapters) 10 Scenario.url_a
           Scenario.fresh).
  simpl. lia.
Defined.

(** A run never changes what the crawler was configured with: the base
    URL, the concurrency limit, the base delay and the number of attempts
    are after the run what they were before it. *)
Theorem run_keeps_configuration
    (w : Crawler.world) (fuel : nat) (start_url : string) (st : Crawler.state) :
  let c := Crawler.self st in
  let c' := Crawler.self
              (snd (Crawler.crawl_novel_from_chapter_async w fuel start_url st)) in
  Crawler.base_url c' = Crawler.base_url c
  ∧ Crawler.concurrent_limit c' = Crawler.concurrent_limit c
  ∧ Crawler.base_delay c' = Crawler.base_delay c
  ∧ Crawler.retry_count c' = Crawler.retry_count c.
Proof.
  eapply (keeps_crawl_novel
            (λ s, Crawler.base_url (Crawler.self s)
                  = Crawler.base_url (Crawler.self st)
                  ∧ Crawler.concurrent_limit (Crawler.self s)
                    = Crawler.concurrent_limit (Crawler.self st)
                  ∧ Crawler.base_delay (Crawler.self s)
                    = Crawler.base_delay (Crawler.self st)
                  ∧ Crawler.retry_count (Crawler.self s)
                    = Crawler.retry_count (Crawler.self st)));
    [|done|apply surjective_pairing].
  unfold Session.kept_by_traversal, Session.kept_by_chapter.
  split_and!; try (intros; simpl; naive_solver).
  intros s fa u Hs; simpl.
  destruct (calculate_adaptive_delay_self fa u (Crawler.self s))
    as [->|(f & _ & ->)]; simpl; naive_solver.
Qed.

(** The set of failed URLs only grows during a run: every URL recorded
    as failed before the run is still recorded after it. *)
Theorem failed_urls_only_grow
    (w : Crawler.world) (fuel : nat) (start_url : string) (st : Crawler.state) :
  Crawler.failed_urls (Crawler.self st)
  ⊆ Crawler.failed_urls (Crawler.self
      (snd (Crawler.crawl_novel_from_chapter_async w fuel start_url st))).
Proof.
  eapply (keeps_crawl_novel
            (λ s, Crawler.failed_urls (Crawler.self st)
                  ⊆ Crawler.failed_urls (Crawler.self s)));
    [|done|apply surjective_pairing].
  unfold Session.kept_by_traversal, Session.kept_by_chapter.
  split_and!; try (intros; simpl; done).
  - intros s url Hs. simpl. set_solver.
  - intros s fa u Hs. simpl.
    by destruct (calculate_adaptive_delay_self fa u (Crawler.self s))
      as [->|(f & _ & ->)].
Qed.

(** The load factor takes five values only: a crawler whose load factor
    is 1, 1.5, 2, 2.5 or 3, as it is 1 after construction, has one of
    these at the end of a run. *)
Theorem load_factor_takes_five_values
    (w : Crawler.world) (fuel : nat) (start_url : string) (st : Crawler.state) :
  Crawler.server_load_factor (Crawler.self st)
    ∈ [1%Q; (3 # 2)%Q; 2%Q; (5 # 2)%Q; 3%Q] →
  Crawler.server_load_factor (Crawler.self
    (snd (Crawler.crawl_novel_from_chapter_async w fuel start_url st)))
    ∈ [1%Q; (3 # 2)%Q; 2%Q; (5 # 2)%Q; 3%Q].
Proof.
  intros Hst.
  eapply (keeps_crawl_novel
            (λ s, Crawler.server_load_factor (Crawler.self s)
                    ∈ [1%Q; (3 # 2)%Q; 2%Q; (5 # 2)%Q; 3%Q]));
    [|exact Hst|apply surjective_pairing].
  unfold Session.kept_by_traversal, Session.kept_by_chapter.
  split_and!; try (intros; simpl; done).
  intros s fa u Hs. simpl.
  destruct (calculate_adaptive_delay_self fa u (Crawler.self s))
    as [->|(f & Hf & ->)]; [done|]. simpl. set_solver.
Qed.

Lemma load_factor_takes_five_values_witness :
  Crawler.server_load_factor (Crawler.self
    (snd (Crawler.crawl_novel_from_chapter_async
            (Scenario.static_site Scenario.two_chapters) 10 Scenario.url_a
            Scenario.fresh)))
    ∈ [1%Q; (3 # 2)%Q; 2%Q; (5 # 2)%Q; 3%Q].
Proof.
  apply (load_factor_takes_five_values
           (Scenario.static_site Scenario.two_chapters) 10 Scenario.url_a
           Scenario.fresh).
  simpl. set_solver.
Defined.

(** ** What a run writes *)

Section ledger.
Import Crawler Session.

Lemma records_cons e h :
  records (e :: h)
  = records h ++ match e with
                 | Saved n title content => [(n, title, content)]
                 | _ => []
                 end.
Proof. unfold records. simpl. rewrite omap_app. by destruct e. Qed.

(** Fetching a chapter writes nothing and counts nothing. *)
Lemma chapter_keeps_ledger w url n st r st' :
  crawl_complete_chapter_async w url n st = (r, st') →
  records (trace st') = records (trace st)
  ∧ chapter_count (self st') = chapter_count (self st)
  ∧ total_words (self st') = total_words (self st).
Proof.
  intros Hrun.
  eapply (keeps_crawl_complete_chapter_async
            (λ s, records (trace s) = records (trace st)
                  ∧ chapter_count (self s) = chapter_count (self st)
                  ∧ total_words (self s) = total_words (self st)));
    [|done|exact Hrun].
  unfold kept_by_chapter.
  split_and!; [intros s x (Hr & Hc & Hw)..|intros s fa u (Hr & Hc & Hw)];
    simpl; rewrite ?records_cons, ?app_nil_r; try done.
  by destruct (calculate_adaptive_delay_self fa u (self s))
    as [->|(f & _ & ->)].
Qed.

Lemma ledger_wider st0 k st new :
  ledger st0 k st new → ledger st0 (S k) st new.
Proof.
  intros (Hr & Hc & Hw & Hall & Hsorted). split_and!; try done.
  eapply Forall_impl; [exact Hall|]. simpl. intros r [? ?]. split; [lia|done].
Qed.

Lemma ledger_same st0 k st new st' :
  records (trace st') = records (trace st) →
  chapter_count (self st') = chapter_count (self st) →
  total_words (self st') = total_words (self st) →
  ledger st0 k st new → ledger st0 k st' new.
Proof.
  intros Hr' Hc' Hw' (Hr & Hc & Hw & Hall & Hsorted).
  split_and!; try done; congruence.
Qed.

Lemma record_words_app rs1 rs2 :
  record_words (rs1 ++ rs2) = (record_words rs1 + record_words rs2)%nat.
Proof. induction rs1 as [|r rs1 IH]; simpl; [done|]. rewrite IH. lia. Qed.

Lemma sorted_snoc (l : list nat) k :
  StronglySorted lt l → Forall (λ n, (n < k)%nat) l →
  StronglySorted lt (l ++ [k]).
Proof.
  induction 1 as [|n l Hl IH Hn]; intros Hk; simpl.
  - repeat constructor.
  - apply Forall_cons in Hk as [Hnk Hk]. constructor; [by apply IH|].
    apply Forall_app. split; [done|]. by constructor.
Qed.

Lemma ledger_saved st0 l st new title content :
  (1 ≤ chapter_num l)%nat → content ≠ [] →
  ledger st0 (chapter_num l) st new →
  ledger st0 (S (chapter_num l))
    (with_self (λ c, set_counters (S (chapter_count c))
                                  (total_words c + words content) c)
       (snd (emit (Saved (chapter_num l) title content) st)))
    (new ++ [(chapter_num l, title, content)]).
Proof.
  intros Hk Hne (Hr & Hc & Hw & Hall & Hsorted). split_and!; simpl.
  - by rewrite records_cons, Hr, app_assoc.
  - rewrite Hc, length_app. simpl. lia.
  - rewrite Hw, record_words_app. simpl. lia.
  - apply Forall_app. split.
    + eapply Forall_impl; [exact Hall|]. simpl. intros r [? ?].
      split; [lia|done].
    + constructor; [|done]. simpl. split; [lia|done].
  - unfold numbers. rewrite fmap_app. simpl. apply sorted_snoc; [done|].
    apply Forall_fmap. eapply Forall_impl; [exact Hall|]. simpl.
    intros r [? ?]. lia.
Qed.

(** A pass of the loop writes at most one record, for the chapter it
    visited, and moves on to the next chapter number unless it was
    interrupted. *)
Lemma loop_body_ledger w url l st f st' st0 new :
  (1 ≤ chapter_num l)%nat →
  ledger st0 (chapter_num l) st new →
  loop_body w url l st = (f, st') →
  match f with
  | Continue l' | BreakLastChapter l' =>
      (1 ≤ chapter_num l')%nat ∧ ∃ new', ledger st0 (chapter_num l') st' new'
  | BreakInterrupt l' => l' = l ∧ ledger st0 (chapter_num l) st' new
  | Raise _ => ledger st0 (chapter_num l) st' new
  end.
Proof.
  intros Hk Hledger. unfold loop_body. unfold mbind at 1. unfold M_bind.
  destruct (crawl_complete_chapter_async w url (chapter_num l) st)
    as [[e|[[title content] next]] st1] eqn:Hchapter;
    apply chapter_keeps_ledger in Hchapter as (Hr & Hc & Hw);
    pose proof (ledger_same _ _ _ _ _ Hr Hc Hw Hledger) as H1.
  - destruct (is_Exception e); [|by intros [= <- <-]].
    unfold on_exception. destruct (next_chapter_url l) as [next|];
      [|by intros [= <- <-]].
    unfold mbind, M_bind, sleep, emit, mret, M_ret. intros [= <- <-]. simpl.
    split; [lia|]. exists new. apply ledger_wider.
    eapply ledger_same; [| | |exact H1]; simpl; [|done..].
    by rewrite records_cons, app_nil_r.
  - destruct content as [|p content].
    + unfold mbind, M_bind. case_decide;
        unfold sleep, emit, mret, M_ret; intros [= <- <-]; simpl;
        (split; [lia|]); exists new; apply ledger_wider; [|done].
      eapply ledger_same; [| | |exact H1]; simpl; [|done..].
      by rewrite records_cons, app_nil_r.
    + unfold mbind at 1. unfold M_bind.
      destruct (file_append_ok w (chapter_num l)).
      * unfold mbind, M_bind, emit, modify_self, mret, M_ret.
        intros [= <- <-].
        pose proof (ledger_saved st0 l st1 new title (p :: content) Hk
                      ltac:(done) H1) as H2.
        destruct (truthy_url next); simpl; (split; [lia|]); eauto.
      * unfold mret, M_ret. intros [= <- <-].
        destruct (truthy_url next); simpl; (split; [lia|]);
          exists new; by apply ledger_wider.
Qed.

Lemma while_loop_ledger w st0 fuel :
  ∀ l st new exit l' st',
    (1 ≤ chapter_num l)%nat →
    ledger st0 (chapter_num l) st new →
    while_loop w fuel l st = ((exit, l'), st') →
    ∃ new', ledger st0 (chapter_num l') st' new'.
Proof.
  induction fuel as [|fuel IH]; intros l st new exit l' st' Hk Hledger; simpl;
    destruct (loop_guard l) as [url|]; try (intros [= <- <- <-]; by eauto).
  unfold mbind, M_bind.
  destruct (loop_body w url l st) as [f st1] eqn:Hbody.
  eapply loop_body_ledger in Hbody; [|done..].
  destruct f as [l1|l1|l1|e].
  - destruct Hbody as (Hk1 & new1 & H1). by eapply IH.
  - destruct Hbody as (Hk1 & new1 & H1). intros [= <- <- <-]. eauto.
  - destruct Hbody as (-> & H1). intros [= <- <- <-]. eauto.
  - intros [= <- <- <-]. eauto.
Qed.

Lemma traverse_ledger w fuel start_url st :
  ∃ new, ledger (with_self (set_counters 0 0) st)
           (chapter_num (traverse w fuel start_url st).1.2)
           (traverse w fuel start_url st).2 new.
Proof.
  unfold traverse, mbind, M_bind, modify_self.
  destruct (while_loop w fuel (initial_locals start_url)
              (with_self (set_counters 0 0) st)) as [[exit l'] st'] eqn:Hrun.
  eapply (while_loop_ledger _ _ _ _ _ []) in Hrun; [done|simpl; lia|].
  split_and!; simpl; rewrite ?app_nil_r; try done; constructor.
Qed.

End ledger.

(** The counters of a run tell what it wrote.  The traversal adds
    records to the output and nothing else touches it; at its end the
    chapter count is the number of records it added and the word count
    is the number of code points of their paragraphs. *)
Theorem counters_tell_what_was_written
    (w : Crawler.world) (fuel : nat) (start_url : string) (st : Crawler.state) :
  let st' := snd (Crawler.traverse w fuel start_url st) in
  ∃ new,
    Crawler.records (Crawler.trace st')
    = Crawler.records (Crawler.trace st) ++ new
    ∧ Crawler.chapter_count (Crawler.self st') = length new
    ∧ Crawler.total_words (Crawler.self st') = Session.record_words new.
Proof.
  destruct (traverse_ledger w fuel start_url st)
    as (new & Hr & Hc & Hw & _). by exists new.
Qed.

(** The records of a run are written in ascending chapter number, no
    number twice, the first at least 1, and none of them is without
    paragraphs. *)
Theorem records_ascend_and_are_not_empty
    (w : Crawler.world) (fuel : nat) (start_url : string) (st : Crawler.state) :
  let st' := snd (Crawler.traverse w fuel start_url st) in
  ∃ new,
    Crawler.records (Crawler.trace st')
    = Crawler.records (Crawler.trace st) ++ new
    ∧ StronglySorted lt (Session.numbers new)
    ∧ Forall (λ r, (1 ≤ r.1.1)%nat ∧ r.2 ≠ []) new.
Proof.
  destruct (traverse_ledger w fuel start_url st)
    as (new & Hr & _ & _ & Hall & Hsorted). exists new.
  split_and!; try done.
  eapply Forall_impl; [exact Hall|]. simpl. by intros r [[? _] ?].
Qed.

(** ** More on the fetcher *)

Section fetches.
Import Crawler Session.

Lemma py_max_l a b : (a <= Cli.py_max a b)%Q.
Proof.
  unfold Cli.py_max. destruct (Qgtb b a) eqn:H; [|lra].
  apply Qgtb_true in H. lra.
Qed.

Lemma py_max_r a b : (b <= Cli.py_max a b)%Q.
Proof.
  unfold Cli.py_max. destruct (Qgtb b a) eqn:H; [lra|].
  by apply Qgtb_false in H.
Qed.

Lemma slept_app e1 e2 : (slept (e1 ++ e2) == slept e1 + slept e2)%Q.
Proof.
  induction e1 as [|[url|d|n title content] e1 IH]; simpl; lra.
Qed.

Lemma pause_bound_403 retry_count attempt :
  (5 <= pause_bound retry_count attempt)%Q.
Proof. unfold pause_bound. case_decide; [apply py_max_l|lra]. Qed.

Lemma sleep_budget_nonneg retry_count remaining :
  ∀ attempt, (0 <= sleep_budget retry_count attempt remaining)%Q.
Proof.
  induction remaining as [|remaining IH]; intros attempt; simpl; [lra|].
  pose proof (pause_bound_403 retry_count attempt).
  pose proof (IH (S attempt)). lra.
Qed.

(** The pauses of a fetch stay within the budget of its attempts. *)
Lemma fetch_attempts_slept w url remaining :
  ∀ attempt st r st',
    fetch_attempts w url attempt remaining st = (r, st') →
    ∃ events,
      trace st' = events ++ trace st
      ∧ (slept events
         <= sleep_budget (retry_count (self st)) attempt remaining)%Q.
Proof.
  induction remaining as [|remaining IH]; intros attempt st r st' Hrun.
  - injection Hrun as <- <-. exists []. split; [done|]. simpl. lra.
  - simpl in Hrun.
    unfold mbind, M_bind, mret, M_ret, session_get, get_trace, get_self,
      emit, modify_self, sleep, with_self in Hrun; simpl in Hrun.
    pose proof (pause_bound_403 (retry_count (self st)) attempt) as H403.
    pose proof (sleep_budget_nonneg (retry_count (self st)) remaining
                  (S attempt)) as Hrest.
    assert (Hnext : ∀ st1 pre,
      trace st1 = pre ++ Get url :: trace st →
      retry_count (self st1) = retry_count (self st) →
      (slept pre <= pause_bound (retry_count (self st)) attempt)%Q →
      fetch_attempts w url (S attempt) remaining st1 = (r, st') →
      ∃ events,
        trace st' = events ++ trace st
        ∧ (slept events
           <= pause_bound (retry_count (self st)) attempt
              + sleep_budget (retry_count (self st)) (S attempt) remaining)%Q).
    { intros st1 pre Ht Hrc Hpre Hrec.
      apply IH in Hrec as (events & Ht' & Hle).
      exists (events ++ pre ++ [Get url]). split.
      - rewrite Ht', Ht, <-!app_assoc. done.
      - rewrite !slept_app. rewrite Hrc in Hle. simpl. lra. }
    assert (Hbackoff : ∀ d,
      (d <= Cli.py_max 5 (Cli.py_max (5 * Qnat (attempt + 1))%Q
                                     (inject_Z (2 ^ Z.of_nat attempt))))%Q →
      (if decide (attempt < retry_count (self st) - 1)%nat
       then fetch_attempts w url (S attempt) remaining
              {| self := self st; trace := Sleep d :: Get url :: trace st |}
       else fetch_attempts w url (S attempt) remaining
              {| self := self st; trace := Get url :: trace st |})
      = (r, st') →
      ∃ events,
        trace st' = events ++ trace st
        ∧ (slept events
           <= pause_bound (retry_count (self st)) attempt
              + sleep_budget (retry_count (self st)) (S attempt) remaining)%Q).
    { intros d Hd Hrec. case_decide as Hlt.
      - eapply (Hnext _ [Sleep d]); [| | |exact Hrec]; [done|done|].
        unfold pause_bound. rewrite decide_True by done. simpl. lra.
      - eapply (Hnext _ []); [| | |exact Hrec]; [done|done|]. simpl. lra. }
    pose proof (py_max_r 5 (Cli.py_max (5 * Qnat (attempt + 1))%Q
                              (inject_Z (2 ^ Z.of_nat attempt)))) as Hmax.
    pose proof (py_max_l (5 * Qnat (attempt + 1))%Q
                  (inject_Z (2 ^ Z.of_nat attempt))) as Hmax1.
    pose proof (py_max_r (5 * Qnat (attempt + 1))%Q
                  (inject_Z (2 ^ Z.of_nat attempt))) as Hmax2.
    assert (0 <= Qnat (attempt + 1))%Q as Hn.
    { unfold Qnat. change 0%Q with (inject_Z 0). rewrite <-Zle_Qle. lia. }
    destruct (http_get w (trace st) url) as [status body elapsed| | | |].
    + destruct (status =? 200).
      { injection Hrun as <- <-. exists [Get url]. split; [done|].
        simpl. lra. }
      destruct (status =? 403).
      { eapply (Hnext _ [Sleep 5]); [| | |exact Hrun]; [done|done|].
        simpl. lra. }
      destruct (status =? 404).
      { injection Hrun as <- <-. exists [Get url]. split; [done|].
        simpl. lra. }
      eapply (Hnext _ []); [| | |exact Hrun]; [done|done|]. simpl. lra.
    + apply (Hbackoff (5 * Qnat (attempt + 1))%Q); [lra|].
      simpl in Hrun.
      by destruct (decide (attempt < retry_count (self st) - 1)%nat).
    + apply (Hbackoff (5 * Qnat (attempt + 1))%Q); [lra|].
      simpl in Hrun.
      by destruct (decide (attempt < retry_count (self st) - 1)%nat).
    + apply (Hbackoff (2 * Qnat (attempt + 1))%Q); [lra|].
      simpl in Hrun.
      by destruct (decide (attempt < retry_count (self st) - 1)%nat).
    + apply (Hbackoff (inject_Z (2 ^ Z.of_nat attempt))); [lra|].
      simpl in Hrun.
      by destruct (decide (attempt < retry_count (self st) - 1)%nat).
Qed.

End fetches.

(** A fetch pauses for 55 seconds at most.  With the five attempts the
    crawler is built with, the pauses between the attempts of one call of
    [fetch_with_retry] add up to at most 5 + 10 + 15 + 20 + 5 seconds,
    whatever the server answers. *)
Theorem fetch_sleeps_at_most_55_seconds
    (w : Crawler.world) (url : string) (st : Crawler.state) :
  Crawler.retry_count (Crawler.self st) = 5%nat →
  ∃ events,
    Crawler.trace (snd (Crawler.fetch_with_retry w url st))
    = events ++ Crawler.trace st
    ∧ (Session.slept events <= 55)%Q.
Proof.
  intros Hrc.
  destruct (Crawler.fetch_with_retry w url st) as [r st'] eqn:Hrun.
  unfold Crawler.fetch_with_retry, mbind, Crawler.M_bind, Crawler.get_self
    in Hrun.
  apply fetch_attempts_slept in Hrun as (events & Ht & Hle).
  exists events. split; [done|]. rewrite Hrc in Hle.
  eapply Qle_trans; [exact Hle|]. by vm_compute.
Qed.

Lemma fetch_sleeps_at_most_55_seconds_witness :
  ∃ events,
    Crawler.trace (snd (Crawler.fetch_with_retry
                          (Scenario.static_site Scenario.two_chapters)
                          Scenario.url_a Scenario.fresh))
    = events ++ []
    ∧ (Session.slept events <= 55)%Q.
Proof.
  apply (fetch_sleeps_at_most_55_seconds
           (Scenario.static_site Scenario.two_chapters) Scenario.url_a
           Scenario.fresh).
  reflexivity.
Defined.

Section answers.
Import Crawler Session.

Ltac run H :=
  unfold mbind, M_bind, mret, M_ret, session_get, get_trace, get_self,
    emit, modify_self, sleep, with_self in H; simpl in H.

Lemma record_response_time_last t c :
  last (response_times (record_response_time t c)) = Some t.
Proof.
  unfold record_response_time. simpl. case_decide as Hlen.
  - unfold last_n. rewrite length_app in *. simpl in *.
    rewrite drop_app_le by lia. apply last_snoc.
  - apply last_snoc.
Qed.

(** A body comes from the request made last, and that one was answered
    200. *)
Lemma fetch_attempts_body w url remaining :
  ∀ attempt st body st',
    fetch_attempts w url attempt remaining st = (Some body, st') →
    ∃ h elapsed,
      trace st' = Get url :: h
      ∧ http_get w h url = Http 200 body elapsed
      ∧ last (response_times (self st')) = Some elapsed.
Proof.
  induction remaining as [|remaining IH]; intros attempt st body st' Hrun;
    [done|].
  simpl in Hrun. run Hrun.
  destruct (http_get w (trace st) url) as [status page elapsed| | | |] eqn:Hget;
    try (simpl in Hrun;
         destruct (decide (attempt < retry_count (self st) - 1)%nat);
         by apply IH in Hrun).
  destruct (status =? 200) eqn:H200.
  { injection Hrun as <- <-. apply Z.eqb_eq in H200 as ->.
    exists (trace st), elapsed. split_and!; try done.
    apply record_response_time_last. }
  destruct (status =? 403); [by apply IH in Hrun|].
  destruct (status =? 404); [done|by apply IH in Hrun].
Qed.

(** A URL that is never answered 200 or 404 is requested once in every
    attempt. *)
Lemma fetch_attempts_refused w url remaining :
  refused w url →
  ∀ attempt st,
    ∃ events st',
      fetch_attempts w url attempt remaining st = (None, st')
      ∧ trace st' = events ++ trace st
      ∧ requests url events = remaining.
Proof.
  intros Href.
  induction remaining as [|remaining IH]; intros attempt st.
  { exists [], (with_self (λ c, set_failed_urls ({[url]} ∪ failed_urls c) c) st).
    done. }
  assert (Hnext : ∀ pre,
    requests url pre = 0%nat →
    ∃ events st',
      fetch_attempts w url (S attempt) remaining
        {| self := self st; trace := pre ++ Get url :: trace st |}
      = (None, st')
      ∧ trace st' = events ++ trace st
      ∧ requests url events = S remaining).
  { intros pre Hpre.
    destruct (IH (S attempt)
                {| self := self st; trace := pre ++ Get url :: trace st |})
      as (events & st' & Hrun & Ht & Hreq).
    exists (events ++ pre ++ [Get url]), st'. split_and!; [done| |].
    - rewrite Ht. simpl. by rewrite <-!app_assoc.
    - rewrite !requests_app, requests_get, Hreq, Hpre. lia. }
  simpl.
  unfold mbind, M_bind, mret, M_ret, session_get, get_trace, get_self,
    emit, modify_self, sleep, with_self; simpl.
  destruct (http_get w (trace st) url) as [status page elapsed| | | |] eqn:Hget;
    try (simpl;
         destruct (decide (attempt < retry_count (self st) - 1)%nat);
         [apply (Hnext [Sleep _])|apply (Hnext [])]; done).
  destruct (Z.eqb_spec status 200) as [->|_];
    [by destruct (Href (trace st) page elapsed)|].
  destruct (status =? 403); [by apply (Hnext [Sleep 5])|].
  destruct (Z.eqb_spec status 404) as [->|_];
    [by destruct (Href (trace st) page elapsed)|].
  by apply (Hnext []).
Qed.

End answers.

(** A fetch returns the body of its last request.  When
    [fetch_with_retry] returns a body, the request it made last was
    answered 200 with that body, nothing happened after it, and the
    time that request took is the newest entry of the latency window. *)
Theorem fetched_body_is_the_last_answer
    (w : Crawler.world) (url : string) (st st' : Crawler.state)
    (body : Crawler.html) :
  Crawler.fetch_with_retry w url st = (Some body, st') →
  ∃ h elapsed,
    Crawler.trace st' = Crawler.Get url :: h
    ∧ Crawler.http_get w h url = Crawler.Http 200 body elapsed
    ∧ last (Crawler.response_times (Crawler.self st')) = Some elapsed.
Proof.
  unfold Crawler.fetch_with_retry, mbind, Crawler.M_bind, Crawler.get_self.
  apply fetch_attempts_body.
Qed.

Lemma fetched_body_is_the_last_answer_witness :
  ∃ h elapsed,
    [Crawler.Get Scenario.url_a] = Crawler.Get Scenario.url_a :: h
    ∧ Crawler.http_get (Scenario.static_site Scenario.two_chapters) h
        Scenario.url_a
      = Crawler.Http 200
          (Scenario.doc "Chapter A" (Some ["first paragraph of A"])
             (Some Scenario.url_b) []) elapsed
    ∧ Some 1%Q = Some elapsed.
Proof.
  apply (fetched_body_is_the_last_answer
           (Scenario.static_site Scenario.two_chapters) Scenario.url_a
           Scenario.fresh
           (snd (Crawler.fetch_with_retry
                   (Scenario.static_site Scenario.two_chapters)
                   Scenario.url_a Scenario.fresh))).
  vm_compute. reflexivity.
Defined.

(** A URL whose requests are never answered 200 or 404 is requested
    exactly [retry_count] times by one fetch, which then fails: the
    attempts are all used, whatever the refusals and errors are. *)
Theorem refused_url_takes_every_attempt
    (w : Crawler.world) (url : string) (st : Crawler.state) :
  Session.refused w url →
  ∃ events,
    fst (Crawler.fetch_with_retry w url st) = None
    ∧ Crawler.trace (snd (Crawler.fetch_with_retry w url st))
      = events ++ Crawler.trace st
    ∧ Crawler.requests url events = Crawler.retry_count (Crawler.self st).
Proof.
  intros Href.
  unfold Crawler.fetch_with_retry, mbind, Crawler.M_bind, Crawler.get_self.
  destruct (fetch_attempts_refused w url
              (Crawler.retry_count (Crawler.self st)) Href 0%nat st)
    as (events & st' & -> & Ht & Hreq).
  by exists events.
Qed.

Lemma refused_url_takes_every_attempt_witness :
  ∃ events,
    fst (Crawler.fetch_with_retry (Scenario.static_site Outage.forbidden)
           Scenario.url_a Scenario.fresh) = None
    ∧ Crawler.trace (snd (Crawler.fetch_with_retry
                            (Scenario.static_site Outage.forbidden)
                            Scenario.url_a Scenario.fresh))
      = events ++ []
    ∧ Crawler.requests Scenario.url_a events = 5%nat.
Proof.
  apply (refused_url_takes_every_attempt
           (Scenario.static_site Outage.forbidden) Scenario.url_a
           Scenario.fresh).
  intros h body elapsed. simpl. split; discriminate.
Defined.

(** ** More on the chain walker *)

Section dead_ends.
Import Crawler Session.

Lemma fetch_attempts_unanswered w url remaining :
  unanswered w url →
  ∀ attempt st, (fetch_attempts w url attempt remaining st).1 = None.
Proof.
  intros Hdead.
  induction remaining as [|remaining IH]; intros attempt st; [done|].
  simpl.
  unfold mbind, M_bind, mret, M_ret, session_get, get_trace, get_self,
    emit, modify_self, sleep, with_self; simpl.
  destruct (http_get w (trace st) url) as [status page elapsed| | | |] eqn:Hget;
    try (simpl; destruct (decide (attempt < retry_count (self st) - 1)%nat);
         by apply IH).
  destruct (Z.eqb_spec status 200) as [->|_];
    [by destruct (Hdead (trace st) page elapsed)|].
  destruct (status =? 403); [by apply IH|].
  destruct (status =? 404); [done|by apply IH].
Qed.

Lemma fetch_with_retry_unanswered w url st :
  unanswered w url →
  ∃ st', fetch_with_retry w url st = (None, st')
         ∧ url ∈ failed_urls (self st')
         ∧ records (trace st') = records (trace st)
         ∧ chapter_count (self st') = chapter_count (self st).
Proof.
  intros Hdead.
  destruct (fetch_with_retry w url st) as [r st'] eqn:Hrun.
  assert (r = None) as ->.
  { unfold fetch_with_retry, mbind, M_bind, get_self in Hrun.
    pose proof (fetch_attempts_unanswered w url (retry_count (self st))
                  Hdead 0%nat st) as H. by rewrite Hrun in H. }
  exists st'. split; [done|]. split.
  - apply fetch_with_retry_run in Hrun as (_ & _ & _ & _ & _ & ->).
    set_solver.
  - eapply (keeps_fetch_with_retry
              (λ s, records (trace s) = records (trace st)
                    ∧ chapter_count (self s) = chapter_count (self st)));
      [|done|exact Hrun].
    unfold kept_by_chapter.
    split_and!; [intros s x (Hr & Hc)..|intros s fa u (Hr & Hc)];
      simpl; rewrite ?records_cons, ?app_nil_r; try done.
    by destruct (calculate_adaptive_delay_self fa u (self s))
      as [->|(f & _ & ->)].
Qed.

Lemma extract_page_content_unanswered w url st st' :
  fetch_with_retry w url st = (None, st') →
  extract_page_content w url st = (([], None, None), st').
Proof.
  intros Hfetch. unfold extract_page_content. unfold mbind at 1.
  unfold M_bind. by rewrite Hfetch.
Qed.

Lemma get_pagination_links_unanswered w url st st' :
  fetch_with_retry w url st = (None, st') →
  get_pagination_links w url st = ([], st').
Proof.
  intros Hfetch. unfold get_pagination_links. unfold mbind at 1.
  unfold M_bind. by rewrite Hfetch.
Qed.

(** The chapter of a page that is never served is empty and has no
    successor. *)
Lemma chapter_unanswered w url n st :
  node_raises w n = None → unanswered w url →
  ∃ st', crawl_complete_chapter_async w url n st = (inr (None, [], None), st')
         ∧ url ∈ failed_urls (self st')
         ∧ records (trace st') = records (trace st)
         ∧ chapter_count (self st') = chapter_count (self st).
Proof.
  intros Hraise Hdead. unfold crawl_complete_chapter_async. rewrite Hraise.
  destruct (fetch_with_retry_unanswered w url st Hdead)
    as (st1 & Hfetch1 & _ & Hr1 & Hc1).
  destruct (fetch_with_retry_unanswered w url st1 Hdead)
    as (st2 & Hfetch2 & Hf2 & Hr2 & Hc2).
  unfold mbind at 1. unfold M_bind at 1.
  rewrite (extract_page_content_unanswered _ _ _ _ Hfetch1).
  unfold mbind at 1. unfold M_bind at 1.
  rewrite (get_pagination_links_unanswered _ _ _ _ Hfetch2).
  unfold adaptive_delay.
  unfold mbind, M_bind, mret, M_ret, get_trace, get_self,
    modify_self, sleep, emit, with_self.
  pose proof (calculate_adaptive_delay_self (arith w)
                (random_random w (trace st2)) (self st2)) as Hself.
  destruct (_calculate_adaptive_delay (arith w)
              (random_random w (trace st2)) (self st2))
    as [d c'] eqn:Hd.
  eexists. split; [reflexivity|]. simpl. simpl in Hself.
  rewrite records_cons, app_nil_r.
  destruct Hself as [->|(f & _ & ->)]; simpl; split_and!; congruence.
Qed.

(** On a barren site every pass is a failure, and the fifth is the
    last. *)
Lemma while_loop_barren w k :
  barren w →
  ∀ fuel l st,
    (consecutive_failures l + k = 5)%nat → (k ≤ fuel)%nat →
    ∃ l' st',
      while_loop w fuel l st = ((GuardFalse, l'), st')
      ∧ (chapter_num l' ≤ chapter_num l + k)%nat
      ∧ records (trace st') = records (trace st).
Proof.
  intros Hbarren.
  induction k as [|k IH]; intros fuel l st Hcf Hfuel.
  { exists l, st. split_and!; [|lia|done].
    destruct fuel; simpl; by rewrite loop_guard_budget_spent by lia. }
  destruct (loop_guard l) as [url|] eqn:Hguard.
  2:{ exists l, st. split_and!; [|lia|done].
      destruct fuel; simpl; by rewrite Hguard. }
  destruct fuel as [|fuel]; [lia|]. simpl. rewrite Hguard.
  unfold mbind at 1. unfold M_bind.
  destruct (Hbarren url (chapter_num l) st) as (title & next & st1 & Hchapter).
  pose proof (chapter_keeps_ledger _ _ _ _ _ _ Hchapter) as (Hr1 & _ & _).
  unfold loop_body. unfold mbind at 1. unfold M_bind. rewrite Hchapter.
  set (l1 := {| current_url := next; chapter_num := S (chapter_num l);
                consecutive_failures := S (consecutive_failures l);
                next_chapter_url := Some next |}).
  assert (Hstep : ∀ st2, records (trace st2) = records (trace st) →
            ∃ l' st', while_loop w fuel l1 st2 = ((GuardFalse, l'), st')
                      ∧ (chapter_num l' ≤ chapter_num l + S k)%nat
                      ∧ records (trace st') = records (trace st)).
  { intros st2 Hr2.
    destruct (IH fuel l1 st2) as (l' & st' & Hrun & Hnum & Hr');
      [simpl; lia|lia|].
    exists l', st'. split_and!; [done|simpl in Hnum; lia|congruence]. }
  unfold mbind, M_bind. case_decide;
    unfold sleep, emit, mret, M_ret; apply Hstep; simpl;
    rewrite ?records_cons, ?app_nil_r; done.
Qed.

Lemma while_loop_unanswered w fuel start_url st :
  PyStr.truthy start_url = true →
  node_raises w 1 = None → unanswered w start_url →
  ∃ l st',
    while_loop w (S fuel) (initial_locals start_url) st
    = ((GuardFalse, l), st')
    ∧ start_url ∈ failed_urls (self st')
    ∧ records (trace st') = records (trace st)
    ∧ chapter_count (self st') = chapter_count (self st).
Proof.
  intros Hurl Hraise Hdead.
  assert (loop_guard (initial_locals start_url) = Some start_url) as Hguard.
  { unfold loop_guard. simpl. by rewrite Hurl. }
  cbn [while_loop]. rewrite Hguard.
  unfold mbind at 1. unfold M_bind. unfold loop_body.
  unfold mbind at 1. unfold M_bind.
  destruct (chapter_unanswered w start_url 1 st Hraise Hdead)
    as (st1 & Hchapter & Hf & Hr & Hc).
  change (chapter_num (initial_locals start_url)) with 1%nat.
  rewrite Hchapter.
  unfold mbind, M_bind, mret, M_ret. simpl.
  eexists _, st1. split; [|done].
  destruct fuel; reflexivity.
Qed.

End dead_ends.

(** A start page that cannot be fetched ends the run at once.  When no
    request for the start URL is answered 200, the first chapter is
    empty and has no successor, so the loop ends after one pass: nothing
    is written, the URL is among the failed ones, and the method
    returns [True]. *)
Theorem unreachable_start_ends_the_run
    (w : Crawler.world) (fuel : nat) (start_url : string) (st : Crawler.state) :
  Crawler.domain_available w = true → Crawler.output_file_opens w = true →
  PyStr.truthy start_url = true →
  Crawler.node_raises w 1 = None →
  Session.unanswered w start_url →
  ∃ st',
    Crawler.crawl_novel_from_chapter_async w (S fuel) start_url st
    = (Crawler.Returned true, st')
    ∧ Crawler.records (Crawler.trace st') = Crawler.records (Crawler.trace st)
    ∧ Crawler.chapter_count (Crawler.self st') = 0%nat
    ∧ start_url ∈ Crawler.failed_urls (Crawler.self st').
Proof.
  intros Hdomain Hfile Hurl Hraise Hdead.
  unfold Crawler.crawl_novel_from_chapter_async. rewrite Hdomain, Hfile.
  cbn [negb].
  unfold Crawler.traverse, mbind, Crawler.M_bind, Crawler.modify_self.
  destruct (while_loop_unanswered w fuel start_url
              (Crawler.with_self (Crawler.set_counters 0 0) st)
              Hurl Hraise Hdead)
    as (l & st' & -> & Hf & Hr & Hc).
  by exists st'.
Qed.

Lemma unreachable_start_ends_the_run_witness :
  ∃ st',
    Crawler.crawl_novel_from_chapter_async
      (Scenario.static_site Outage.forbidden) 1 Scenario.url_a Scenario.fresh
    = (Crawler.Returned true, st')
    ∧ Crawler.records (Crawler.trace st') = []
    ∧ Crawler.chapter_count (Crawler.self st') = 0%nat
    ∧ Scenario.url_a ∈ Crawler.failed_urls (Crawler.self st').
Proof.
  apply (unreachable_start_ends_the_run
           (Scenario.static_site Outage.forbidden) 0 Scenario.url_a
           Scenario.fresh); try reflexivity.
  intros h body elapsed. simpl. discriminate.
Defined.

(** A site without content is given up after five chapters.  When every
    visit comes back without paragraphs the loop ends on its condition
    within five passes: five passes of fuel are enough for any run, at
    most five chapters are visited, and nothing is written. *)
Theorem barren_site_is_given_up
    (w : Crawler.world) (fuel : nat) (start_url : string) (st : Crawler.state) :
  Session.barren w → (5 ≤ fuel)%nat →
  ∃ l st',
    Crawler.traverse w fuel start_url st = ((Crawler.GuardFalse, l), st')
    ∧ (Crawler.chapter_num l ≤ 6)%nat
    ∧ Crawler.records (Crawler.trace st') = Crawler.records (Crawler.trace st).
Proof.
  intros Hbarren Hfuel.
  unfold Crawler.traverse, mbind, Crawler.M_bind, Crawler.modify_self.
  destruct (while_loop_barren w 5 Hbarren fuel
              (Crawler.initial_locals start_url)
              (Crawler.with_self (Crawler.set_counters 0 0) st))
    as (l & st' & Hrun & Hnum & Hr); [done|done|].
  by exists l, st'.
Qed.
Section stubs.
Import Crawler Session.

Lemma stubs_fetch url st :
  (∃ st', fetch_with_retry (Scenario.static_site Scenario.stubs) url st
          = (None, st'))
  ∨ (∃ st', fetch_with_retry (Scenario.static_site Scenario.stubs) url st
            = (Some (Scenario.doc "Stub" (Some ["soon"])
                       (Some (url +:+ "+")) []), st')).
Proof.
  unfold fetch_with_retry, mbind, M_bind, get_self.
  destruct (retry_count (self st)); [left|right]; eexists; reflexivity.
Qed.

Lemma stubs_barren : barren (Scenario.static_site Scenario.stubs).
Proof.
  intros url n st. unfold crawl_complete_chapter_async.
  cbn [node_raises Scenario.static_site].
  unfold mbind at 1. unfold M_bind at 1.
  assert (∃ next title st1,
    extract_page_content (Scenario.static_site Scenario.stubs) url st
    = (([], next, title), st1)) as (next & title & st1 & ->).
  { unfold extract_page_content. unfold mbind at 1. unfold M_bind at 1.
    destruct (stubs_fetch url st) as [[st' ->]|[st' ->]]; [by eauto|].
    cbn [no_content Scenario.doc html_text]. 
    unfold mbind, M_bind, get_self, mret, M_ret.
    cbn -[_clean_text resolve_next find_title].
    replace (_clean_text "soon") with "soon" by (by vm_compute).
    cbn -[resolve_next find_title]. eauto. }
  unfold mbind at 1. unfold M_bind at 1.
  assert (∃ st2,
    get_pagination_links (Scenario.static_site Scenario.stubs) url st1
    = ([], st2)) as (st2 & ->).
  { unfold get_pagination_links. unfold mbind at 1. unfold M_bind at 1.
    destruct (stubs_fetch url st1) as [[st' ->]|[st' ->]]; [by eauto|].
    cbn [no_content Scenario.doc html_text].
    unfold mbind at 1. unfold M_bind, get_self, mret, M_ret.
    cbn. eauto. }
  unfold mbind at 1. unfold M_bind at 1. unfold mret at 1. unfold M_ret at 1.
  unfold mbind at 1. unfold M_bind at 1.
  destruct (adaptive_delay _ st2) as [d st3].
  unfold mbind, M_bind, sleep, emit, mret, M_ret. eauto.
Qed.

End stubs.

Lemma barren_site_is_given_up_witness :
  ∃ l st',
    Crawler.traverse (Scenario.static_site Scenario.stubs) 7 Scenario.url_a
      Scenario.fresh
    = ((Crawler.GuardFalse, l), st')
    ∧ (Crawler.chapter_num l ≤ 6)%nat
    ∧ Crawler.records (Crawler.trace st') = [].
Proof.
  apply (barren_site_is_given_up (Scenario.static_site Scenario.stubs) 7
           Scenario.url_a Scenario.fresh).
  - exact stubs_barren.
  - lia.
Defined.

(** ** The pause after a chapter *)

Section pause.
Import PyFloat Crawler.

(** The delay lies between its values at the least factor and draw and
    at the greatest. *)
Lemma calculate_adaptive_delay_bounds fa c u :
  correctly_rounded fa →
  (fl fa (base_delay c) == base_delay c)%Q →
  (0 <= base_delay c)%Q → (0 <= u)%Q → (u <= 1)%Q →
  (fmul fa (base_delay c) (3 # 2) <= (_calculate_adaptive_delay fa u c).1)%Q
  ∧ ((_calculate_adaptive_delay fa u c).1
     <= fmul fa (fmul fa (base_delay c) 3) 2)%Q.
Proof.
  intros Hfa Hfloat Hbase Hu0 Hu1.
  pose proof (fl_mono fa Hfa) as Hmono.
  set (b := base_delay c) in *.
  assert (Hlow : (0 <= fl fa (b * (3 # 2)))%Q) by (apply fl_nonneg; [done|lra]).
  assert (Hb3 : (b <= fl fa (b * 3))%Q)
    by (rewrite <-Hfloat at 1; apply Hmono; lra).
  unfold _calculate_adaptive_delay. fold b.
  destruct (response_times c) as [|t times]; cbn [fst]; unfold fmul.
  { split; apply Hmono; lra. }
  set (f := load_factor_for _).
  assert (Hf : (3 # 2 <= f)%Q ∧ (f <= 3)%Q).
  { subst f. destruct (load_factor_for_cases
                (fdiv fa (fsum fa (last_n 10 (t :: times)))
                   (inject_Z (Z.of_nat (length (last_n 10 (t :: times)))))))
      as [[_ ->]|[(_ & _ & ->)|[(_ & _ & ->)|[_ ->]]]]; split; lra. }
  destruct Hf as [Hf1 Hf2].
  cbn [server_load_factor set_server_load_factor
       Crawler.base_delay]. fold b.
  destruct (uniform_bounds fa Hfa u Hu0 Hu1) as [Hr1 Hr2].
  set (r := uniform fa 1 2 u) in *.
  assert (Hbf1 : (fl fa (b * (3 # 2)) <= fl fa (b * f))%Q)
    by (apply Hmono; nra).
  assert (Hbf2 : (fl fa (b * f) <= fl fa (b * 3))%Q)
    by (apply Hmono; nra).
  set (bf := fl fa (b * f)) in *.
  split.
  - rewrite <-(fl_idempotent fa Hfa (b * (3 # 2))) by lra.
    apply Hmono; [done|]. nra.
  - apply Hmono; nra.
Qed.

End pause.

(** The pause after a chapter is between one and a half and six times
    the base delay, as the machine computes these: for a base delay that
    is a float and not negative, a random draw in [0, 1] and an
    arithmetic that rounds to the nearest float, the delay lies between
    the rounded product of the base delay and 1.5 and the rounded
    product of the base delay, 3 and 2, whatever the latencies recorded;
    where no operation rounds these are 1.5 and 6 times the base
    delay. *)
Theorem adaptive_delay_within_bounds
    (fa : PyFloat.arithmetic) (c : Crawler.crawler) (u : Q) :
  PyFloat.correctly_rounded fa →
  (PyFloat.fl fa (Crawler.base_delay c) == Crawler.base_delay c)%Q →
  (0 <= Crawler.base_delay c)%Q → (0 <= u)%Q → (u <= 1)%Q →
  let delay := fst (Crawler._calculate_adaptive_delay fa u c) in
  ((PyFloat.fmul fa (Crawler.base_delay c) (3 # 2) <= delay)%Q
   ∧ (delay <= PyFloat.fmul fa (PyFloat.fmul fa (Crawler.base_delay c) 3) 2)%Q)
  ∧ ((∀ x, (PyFloat.fl fa x == x)%Q) →
     ((3 # 2) * Crawler.base_delay c <= delay)%Q
     ∧ (delay <= 6 * Crawler.base_delay c)%Q).
Proof.
  intros Hfa Hfloat Hbase Hu0 Hu1 delay.
  pose proof (calculate_adaptive_delay_bounds fa c u Hfa Hfloat Hbase Hu0 Hu1)
    as [Hlow Hhigh].
  fold delay in Hlow, Hhigh. split; [done|].
  intros Hexact. unfold PyFloat.fmul in Hlow, Hhigh.
  rewrite Hexact in Hlow.
  rewrite Hexact, (Hexact (Crawler.base_delay c * 3)%Q) in Hhigh.
  split; lra.
Qed.

Lemma adaptive_delay_within_bounds_witness :
  let c := Crawler.record_response_time 4
             (Crawler.__init__ "https://www.twinfoo.com" 2 (3 # 2)) in
  let delay := fst (Crawler._calculate_adaptive_delay PyFloat.binary64
                      (1 # 2) c) in
  (PyFloat.fmul PyFloat.binary64 (3 # 2) (3 # 2) <= delay)%Q
  ∧ (delay
     <= PyFloat.fmul PyFloat.binary64
          (PyFloat.fmul PyFloat.binary64 (3 # 2) 3) 2)%Q.
Proof.
  refine (proj1 (adaptive_delay_within_bounds PyFloat.binary64
           (Crawler.record_response_time 4
              (Crawler.__init__ "https://www.twinfoo.com" 2 (3 # 2)))
           (1 # 2) _ _ _ _ _)).
  - exact binary64_correctly_rounded.
  - by vm_compute.
  - by vm_compute.
  - by vm_compute.
  - by vm_compute.
Defined.

(** ** What the console accepts *)

Section console.
Import PyStr Cli.

Lemma py_min_l a b : (py_min a b <= a)%Q.
Proof.
  unfold py_min. destruct (Crawler.Qgtb a b) eqn:H; [|lra].
  apply Qgtb_true in H. lra.
Qed.

Lemma clamp_bounds d :
  (1 # 2 <= py_max (1 # 2) (py_min 5 d))%Q
  ∧ (py_max (1 # 2) (py_min 5 d) <= 5)%Q.
Proof.
  split; [apply py_max_l|].
  pose proof (py_min_l 5 d). unfold py_max.
  destruct (Crawler.Qgtb (py_min 5 d) (1 # 2)); lra.
Qed.

Lemma endswith_refl s : endswith s s = true.
Proof. destruct s; cbn [endswith]; by rewrite String.eqb_refl. Qed.

Lemma endswith_app s t suffix :
  endswith t suffix = true → endswith (s +:+ t) suffix = true.
Proof.
  intros Ht. induction s as [|c s IH]; [done|].
  change (String c s +:+ t) with (String c (s +:+ t)). cbn [endswith].
  rewrite IH. by destruct (String.eqb _ _).
Qed.

End console.

(** The settings typed at the console are clamped: whatever is typed,
    and whatever number the delay is read as, the crawler [main_async]
    creates has a concurrency limit from 1 to 5 and a base delay from
    0.5 to 5 seconds. *)
Theorem console_settings_are_clamped
    (float : string → option Q) (typed : Cli.console) :
  let c := Cli.crawler_of float typed in
  (1 ≤ Crawler.concurrent_limit c ≤ 5)%Z
  ∧ (1 # 2 <= Crawler.base_delay c)%Q
  ∧ (Crawler.base_delay c <= 5)%Q.
Proof.
  simpl. split.
  - unfold Cli.concurrent_limit_of.
    destruct (Cli.isdigit _); [|lia].
    destruct (PyStr.int _) as [n|]; [|lia].
    destruct (1 <=? n) eqn:H1; destruct (n <=? 5) eqn:H5; simpl; lia.
  - unfold Cli.base_delay_of.
    destruct (PyStr.truthy _); [|apply clamp_bounds].
    destruct (float _) as [d|]; [apply clamp_bounds|split; lra].
Qed.

(** The name of the output file ends in [.txt], whether it was typed
    with the suffix, without it, or not at all. *)
Theorem output_file_name_ends_in_txt (timestamp typed : string) :
  Cli.endswith (Cli.output_file_of timestamp typed) ".txt" = true.
Proof.
  unfold Cli.output_file_of.
  destruct (PyStr.truthy _).
  - destruct (Cli.endswith (PyStr.strip typed) ".txt") eqn:H; [done|].
    apply endswith_app, endswith_refl.
  - apply (endswith_app "小说_"), endswith_app, endswith_refl.
Qed.

(** ** The chapter record *)

Section record.
Import PyStr Sink.

Lemma len_app s t : len (s +:+ t) = (len s + len t)%nat.
Proof.
  induction s as [|c s IH]; [done|].
  change (String c s +:+ t) with (String c (s +:+ t)). cbn [len].
  rewrite IH. by destruct (is_continuation c).
Qed.

Lemma len_spaces n : len (repeat_char " " n) = n.
Proof. induction n as [|n IH]; [done|]. cbn. by rewrite IH. Qed.

Lemma len_take_chars s : ∀ n, len (take_chars n s) = (n `min` len s)%nat.
Proof.
  induction s as [|c s IH]; intros n; [by destruct n|].
  cbn [take_chars len]. destruct (is_continuation c) eqn:Hc.
  - cbn [len]. by rewrite Hc, IH.
  - destruct n as [|n]; [done|]. cbn [len]. rewrite Hc, IH. lia.
Qed.

(** [take_chars] cuts between two code points. *)
Lemma take_chars_split s :
  ∀ n, ∃ rest,
    s = take_chars n s +:+ rest
    ∧ match rest with
      | String c _ => is_continuation c = false
      | EmptyString => True
      end.
Proof.
  induction s as [|c s IH]; intros n; [by exists EmptyString|].
  cbn [take_chars]. destruct (is_continuation c) eqn:Hc.
  - destruct (IH n) as (rest & Hsplit & Hrest). exists rest.
    split; [|done].
    change (String c s = String c (take_chars n s +:+ rest)). by f_equal.
  - destruct n as [|n].
    + exists (String c s). by split.
    + destruct (IH n) as (rest & Hsplit & Hrest). exists rest.
      split; [|done].
    change (String c s = String c (take_chars n s +:+ rest)). by f_equal.
Qed.

Lemma len_center width s : len (center width s) = (width `max` len s)%nat.
Proof.
  unfold center. rewrite !len_app, !len_spaces.
  assert ((width - len s) / 2 ≤ width - len s)%nat
    by (apply Nat.Div0.div_le_upper_bound; lia).
  lia.
Qed.

Lemma len_display_title t : (len (display_title t) ≤ 60)%nat.
Proof.
  unfold display_title. case_decide; [done|].
  rewrite len_app, len_take_chars. change (len "...") with 3%nat. lia.
Qed.

Lemma append_paragraphs_spaced n all_content :
  ∀ i formatted_content,
    (i + length all_content = n)%nat →
    append_paragraphs n i all_content formatted_content
    = formatted_content ++ spaced all_content.
Proof.
  induction all_content as [|paragraph rest IH]; intros i acc Hn; simpl.
  - by rewrite app_nil_r.
  - simpl in Hn. rewrite IH by lia. destruct rest as [|p rest].
    + rewrite decide_False by (simpl in Hn; lia). simpl.
      by rewrite app_nil_r.
    + rewrite decide_True by (simpl in Hn; lia).
      by rewrite <-!app_assoc.
Qed.

Lemma spaced_length all_content :
  length (spaced all_content) = (2 * length all_content - 1)%nat.
Proof.
  induction all_content as [|p [|q rest] IH]; [done..|].
  change (spaced (p :: q :: rest))
    with (("    " +:+ p) :: EmptyString :: spaced (q :: rest)).
  cbn [length] in *. rewrite IH. lia.
Qed.

Lemma spaced_paragraph all_content :
  ∀ i paragraph,
    all_content !! i = Some paragraph →
    spaced all_content !! (2 * i)%nat = Some ("    " +:+ paragraph).
Proof.
  induction all_content as [|p rest IH]; intros i paragraph Hi; [done|].
  destruct i as [|i]; [by injection Hi as ->|].
  simpl in Hi. destruct rest as [|q rest]; [done|].
  change (spaced (p :: q :: rest))
    with (("    " +:+ p) :: EmptyString :: spaced (q :: rest)).
  replace (2 * S i)%nat with (S (S (2 * i))) by lia. simpl.
  by apply IH.
Qed.

Lemma spaced_blank all_content :
  ∀ i, (i + 1 < length all_content)%nat →
       spaced all_content !! (2 * i + 1)%nat = Some EmptyString.
Proof.
  induction all_content as [|p rest IH]; intros i Hi; [simpl in Hi; lia|].
  destruct rest as [|q rest]; [simpl in Hi; lia|].
  change (spaced (p :: q :: rest))
    with (("    " +:+ p) :: EmptyString :: spaced (q :: rest)).
  destruct i as [|i]; [done|].
  replace (2 * S i + 1)%nat with (S (S (2 * i + 1))) by lia. simpl.
  apply IH. simpl in *. lia.
Qed.

Lemma format_lines_spaced title all_content chapter_num :
  format_lines title all_content chapter_num
  = [separator; title_line title chapter_num; separator; EmptyString]
    ++ spaced all_content ++ [EmptyString; EmptyString].
Proof.
  unfold format_lines. rewrite append_paragraphs_spaced by done.
  simpl. by rewrite <-!app_assoc.
Qed.

End record.

(** The layout of a chapter record.  The record of a chapter with at
    least one paragraph has a header of four lines, then paragraph [i]
    on line [4 + 2i], indented by four spaces, an empty line after every
    paragraph but the last, and two empty lines at its end: [2n + 5]
    lines for [n] paragraphs, paragraphs in their order. *)
Theorem record_lays_paragraphs_out
    (title : option string) (all_content : list string) (chapter_num : nat) :
  all_content ≠ [] →
  let lines := Sink.format_lines title all_content chapter_num in
  length lines = (2 * length all_content + 5)%nat
  ∧ take 4 lines
    = [Sink.separator; Sink.title_line title chapter_num; Sink.separator;
       EmptyString]
  ∧ (∀ i paragraph,
       all_content !! i = Some paragraph →
       lines !! (4 + 2 * i)%nat = Some ("    " +:+ paragraph))
  ∧ (∀ i, (i + 1 < length all_content)%nat →
          lines !! (4 + 2 * i + 1)%nat = Some EmptyString)
  ∧ drop (2 * length all_content + 3) lines = [EmptyString; EmptyString].
Proof.
  intros Hne lines. subst lines. rewrite format_lines_spaced.
  assert (0 < length all_content)%nat as Hlen
    by (destruct all_content; [done|simpl; lia]).
  pose proof (spaced_length all_content) as Hspaced.
  split_and!.
  - rewrite !length_app, Hspaced. simpl. lia.
  - done.
  - intros i paragraph Hi.
    rewrite lookup_app_r by (simpl; lia).
    replace (4 + 2 * i - length [Sink.separator;
               Sink.title_line title chapter_num; Sink.separator;
               EmptyString])%nat with (2 * i)%nat by (simpl; lia).
    apply lookup_app_l_Some. by apply spaced_paragraph.
  - intros i Hi.
    rewrite lookup_app_r by (simpl; lia).
    replace (4 + 2 * i + 1 - length [Sink.separator;
               Sink.title_line title chapter_num; Sink.separator;
               EmptyString])%nat with (2 * i + 1)%nat by (simpl; lia).
    apply lookup_app_l_Some. by apply spaced_blank.
  - rewrite drop_app_ge by (simpl; lia).
    rewrite drop_app_ge by (simpl; lia).
    replace (2 * length all_content + 3
             - length [Sink.separator; Sink.title_line title chapter_num;
                       Sink.separator; EmptyString]
             - length (Sink.spaced all_content))%nat with 0%nat
      by (simpl; lia).
    done.
Qed.

Lemma record_lays_paragraphs_out_witness :
  let lines := Sink.format_lines (Some "Chapter 1") ["one"; "two"] 1 in
  length lines = 9%nat
  ∧ lines !! 6%nat = Some "    two"
  ∧ lines !! 5%nat = Some EmptyString.
Proof.
  destruct (record_lays_paragraphs_out (Some "Chapter 1") ["one"; "two"] 1
              ltac:(discriminate)) as (Hlen & _ & Hp & Hb & _).
  split_and!.
  - exact Hlen.
  - exact (Hp 1%nat "two" eq_refl).
  - refine (Hb 0%nat _). simpl. lia.
Defined.

(** The title line of a record is the title as it is shown, centred in
    a line of exactly 80 code points: spaces, the shown title, spaces,
    with as many spaces after it as before, or one more.  A title of up
    to 60 code points is shown whole; a longer one is shown as its first
    57 code points, cut between two of them, followed by three dots. *)
Theorem title_line_is_80_wide (title : string) (chapter_num : nat) :
  PyStr.truthy title = true →
  ∃ shown left right,
    Sink.title_line (Some title) chapter_num
    = Sink.repeat_char " " left +:+ shown +:+ Sink.repeat_char " " right
    ∧ (left + PyStr.len shown + right = 80)%nat
    ∧ (left ≤ right ≤ left + 1)%nat
    ∧ PyStr.len (Sink.title_line (Some title) chapter_num) = 80%nat
    ∧ ((PyStr.len title ≤ 60)%nat → shown = title)
    ∧ ((60 < PyStr.len title)%nat →
       ∃ head c rest,
         shown = head +:+ "..."
         ∧ title = head +:+ String c rest
         ∧ PyStr.len head = 57%nat
         ∧ PyStr.is_continuation c = false).
Proof.
  intros Htitle. unfold Sink.title_line. rewrite Htitle. cbv beta iota.
  pose proof (len_display_title title) as Hlen.
  set (shown := Sink.display_title title) in *.
  set (marg := (80 - PyStr.len shown)%nat).
  exists shown, (marg / 2)%nat, (marg - marg / 2)%nat.
  pose proof (Nat.Div0.div_mod marg 2) as Hdiv.
  pose proof (Nat.mod_upper_bound marg 2 ltac:(lia)) as Hmod.
  split_and!.
  - done.
  - lia.
  - lia.
  - lia.
  - rewrite len_center. lia.
  - intros Hshort. unfold shown, Sink.display_title.
    by rewrite decide_True by done.
  - intros Hlong. unfold shown, Sink.display_title.
    rewrite decide_False by lia.
    destruct (take_chars_split title 57) as (rest & Hsplit & Hboundary).
    assert (PyStr.len (Sink.take_chars 57 title) = 57%nat) as Hhead
      by (rewrite len_take_chars; lia).
    destruct rest as [|c rest].
    { apply (f_equal PyStr.len) in Hsplit.
      rewrite len_app, Hhead in Hsplit. simpl in Hsplit. lia. }
    by exists (Sink.take_chars 57 title), c, rest.
Qed.

Lemma title_line_is_80_wide_witness :
  ∃ shown left right,
    Sink.title_line (Some "Chapter 1") 1
    = Sink.repeat_char " " left +:+ shown +:+ Sink.repeat_char " " right
    ∧ (left + PyStr.len shown + right = 80)%nat
    ∧ (left ≤ right ≤ left + 1)%nat.
Proof.
  destruct (title_line_is_80_wide "Chapter 1" 1 eq_refl)
    as (shown & left & right & Hline & Hsum & Hcentred & _).
  by exists shown, left, right.
Defined.

Section lines.
Import PyStr Sink.

Lemma has_char_app c s t : has_char c (s +:+ t) = has_char c s || has_char c t.
Proof.
  induction s as [|a s IH]; [done|].
  change (String a s +:+ t) with (String a (s +:+ t)). cbn [has_char].
  by rewrite IH, orb_assoc.
Qed.

Lemma has_char_repeat c a n :
  Ascii.eqb a c = false → has_char c (repeat_char a n) = false.
Proof. intros Hne. induction n as [|n IH]; [done|]. cbn. by rewrite Hne. Qed.

Lemma has_char_take_chars c s :
  has_char c s = false → ∀ n, has_char c (take_chars n s) = false.
Proof.
  induction s as [|a s IH]; intros Hs n; [done|].
  cbn [has_char] in Hs. apply orb_false_iff in Hs as [Ha Hs].
  cbn [take_chars]. destruct (is_continuation a); [|destruct n; [done|]];
    cbn [has_char]; by rewrite Ha, IH.
Qed.

Lemma has_char_digits c d :
  is_digit c = false → has_char c (NilEmpty.string_of_uint d) = false.
Proof.
  intros Hc.
  induction d as [|d IH|d IH|d IH|d IH|d IH|d IH|d IH|d IH|d IH|d IH];
    [done|cbn [NilEmpty.string_of_uint has_char]; rewrite IH;
          match goal with
          | |- Ascii.eqb ?a c || false = false =>
              destruct (Ascii.eqb_spec a c) as [<-|]; [done|done]
          end..].
Qed.

Lemma has_char_string_of_uint c d :
  is_digit c = false → has_char c (NilZero.string_of_uint d) = false.
Proof.
  intros Hc. destruct d; try apply (has_char_digits c _ Hc).
  cbn [NilZero.string_of_uint has_char].
  destruct (Ascii.eqb_spec "0" c) as [<-|]; [by vm_compute in Hc|done].
Qed.

Lemma has_char_center c width s :
  Ascii.eqb " " c = false →
  has_char c s = false → has_char c (center width s) = false.
Proof.
  intros Hc Hs. unfold center.
  by rewrite !has_char_app, !has_char_repeat, Hs.
Qed.

Lemma title_line_one_line title chapter_num :
  from_option (has_char (ascii_of_N 10)) false title = false →
  has_char (ascii_of_N 10) (title_line title chapter_num) = false.
Proof.
  intros Htitle.
  assert (has_char (ascii_of_N 10)
            (center 80 ("第" +:+ str_of_nat chapter_num +:+ "章")) = false)
    as Hnum.
  { apply has_char_center; [done|].
    rewrite !has_char_app. unfold str_of_nat.
    by rewrite has_char_string_of_uint. }
  unfold title_line. destruct title as [t|]; [|done].
  destruct (truthy t); [|done].
  apply has_char_center; [done|]. simpl in Htitle.
  unfold display_title. case_decide; [done|].
  by rewrite has_char_app, has_char_take_chars.
Qed.

Lemma spaced_one_line all_content :
  Forall (λ p, has_char (ascii_of_N 10) p = false) all_content →
  Forall (λ p, has_char (ascii_of_N 10) p = false) (spaced all_content).
Proof.
  induction 1 as [|p rest Hp Hrest IH]; [constructor|].
  cbn [spaced]. constructor; [by rewrite has_char_app, Hp|].
  destruct rest; [constructor|]. by constructor.
Qed.

Lemma split_one_line c s : has_char c s = false → split c s = [s].
Proof.
  induction s as [|a s IH]; [done|]. cbn [has_char split].
  intros [Ha Hs]%orb_false_iff. by rewrite Ha, IH.
Qed.

Lemma split_app c s t :
  has_char c s = false → split c (s +:+ String c t) = s :: split c t.
Proof.
  induction s as [|a s IH]; intros Hs.
  - simpl. by rewrite Ascii.eqb_refl.
  - cbn [has_char] in Hs. apply orb_false_iff in Hs as [Ha Hs].
    change (String a s +:+ String c t) with (String a (s +:+ String c t)).
    cbn [split]. by rewrite Ha, IH.
Qed.

(** Lines without the separator are got back by splitting what joining
    made of them. *)
Lemma split_join c l :
  l ≠ [] → Forall (λ s, has_char c s = false) l →
  split c (join (String c EmptyString) l) = l.
Proof.
  intros Hne Hl. induction Hl as [|s l Hs Hl IH]; [done|].
  destruct l as [|t l]; [by apply split_one_line|].
  change (join (String c EmptyString) (s :: t :: l))
    with (s +:+ String c EmptyString +:+ join (String c EmptyString) (t :: l)).
  change (String c EmptyString +:+ ?x) with (String c x).
  rewrite split_app by done. by rewrite IH.
Qed.

(** Lines without a line feed survive the joining. *)
Lemma format_chapter_content_split title all_content chapter_num :
  from_option (has_char (ascii_of_N 10)) false title = false →
  Forall (λ p, has_char (ascii_of_N 10) p = false) all_content →
  split (ascii_of_N 10) (format_chapter_content title all_content chapter_num)
  = format_lines title all_content chapter_num.
Proof.
  intros Htitle Hcontent. unfold format_chapter_content, Sink.newline.
  apply split_join.
  - rewrite format_lines_spaced. done.
  - rewrite format_lines_spaced. apply Forall_app. split.
    + repeat constructor; try done. by apply title_line_one_line.
    + apply Forall_app. split; [by apply spaced_one_line|].
      by repeat constructor.
Qed.

End lines.

(** A chapter record reads back line by line.  When neither the title
    nor a paragraph holds a line feed, as is the case for cleaned text,
    splitting the text of the record at the line feeds gives back the
    lines it was joined from: one line for every header line, paragraph
    and empty line, and none broken. *)
Theorem record_reads_back_line_by_line
    (title : option string) (all_content : list string) (chapter_num : nat) :
  from_option (PyStr.has_char (ascii_of_N 10)) false title = false →
  Forall (λ p, PyStr.has_char (ascii_of_N 10) p = false) all_content →
  PyStr.split (ascii_of_N 10)
    (Sink.format_chapter_content title all_content chapter_num)
  = Sink.format_lines title all_content chapter_num.
Proof. apply format_chapter_content_split. Qed.

Lemma record_reads_back_line_by_line_witness :
  PyStr.split (ascii_of_N 10)
    (Sink.format_chapter_content (Some "Chapter 1") ["one"; "two"] 1)
  = Sink.format_lines (Some "Chapter 1") ["one"; "two"] 1.
Proof.
  apply (record_reads_back_line_by_line (Some "Chapter 1") ["one"; "two"] 1).
  - reflexivity.
  - repeat constructor.
Defined.

(** ** More on the pagination resolver *)

Section resolver.
Import Crawler.

Lemma pagination_candidate_valid w c url a href :
  pagination_candidate w c url a = Some href → _validate_url href = true.
Proof.
  unfold pagination_candidate. intros H.
  destruct (Crawler.href a) as [h|]; [|done].
  destruct (PyStr.truthy h); [|done].
  destruct (existsb _ _); [done|].
  destruct (_validate_url _) eqn:Hvalid; [|done]. simpl in H.
  destruct (negb _); [|done]. by injection H as <-.
Qed.

(** What the resolver makes of the candidates it collected. *)
Lemma ordered_links candidates (P : string → Prop) :
  Forall P candidates →
  let links := match _deduplicate_preserve_order candidates with
               | [] => _deduplicate_preserve_order candidates
               | _ => _sort_pagination_urls
                        (_deduplicate_preserve_order candidates)
               end in
  NoDup links ∧ Forall P links
  ∧ StronglySorted (key_le _extract_page_number) links.
Proof.
  intros Hc.
  assert (Hd : Forall P (_deduplicate_preserve_order candidates)).
  { rewrite Forall_forall in Hc. apply Forall_forall. intros u Hu.
    apply dedup_loop_elem_of in Hu as [Hu _]. by apply Hc. }
  pose proof (dedup_loop_NoDup candidates ∅) as Hnodup.
  fold (_deduplicate_preserve_order candidates) in Hnodup.
  destruct (_deduplicate_preserve_order candidates) as [|u l] eqn:Hdedup;
    simpl; [split_and!; constructor|].
  rewrite sort_pagination_urls_sort_by. split_and!.
  - by rewrite sort_by_perm.
  - by rewrite sort_by_perm.
  - apply sort_by_sorted.
Qed.

End resolver.

(** The pages the resolver lists.  Whatever the document links to, the
    list [get_pagination_links] returns has no URL twice, does not hold
    the URL of the document itself, holds only URLs with a scheme and a
    host, and is in ascending order of page number. *)
Theorem pagination_links_are_clean
    (w : Crawler.world) (url : string) (st : Crawler.state) :
  let links := fst (Crawler.get_pagination_links w url st) in
  NoDup links
  ∧ Forall (λ u, u ≠ url ∧ Crawler._validate_url u = true) links
  ∧ StronglySorted (Crawler.key_le Crawler._extract_page_number) links.
Proof.
  intros links.
  assert (∃ st', Crawler.get_pagination_links w url st = (links, st'))
    as [st' Hrun] by (eexists; apply surjective_pairing).
  clearbody links. unfold Crawler.get_pagination_links in Hrun.
  unfold mbind at 1 in Hrun. unfold Crawler.M_bind in Hrun.
  destruct (Crawler.fetch_with_retry w url st) as [page st1].
  destruct page as [page|];
    [|injection Hrun as <- <-; split_and!; constructor].
  destruct (Crawler.no_content (Some page));
    [injection Hrun as <- <-; split_and!; constructor|].
  unfold mbind at 1 in Hrun. unfold Crawler.M_bind, Crawler.get_self in Hrun.
  unfold mret at 1 in Hrun. unfold Crawler.M_ret in Hrun.
  injection Hrun as <- <-.
  apply ordered_links.
  apply Forall_forall. intros u Hu.
  repeat match type of Hu with
         | _ ∈ _ ++ _ =>
             apply elem_of_app in Hu as [Hu|Hu];
             [apply list_elem_of_omap in Hu as (a & _ & Hu);
              split; [by eapply pagination_candidate_ne
                     |by eapply pagination_candidate_valid]|]
         end.
  by apply elem_of_nil in Hu.
Qed.

(** ** What a chapter is made of *)

Section paragraphs.
Import Crawler Session.

Lemma extract_page_content_kept w url st :
  Forall kept (extract_page_content w url st).1.1.1.
Proof.
  unfold extract_page_content. unfold mbind at 1. unfold M_bind.
  destruct (fetch_with_retry w url st) as [[page|] st1]; [|constructor].
  destruct (no_content (Some page)); [constructor|].
  unfold mbind, M_bind, get_self. cbv zeta.
  destruct (find_blurstxt (html_soup page)) as [[|p paragraphs]|];
    [constructor| |constructor].
  unfold mret, M_ret. cbn [fst].
  apply Forall_forall. intros q Hq.
  apply list_elem_of_filter in Hq as [Hkeep Hq].
  apply list_elem_of_fmap in Hq as (raw & -> & _).
  unfold keep_paragraph in Hkeep.
  apply andb_true_iff in Hkeep as [_ Hlen].
  apply bool_decide_eq_true in Hlen. split; [done|by exists raw].
Qed.

Lemma crawl_pages_kept w n links :
  ∀ i buffer st,
    Forall (λ x, Forall kept x.2) buffer →
    Forall (λ x, Forall kept x.2) (crawl_pages w n i links buffer st).1.
Proof.
  induction links as [|page_url links IH]; intros i buffer st Hbuffer;
    [done|].
  simpl. unfold mbind at 1. unfold M_bind.
  pose proof (extract_page_content_kept w page_url st) as Hpage.
  destruct (extract_page_content w page_url st) as [[[pc ?] ?] st1].
  simpl in Hpage. unfold mbind, M_bind.
  destruct (_ : M unit) as [[] st2].
  apply IH. destruct pc as [|p pc]; [done|].
  apply Forall_app. split; [done|]. by constructor.
Qed.

Lemma extend_by_index_kept all_content page_contents :
  Forall kept all_content →
  Forall (λ x, Forall kept x.2) page_contents →
  Forall kept (extend_by_index all_content page_contents).
Proof.
  intros Hall Hpages. rewrite extend_by_index_concat.
  apply Forall_app. split; [done|].
  apply Forall_concat, Forall_fmap.
  by rewrite sort_by_perm.
Qed.

Lemma chapter_kept w url n st title content next st' :
  crawl_complete_chapter_async w url n st
  = (inr (title, content, next), st') →
  Forall kept content.
Proof.
  unfold crawl_complete_chapter_async.
  destruct (node_raises w n); [done|].
  unfold mbind at 1. unfold M_bind at 1.
  pose proof (extract_page_content_kept w url st) as Hmain.
  destruct (extract_page_content w url st) as [[[main ?] ?] st1].
  simpl in Hmain.
  unfold mbind at 1. unfold M_bind at 1.
  destruct (get_pagination_links w url st1) as [links st2].
  unfold mbind at 1. unfold M_bind at 1.
  destruct links as [|link links].
  - unfold mret at 1. unfold M_ret at 1.
    unfold mbind at 1. unfold M_bind at 1.
    destruct (adaptive_delay w st2) as [d st3].
    unfold mbind, M_bind, sleep, emit, mret, M_ret.
    by intros [= _ <- _ _].
  - unfold mbind at 1. unfold M_bind at 1.
    pose proof (crawl_pages_kept w (length (link :: links)) (link :: links)
                  0 [] st2 (Forall_nil_2 _)) as Hpages.
    destruct (crawl_pages w _ 0 (link :: links) [] st2) as [pcs st3].
    simpl in Hpages.
    unfold mret at 1. unfold M_ret at 1.
    unfold mbind at 1. unfold M_bind at 1.
    destruct (adaptive_delay w st3) as [d st4].
    unfold mbind, M_bind, sleep, emit, mret, M_ret.
    intros [= _ <- _ _]. by apply extend_by_index_kept.
Qed.

End paragraphs.

(** No short paragraph reaches a chapter.  Every paragraph of the
    chapter [crawl_complete_chapter_async] assembles, from the main page
    or from a further page, is a cleaned text of more than five code
    points; shorter ones are dropped. *)
Theorem chapter_paragraphs_exceed_five_code_points
    (w : Crawler.world) (url : string) (n : nat) (st st' : Crawler.state)
    (title next : option string) (content : list string) :
  Crawler.crawl_complete_chapter_async w url n st
  = (inr (title, content, next), st') →
  Forall (λ p, (5 < PyStr.len p)%nat ∧ ∃ raw, p = Crawler._clean_text raw)
    content.
Proof. apply chapter_kept. Qed.

Lemma chapter_paragraphs_exceed_five_code_points_witness :
  Forall (λ p, (5 < PyStr.len p)%nat ∧ ∃ raw, p = Crawler._clean_text raw)
    ["first paragraph of B"; "second paragraph of B"; "third paragraph of B"].
Proof.
  apply (chapter_paragraphs_exceed_five_code_points
           (Scenario.static_site Scenario.two_chapters) Scenario.url_b 2
           Scenario.fresh
           (snd (Crawler.crawl_complete_chapter_async
                   (Scenario.static_site Scenario.two_chapters)
                   Scenario.url_b 2 Scenario.fresh))
           (Some "Chapter B") None).
  vm_compute. reflexivity.
Defined.

(** ** The text cleaner *)

Section cleaner.
Import PyStr Re Crawler.

Lemma lstrip_idempotent s : lstrip (lstrip s) = lstrip s.
Proof.
  induction s as [|a s IH]; [done|]. cbn [lstrip].
  destruct (is_space a) eqn:Ha; [done|]. cbn [lstrip]. by rewrite Ha.
Qed.

Lemma rstrip_idempotent s : rstrip (rstrip s) = rstrip s.
Proof.
  induction s as [|a s IH]; [done|]. cbn [rstrip].
  destruct (rstrip s) as [|b r] eqn:Hr.
  - destruct (is_space a) eqn:Ha; [done|]. cbn [rstrip]. by rewrite Ha.
  - cbn [rstrip]. cbn [rstrip] in IH. by rewrite IH.
Qed.

Lemma lstrip_rstrip_lstrip s : lstrip (rstrip (lstrip s)) = rstrip (lstrip s).
Proof.
  induction s as [|a s IH]; [done|].
  change (lstrip (String a s))
    with (if is_space a then lstrip s else String a s).
  destruct (is_space a) eqn:Ha; [exact IH|].
  change (rstrip (String a s))
    with (match rstrip s with
          | EmptyString => if is_space a then EmptyString
                           else String a EmptyString
          | r => String a r
          end).
  rewrite Ha. destruct (rstrip s); cbn [lstrip]; by rewrite Ha.
Qed.

Lemma strip_idempotent s : strip (strip s) = strip s.
Proof.
  unfold strip. by rewrite lstrip_rstrip_lstrip, rstrip_idempotent.
Qed.

Lemma has_char_lstrip c s :
  has_char c (lstrip s) = true → has_char c s = true.
Proof.
  induction s as [|a s IH]; [done|]. cbn [lstrip].
  destruct (is_space a); [|done].
  intros H. cbn [has_char]. rewrite IH by done. apply orb_true_r.
Qed.

Lemma has_char_rstrip c s :
  has_char c (rstrip s) = true → has_char c s = true.
Proof.
  induction s as [|a s IH]; [done|]. cbn [rstrip].
  destruct (rstrip s) as [|b r].
  - destruct (is_space a); [done|]. cbn [has_char].
    rewrite orb_false_r. by intros ->.
  - cbn [has_char] in *. intros [->|H]%orb_true_iff; [done|].
    rewrite IH by done. apply orb_true_r.
Qed.

Lemma has_char_strip c s : has_char c (strip s) = true → has_char c s = true.
Proof. intros H. by apply has_char_lstrip, has_char_rstrip. Qed.

(** Substituting the empty text only deletes. *)
Lemma has_char_sub_empty re c s :
  ∀ skip, has_char c (sub_aux re EmptyString skip s) = true →
          has_char c s = true.
Proof.
  induction s as [|a s IH]; intros skip; [done|]. cbn [sub_aux has_char].
  assert (Hkeep : ∀ k, has_char c (String a (sub_aux re EmptyString k s)) = true →
                       Ascii.eqb a c || has_char c s = true).
  { intros k. cbn [has_char]. intros [->|H]%orb_true_iff; [done|].
    rewrite (IH k) by done. apply orb_true_r. }
  assert (Hdrop : ∀ k, has_char c (sub_aux re EmptyString k s) = true →
                       Ascii.eqb a c || has_char c s = true).
  { intros k H. rewrite (IH k) by done. apply orb_true_r. }
  destruct skip as [|k]; [|apply Hdrop].
  destruct (match_here re (String a s)) as [[g rest]|]; [|apply Hkeep].
  destruct (_ - _)%nat; [apply Hkeep|apply Hdrop].
Qed.

Lemma length_skipn n : ∀ s, (String.length (PyStr.skipn n s) ≤ String.length s)%nat.
Proof.
  induction n as [|n IH]; intros s; [done|].
  destruct s as [|a s]; [done|]. cbn. pose proof (IH s). lia.
Qed.

Lemma longest_first_end k s g rest :
  longest_first k (match_here []) false s = Some (g, rest) →
  ∃ j, (0 < j)%nat ∧ rest = PyStr.skipn j s.
Proof.
  destruct k as [|k]; [done|]. cbn. intros [= _ <-].
  exists (S k). split; [lia|done].
Qed.

(** After the runs of whitespace are replaced, the only whitespace left
    is the space. *)
Lemma has_char_sub_whitespace c s :
  ∀ skip,
    has_char c (sub_aux whitespace " " skip s) = true →
    is_space c = true → c = " "%char.
Proof.
  induction s as [|a s IH]; intros skip; [done|]. cbn [sub_aux].
  destruct skip as [|k]; [|apply IH].
  assert (Hkeep : is_space a = false →
    has_char c (String a (sub_aux whitespace " " 0 s)) = true →
    is_space c = true → c = " "%char).
  { intros Ha. cbn [has_char]. intros [Hac|H]%orb_true_iff Hc;
      [|by eapply IH].
    apply Ascii.eqb_eq in Hac as ->. congruence. }
  unfold whitespace at 1. cbn [match_here run_length].
  destruct (is_space a) eqn:Ha; [|by apply Hkeep].
  destruct (longest_first _ _ _ _) as [[g rest]|] eqn:Hmatch; [|done].
  apply longest_first_end in Hmatch as (j & Hj & ->).
  destruct j as [|j]; [lia|]. cbn [PyStr.skipn String.length].
  pose proof (length_skipn j s) as Hlen.
  destruct (_ - _)%nat eqn:Hdiff; [lia|].
  change (" " +:+ ?x) with (String " " x). cbn [has_char].
  intros [Hc|Hin]%orb_true_iff Hspace; [by apply Ascii.eqb_eq in Hc|].
  by eapply IH.
Qed.

Lemma has_char_ads c patterns :
  ∀ t, has_char c (foldl (λ t pattern, sub pattern EmptyString t) t patterns)
       = true →
       has_char c t = true.
Proof.
  induction patterns as [|pattern patterns IH]; intros t; [done|].
  cbn [foldl]. intros H. apply IH in H. by eapply has_char_sub_empty.
Qed.

Lemma clean_text_spaces text c :
  has_char c (_clean_text text) = true → is_space c = true → c = " "%char.
Proof.
  unfold _clean_text. destruct (negb (truthy text)); [done|].
  intros H. apply has_char_strip, has_char_ads in H.
  by eapply has_char_sub_whitespace.
Qed.

Lemma clean_text_one_line text :
  has_char (ascii_of_N 10) (_clean_text text) = false.
Proof.
  destruct (has_char _ _) eqn:H; [|done].
  by apply clean_text_spaces in H.
Qed.

End cleaner.

(** Cleaned text is trimmed and holds no white space but the space.
    Whatever the text, [_clean_text] returns a text that neither starts
    nor ends with white space, so that stripping it changes nothing,
    and in which every white-space character is a space: no line feed
    and no tab is left. *)
Theorem cleaned_text_is_trimmed_and_on_one_line (text : string) :
  let cleaned := Crawler._clean_text text in
  PyStr.strip cleaned = cleaned
  ∧ (∀ c, PyStr.has_char c cleaned = true → PyStr.is_space c = true →
          c = " "%char)
  ∧ PyStr.has_char (ascii_of_N 10) cleaned = false.
Proof.
  split_and!.
  - unfold Crawler._clean_text.
    destruct (negb (PyStr.truthy text)); [done|apply strip_idempotent].
  - intros c. apply clean_text_spaces.
  - apply clean_text_one_line.
Qed.

Section titles.
Import PyStr Crawler.

Lemma find_title_one_line doc selectors :
  from_option (has_char (ascii_of_N 10)) false (find_title doc selectors)
  = false.
Proof.
  induction selectors as [|selector rest IH]; [done|]. cbn [find_title].
  destruct (select_one doc selector) as [text|]; [|done].
  destruct (_ && _); [|done]. apply clean_text_one_line.
Qed.

Lemma extract_page_content_title w url st :
  from_option (has_char (ascii_of_N 10)) false
    (extract_page_content w url st).1.2 = false.
Proof.
  unfold extract_page_content. unfold mbind at 1. unfold M_bind.
  destruct (fetch_with_retry w url st) as [[page|] st1]; [|done].
  destruct (no_content (Some page)); [done|].
  unfold mbind, M_bind, get_self. cbv zeta.
  destruct (find_blurstxt (html_soup page)) as [[|p paragraphs]|];
    apply find_title_one_line.
Qed.

Lemma chapter_title_one_line w url n st title content next st' :
  crawl_complete_chapter_async w url n st
  = (inr (title, content, next), st') →
  from_option (has_char (ascii_of_N 10)) false title = false.
Proof.
  unfold crawl_complete_chapter_async.
  destruct (node_raises w n); [done|].
  unfold mbind at 1. unfold M_bind at 1.
  pose proof (extract_page_content_title w url st) as Hmain.
  destruct (extract_page_content w url st) as [[[main ?] main_title] st1].
  simpl in Hmain.
  unfold mbind at 1. unfold M_bind at 1.
  destruct (get_pagination_links w url st1) as [links st2].
  unfold mbind at 1. unfold M_bind at 1.
  destruct (_ : M (list string)) as [all_content st3].
  unfold mbind at 1. unfold M_bind at 1.
  destruct (adaptive_delay w st3) as [d st4].
  unfold mbind, M_bind, sleep, emit, mret, M_ret.
  by intros [= <- _ _ _].
Qed.

End titles.

(** The record of a crawled chapter holds one paragraph per line.  For
    the title and the paragraphs [crawl_complete_chapter_async] returns,
    whatever the site served, the text [format_chapter_content] makes of
    them splits at its line feeds into exactly the lines it was joined
    from: no title and no paragraph is broken over two lines. *)
Theorem crawled_chapter_is_written_one_paragraph_per_line
    (w : Crawler.world) (url : string) (n : nat) (st st' : Crawler.state)
    (title next : option string) (content : list string) :
  Crawler.crawl_complete_chapter_async w url n st
  = (inr (title, content, next), st') →
  PyStr.split (ascii_of_N 10) (Sink.format_chapter_content title content n)
  = Sink.format_lines title content n.
Proof.
  intros Hrun. apply format_chapter_content_split.
  - by eapply chapter_title_one_line.
  - apply chapter_kept in Hrun.
    eapply Forall_impl; [exact Hrun|]. simpl.
    intros p (_ & raw & ->). apply clean_text_one_line.
Qed.

Lemma crawled_chapter_is_written_one_paragraph_per_line_witness :
  PyStr.split (ascii_of_N 10)
    (Sink.format_chapter_content (Some "Chapter A") ["first paragraph of A"] 1)
  = Sink.format_lines (Some "Chapter A") ["first paragraph of A"] 1.
Proof.
  apply (crawled_chapter_is_written_one_paragraph_per_line
           (Scenario.static_site Scenario.two_chapters) Scenario.url_a 1
           Scenario.fresh
           (snd (Crawler.crawl_complete_chapter_async
                   (Scenario.static_site Scenario.two_chapters)
                   Scenario.url_a 1 Scenario.fresh))
           (Some "Chapter A") (Some Scenario.url_b)).
  vm_compute. reflexivity.
Defined.

Section politeness.
Import Crawler Session.

(** The steps of a chapter leave the base delay as it is. *)
Lemma keeps_base_delay (b : Q) :
  kept_by_chapter (λ s, base_delay (self s) = b).
Proof.
  unfold kept_by_chapter. split_and!; try (intros; simpl; done).
  intros s fa u Hs. simpl.
  by destruct (calculate_adaptive_delay_self fa u (self s)) as [->|(f & _ & ->)].
Qed.

End politeness.

(** Every chapter ends with a pause.  When the chapter is fetched, the
    last thing [crawl_complete_chapter_async] does is to sleep, for
    between one and a half and six times the base delay as the machine
    computes these (the rounded product of the base delay and 1.5, and
    the rounded product of the base delay, 3 and 2), whatever was
    fetched and however often; where no operation rounds these are 1.5
    and 6 times the base delay. *)
Theorem chapter_ends_with_a_pause
    (w : Crawler.world) (url : string) (n : nat) (st : Crawler.state) :
  Crawler.node_raises w n = None →
  PyFloat.correctly_rounded (Crawler.arith w) →
  (PyFloat.fl (Crawler.arith w) (Crawler.base_delay (Crawler.self st))
   == Crawler.base_delay (Crawler.self st))%Q →
  (0 <= Crawler.base_delay (Crawler.self st))%Q →
  (∀ h, (0 <= Crawler.random_random w h)%Q
        ∧ (Crawler.random_random w h <= 1)%Q) →
  let fa := Crawler.arith w in
  let base_delay := Crawler.base_delay (Crawler.self st) in
  ∃ d h,
    Crawler.trace (snd (Crawler.crawl_complete_chapter_async w url n st))
    = Crawler.Sleep d :: h
    ∧ (PyFloat.fmul fa base_delay (3 # 2) <= d)%Q
    ∧ (d <= PyFloat.fmul fa (PyFloat.fmul fa base_delay 3) 2)%Q
    ∧ ((∀ x, (PyFloat.fl fa x == x)%Q) →
       ((3 # 2) * base_delay <= d)%Q ∧ (d <= 6 * base_delay)%Q).
Proof.
  intros Hraise Hfa Hfloat Hbase Hrandom fa base_delay.
  unfold Crawler.crawl_complete_chapter_async.
  rewrite Hraise.
  pose proof (keeps_base_delay (Crawler.base_delay (Crawler.self st)))
    as Hkeeps.
  unfold mbind at 1. unfold Crawler.M_bind at 1.
  destruct (Crawler.extract_page_content w url st)
    as [[[main ?] ?] st1] eqn:H1.
  pose proof (keeps_extract_page_content _ Hkeeps w url st _ st1 eq_refl H1)
    as Hb1. simpl in Hb1.
  unfold mbind at 1. unfold Crawler.M_bind at 1.
  destruct (Crawler.get_pagination_links w url st1) as [links st2] eqn:H2.
  pose proof (keeps_get_pagination_links _ Hkeeps w url st1 _ st2 Hb1 H2)
    as Hb2. simpl in Hb2.
  unfold mbind at 1. unfold Crawler.M_bind at 1.
  destruct (_ : Crawler.M (list string)) as [all_content st3] eqn:H3.
  assert (Crawler.base_delay (Crawler.self st3)
          = Crawler.base_delay (Crawler.self st)) as Hb3.
  { destruct links as [|link links]; [by injection H3 as _ <-|].
    unfold mbind at 1 in H3. unfold Crawler.M_bind at 1 in H3.
    destruct (Crawler.crawl_pages w _ 0 (link :: links) [] st2)
      as [pcs st'] eqn:Hp.
    pose proof (keeps_crawl_pages _ Hkeeps w _ _ _ _ st2 _ st' Hb2 Hp) as Hb.
    by injection H3 as _ <-. }
  unfold Crawler.adaptive_delay.
  unfold mbind, Crawler.M_bind, mret, Crawler.M_ret, Crawler.get_trace,
    Crawler.get_self, Crawler.modify_self, Crawler.sleep, Crawler.emit,
    Crawler.with_self.
  pose proof (calculate_adaptive_delay_bounds fa (Crawler.self st3)
                (Crawler.random_random w (Crawler.trace st3))) as Hd.
  fold fa.
  destruct (Crawler._calculate_adaptive_delay fa
              (Crawler.random_random w (Crawler.trace st3))
              (Crawler.self st3)) as [d c'].
  rewrite Hb3 in Hd. fold base_delay in Hd. simpl in Hd.
  destruct (Hrandom (Crawler.trace st3)) as [Hu0 Hu1].
  destruct (Hd Hfa Hfloat Hbase Hu0 Hu1) as [Hlow Hhigh].
  exists d, (Crawler.trace st3). split_and!; try done.
  intros Hexact. unfold PyFloat.fmul in Hlow, Hhigh.
  rewrite Hexact in Hlow.
  rewrite Hexact, (Hexact (base_delay * 3)%Q) in Hhigh.
  split; lra.
Qed.

Lemma chapter_ends_with_a_pause_witness :
  let fa := PyFloat.binary64 in
  ∃ d h,
    Crawler.trace (snd (Crawler.crawl_complete_chapter_async
                          (Scenario.static_site Scenario.two_chapters)
                          Scenario.url_a 1 Scenario.fresh))
    = Crawler.Sleep d :: h
    ∧ (PyFloat.fmul fa (3 # 2) (3 # 2) <= d)%Q
    ∧ (d <= PyFloat.fmul fa (PyFloat.fmul fa (3 # 2) 3) 2)%Q.
Proof.
  destruct (chapter_ends_with_a_pause
              (Scenario.static_site Scenario.two_chapters) Scenario.url_a 1
              Scenario.fresh) as (d & h & Ht & Hlow & Hhigh & _).
  - reflexivity.
  - exact binary64_correctly_rounded.
  - vm_compute. reflexivity.
  - vm_compute. discriminate.
  - intros h. split; vm_compute; discriminate.
  - exists d, h. split; [exact Ht|]. split; [exact Hlow|exact Hhigh].
Defined.
